(** * Subtitle translator: the translation engine and its retry scheduler

    A shallow embedding of the translation core of
    [Translate_embed_sub_Final.py] (class [CombinedSubtitleProcessorGUI]):
    [translate_text_direct], [get_next_endpoint], [translate_subtitle],
    [process_file_parallel], [retry_untranslated_lines_sequential], the
    body of [translate_files_thread], [get_output_path] and
    [save_subtitles]; and, around the engine, of [test_translation],
    [get_embed_language_code], the list of files of the window
    ([browse_files], [handle_drop], [reset_outputs_after_file_change]), the
    four methods that start a stage and the Run All pipeline
    ([initiate_next_run_all_step], [run_all_complete]).

    Conventions of the embedding.
    - A Python [str] is a [string]; a character is a code point below 256.
    - The attributes of the object are the fields of [state]; every method
      takes the state and returns the new one next to its result.  The Tk
      variables and the colour, which translation only reads, are the
      [settings].
    - The disk maps a path to the captions of the subtitle file there, as
      [pysrt.open] returns them and [save] writes them; text encodings and
      the SRT syntax are not modelled.  Paths are POSIX paths.
    - What the program cannot decide by itself is asked from an [env]: the
      answers of the translation service, the value of the shared flag
      [translation_in_progress] (cleared by the GUI thread when the user
      cancels), which pending future completes next, and whether a write to
      disk succeeds.  Every question advances [clock], so that an [env]
      fixes one whole execution; the theorems quantify over all of them.
    - The worker pool is linearised: a task ([translate_subtitle]) runs as
      one step when its future completes, and the collection loop receives
      the future right after.  The methods of the model raise only where
      the definitions say so; exceptions of the GUI toolkit are left out.
    - [attempts] is a history variable: the program never reads it.  It
      records the calls of [translate_text_direct] made on behalf of a
      subtitle line, by the parallel pass or by a retry pass.  [completed],
      in the locals of the collection loop, is one as well.
    - [time.sleep], the throttle delay, logging and the progress display have
      no effect on the modelled attributes and are left out. *)

From stdpp Require Import gmap strings list fin_maps.
From Stdlib Require Import Ascii String ZArith Lia Permutation.

Open Scope string_scope.
Open Scope Z_scope.
Open Scope nat_scope.

(* ================================================================== *)
(** * Python strings *)
(* ================================================================== *)

Module PyStr.

(** [str.isspace] on the code points below 256. *)
Definition isspace (c : ascii) : bool :=
  let n := nat_of_ascii c in
  ((9 <=? n) && (n <=? 13)) || ((28 <=? n) && (n <=? 32))
  || (n =? 133) || (n =? 160).

Fixpoint lstrip (s : string) : string :=
  match s with
  | EmptyString => EmptyString
  | String c s' => if isspace c then lstrip s' else s
  end.

(** Dropping the trailing characters that satisfy [p]. *)
Fixpoint rstrip_by (p : ascii -> bool) (s : string) : string :=
  match s with
  | EmptyString => EmptyString
  | String c s' =>
      match rstrip_by p s' with
      | EmptyString => if p c then EmptyString else String c EmptyString
      | r => String c r
      end
  end.

Definition rstrip : string -> string := rstrip_by isspace.

(** [s.strip()] *)
Definition strip (s : string) : string := rstrip (lstrip s).

(** Truth value of a string: [if s:] *)
Definition truthy (s : string) : bool :=
  match s with EmptyString => false | _ => true end.

Definition upper_char (c : ascii) : ascii :=
  let n := nat_of_ascii c in
  if ((97 <=? n) && (n <=? 122))
     || ((224 <=? n) && (n <=? 254) && negb (n =? 247))
  then ascii_of_nat (n - 32) else c.

Definition lower_char (c : ascii) : ascii :=
  let n := nat_of_ascii c in
  if ((65 <=? n) && (n <=? 90))
     || ((192 <=? n) && (n <=? 222) && negb (n =? 215))
  then ascii_of_nat (n + 32) else c.

Fixpoint map_chars (f : ascii -> ascii) (s : string) : string :=
  match s with
  | EmptyString => EmptyString
  | String c s' => String (f c) (map_chars f s')
  end.

Definition upper : string -> string := map_chars upper_char.
Definition lower : string -> string := map_chars lower_char.

(** [c.isalpha()] below 256: the ASCII letters, the ordinal indicators,
    the micro sign and the Latin-1 letters. *)
Definition isalpha_char (c : ascii) : bool :=
  let n := nat_of_ascii c in
  ((65 <=? n) && (n <=? 90)) || ((97 <=? n) && (n <=? 122))
  || (n =? 170) || (n =? 181) || (n =? 186)
  || ((192 <=? n) && (n <=? 255) && negb (n =? 215) && negb (n =? 247)).

Fixpoint all_chars (p : ascii -> bool) (s : string) : bool :=
  match s with
  | EmptyString => true
  | String c s' => p c && all_chars p s'
  end.

(** [s.isalpha()]: false on the empty string. *)
Definition isalpha (s : string) : bool := truthy s && all_chars isalpha_char s.

(** [s[i:j]] for [0 <= i <= j]. *)
Definition slice (i j : nat) (s : string) : string := substring i (j - i) s.

(** [s[:-n]] for [n > 0]. *)
Definition drop_last (n : nat) (s : string) : string :=
  substring 0 (String.length s - n) s.

(** [s.endswith(suffix)] *)
Definition endswith (s suffix : string) : bool :=
  (String.length suffix <=? String.length s)
  && String.eqb (substring (String.length s - String.length suffix)
                           (String.length suffix) s) suffix.

(** [sep.join(parts)] *)
Fixpoint join (sep : string) (parts : list string) : string :=
  match parts with
  | [] => EmptyString
  | [p] => p
  | p :: rest => p ++ sep ++ join sep rest
  end.

(** [s.split(sep)] for a one-character separator: never the empty list. *)
Fixpoint split (sep : ascii) (s : string) : list string :=
  match s with
  | EmptyString => [EmptyString]
  | String c s' =>
      if Ascii.eqb c sep then EmptyString :: split sep s'
      else match split sep s' with
           | [] => [String c EmptyString]
           | p :: rest => String c p :: rest
           end
  end.

(** [s.rfind(c)] for a one-character [c]; [None] is [-1]. *)
Fixpoint rfind (c : ascii) (s : string) : option nat :=
  match s with
  | EmptyString => None
  | String a s' =>
      match rfind c s' with
      | Some i => Some (S i)
      | None => if Ascii.eqb a c then Some 0 else None
      end
  end.

(** [s[:i]] and [s[i:]] for [i >= 0]. *)
Definition take (i : nat) (s : string) : string := substring 0 i s.
Definition drop (i : nat) (s : string) : string :=
  substring i (String.length s - i) s.

Definition startswith_char (c : ascii) (s : string) : bool :=
  match s with
  | String a _ => Ascii.eqb a c
  | EmptyString => false
  end.

(** [sep in s] for a one-character [sep]. *)
Fixpoint contains (sep : ascii) (s : string) : bool :=
  match s with
  | EmptyString => false
  | String c s' => Ascii.eqb c sep || contains sep s'
  end.

End PyStr.

(* ================================================================== *)
(** * Python dictionaries in insertion order *)
(* ================================================================== *)

(** [untranslated_line_details] is iterated over, so the order of its items
    matters: a dictionary is the list of its items in insertion order, with
    at most one item per key. *)

Module PyDict.
Section Dict.
Context {K V : Type} `{EqDecision K}.

Fixpoint get (k : K) (d : list (K * V)) : option V :=
  match d with
  | [] => None
  | (k', v) :: d' => if decide (k = k') then Some v else get k d'
  end.

(** [d[k] = v]: an existing key keeps its place, a new one goes last. *)
Fixpoint set (k : K) (v : V) (d : list (K * V)) : list (K * V) :=
  match d with
  | [] => [(k, v)]
  | (k', v') :: d' =>
      if decide (k = k') then (k, v) :: d' else (k', v') :: set k v d'
  end.

(** [del d[k]], guarded by [k in d] at its only use. *)
Fixpoint del (k : K) (d : list (K * V)) : list (K * V) :=
  match d with
  | [] => []
  | (k', v') :: d' =>
      if decide (k = k') then d' else (k', v') :: del k d'
  end.

Definition keys (d : list (K * V)) : list K := fst <$> d.

End Dict.
End PyDict.

(* ================================================================== *)
(** * Data model *)
(* ================================================================== *)

(** One caption as [pysrt] parses it: number, time range, text.  A subtitle
    file on disk is the list of its captions in file order. *)
Record SubRipItem := {
  index : Z;
  start : nat;
  stop : nat;
  text : string
}.

(** [sub.text = t] *)
Definition set_text (t : string) (sub : SubRipItem) : SubRipItem :=
  {| index := index sub; start := start sub; stop := stop sub; text := t |}.

(** A decoded JSON document, as [response.json()] returns it. *)
#[local] Set Warnings "-register-all".
Inductive json :=
| JNull
| JBool (b : bool)
| JNum (n : Z)
| JStr (s : string)
| JList (items : list json)
| JDict (members : list (string * json)).

Record request := {
  endpoint : string;
  sl : string;
  tl : string;
  q : string
}.

(** What [requests.get] does: an HTTP response, whose body decodes as JSON
    or does not, a timeout, or any other exception. *)
Inductive response :=
| HttpResponse (status_code : nat) (body : option json)
| Timeout
| RequestError.

Record env := {
  net : nat -> request -> response;
  translation_in_progress : nat -> bool;
  completes_next : nat -> nat;
  write_ok : nat -> bool
}.

(** [untranslated_line_details]: (output path, line index) to the text that
    failed and the number of failures. *)
Definition key : Type := string * Z.

Record details := {
  original_text : string;
  failure_count : nat
}.

Definition with_failure_count (n : nat) (d : details) : details :=
  {| original_text := original_text d; failure_count := n |}.

(** History of the calls of [translate_text_direct] made for subtitle lines:
    by a worker of the parallel pass, or by a retry pass for a record, with
    how the retry pass judged the answer. *)
Inductive attempt :=
| InitialAttempt (line_index : Z)
| RetryAttempt (pass_number : nat) (k : key) (succeeded : bool).

#[global] Instance attempt_eq_dec : EqDecision attempt.
Proof. solve_decision. Defined.

(** The settings read during translation (Tk variables and the colour). *)
Record settings := {
  subtitle_color : string;
  format_var : string;
  naming_var : string;
  source_lang : string;
  target_lang : string;
  retry_passes_var : option Z   (* [int(...)]; [None] when it raises ValueError *)
}.

Record state := {
  config : settings;
  translation_cache : gmap string string;
  cache_hits : nat;
  request_count : nat;
  error_count : nat;
  current_endpoint_index : nat;
  untranslated_line_details : list (key * details);
  final_untranslated_count : nat;
  output_files : list string;
  disk : gmap string (list SubRipItem);
  clock : nat;
  attempts : list attempt
}.

Definition set_translation_cache (c : gmap string string) (st : state) : state :=
  {| config := config st; translation_cache := c;
     cache_hits := cache_hits st; request_count := request_count st;
     error_count := error_count st;
     current_endpoint_index := current_endpoint_index st;
     untranslated_line_details := untranslated_line_details st;
     final_untranslated_count := final_untranslated_count st;
     output_files := output_files st; disk := disk st;
     clock := clock st; attempts := attempts st |}.

Definition set_cache_hits (n : nat) (st : state) : state :=
  {| config := config st; translation_cache := translation_cache st;
     cache_hits := n; request_count := request_count st;
     error_count := error_count st;
     current_endpoint_index := current_endpoint_index st;
     untranslated_line_details := untranslated_line_details st;
     final_untranslated_count := final_untranslated_count st;
     output_files := output_files st; disk := disk st;
     clock := clock st; attempts := attempts st |}.

Definition set_request_count (n : nat) (st : state) : state :=
  {| config := config st; translation_cache := translation_cache st;
     cache_hits := cache_hits st; request_count := n;
     error_count := error_count st;
     current_endpoint_index := current_endpoint_index st;
     untranslated_line_details := untranslated_line_details st;
     final_untranslated_count := final_untranslated_count st;
     output_files := output_files st; disk := disk st;
     clock := clock st; attempts := attempts st |}.

Definition set_error_count (n : nat) (st : state) : state :=
  {| config := config st; translation_cache := translation_cache st;
     cache_hits := cache_hits st; request_count := request_count st;
     error_count := n;
     current_endpoint_index := current_endpoint_index st;
     untranslated_line_details := untranslated_line_details st;
     final_untranslated_count := final_untranslated_count st;
     output_files := output_files st; disk := disk st;
     clock := clock st; attempts := attempts st |}.

Definition set_current_endpoint_index (n : nat) (st : state) : state :=
  {| config := config st; translation_cache := translation_cache st;
     cache_hits := cache_hits st; request_count := request_count st;
     error_count := error_count st;
     current_endpoint_index := n;
     untranslated_line_details := untranslated_line_details st;
     final_untranslated_count := final_untranslated_count st;
     output_files := output_files st; disk := disk st;
     clock := clock st; attempts := attempts st |}.

Definition set_untranslated_line_details (d : list (key * details))
    (st : state) : state :=
  {| config := config st; translation_cache := translation_cache st;
     cache_hits := cache_hits st; request_count := request_count st;
     error_count := error_count st;
     current_endpoint_index := current_endpoint_index st;
     untranslated_line_details := d;
     final_untranslated_count := final_untranslated_count st;
     output_files := output_files st; disk := disk st;
     clock := clock st; attempts := attempts st |}.

Definition set_final_untranslated_count (n : nat) (st : state) : state :=
  {| config := config st; translation_cache := translation_cache st;
     cache_hits := cache_hits st; request_count := request_count st;
     error_count := error_count st;
     current_endpoint_index := current_endpoint_index st;
     untranslated_line_details := untranslated_line_details st;
     final_untranslated_count := n;
     output_files := output_files st; disk := disk st;
     clock := clock st; attempts := attempts st |}.

Definition set_output_files (l : list string) (st : state) : state :=
  {| config := config st; translation_cache := translation_cache st;
     cache_hits := cache_hits st; request_count := request_count st;
     error_count := error_count st;
     current_endpoint_index := current_endpoint_index st;
     untranslated_line_details := untranslated_line_details st;
     final_untranslated_count := final_untranslated_count st;
     output_files := l; disk := disk st;
     clock := clock st; attempts := attempts st |}.

Definition set_disk (d : gmap string (list SubRipItem)) (st : state) : state :=
  {| config := config st; translation_cache := translation_cache st;
     cache_hits := cache_hits st; request_count := request_count st;
     error_count := error_count st;
     current_endpoint_index := current_endpoint_index st;
     untranslated_line_details := untranslated_line_details st;
     final_untranslated_count := final_untranslated_count st;
     output_files := output_files st; disk := d;
     clock := clock st; attempts := attempts st |}.

Definition set_clock (n : nat) (st : state) : state :=
  {| config := config st; translation_cache := translation_cache st;
     cache_hits := cache_hits st; request_count := request_count st;
     error_count := error_count st;
     current_endpoint_index := current_endpoint_index st;
     untranslated_line_details := untranslated_line_details st;
     final_untranslated_count := final_untranslated_count st;
     output_files := output_files st; disk := disk st;
     clock := n; attempts := attempts st |}.

Definition set_attempts (l : list attempt) (st : state) : state :=
  {| config := config st; translation_cache := translation_cache st;
     cache_hits := cache_hits st; request_count := request_count st;
     error_count := error_count st;
     current_endpoint_index := current_endpoint_index st;
     untranslated_line_details := untranslated_line_details st;
     final_untranslated_count := final_untranslated_count st;
     output_files := output_files st; disk := disk st;
     clock := clock st; attempts := l |}.

(** The answers of the environment; each one advances the clock. *)
Definition tick (st : state) : state := set_clock (S (clock st)) st.

Definition read_flag (e : env) (st : state) : bool * state :=
  (translation_in_progress e (clock st), tick st).

Definition ask_net (e : env) (r : request) (st : state) : response * state :=
  (net e (clock st) r, tick st).

Definition record_attempt (a : attempt) (st : state) : state :=
  set_attempts (a :: attempts st) st.

(** How a method ends: it returns, raises [InterruptedError] with a message
    (the cancellation outcome), or raises another exception. *)
Inductive outcome (A : Type) :=
| Returned (a : A)
| Interrupted (message : string)
| Failed.
Arguments Returned {A} a.
Arguments Interrupted {A} message.
Arguments Failed {A}.

(* ================================================================== *)
(** * Constants and tables *)
(* ================================================================== *)

Definition MAX_FAILURES_PER_LINE : nat := 3.

(** [self.api_endpoints], set once in [__init__]. *)
Definition api_endpoints : list string := [
  "https://translate.googleapis.com/translate_a/single";
  "https://clients5.google.com/translate_a/t";
  "https://translate.google.com/translate_a/single"
].

(** [get_supported_languages]: language name to service code. *)
Definition get_supported_languages : list (string * string) := [
    ("Afrikaans", "af"); ("Albanian", "sq"); ("Amharic", "am");
    ("Arabic", "ar"); ("Armenian", "hy"); ("Azerbaijani", "az");
    ("Basque", "eu"); ("Belarusian", "be"); ("Bengali", "bn");
    ("Bosnian", "bs"); ("Bulgarian", "bg"); ("Catalan", "ca");
    ("Cebuano", "ceb"); ("Chinese (Simplified)", "zh-CN");
    ("Chinese (Traditional)", "zh-TW"); ("Corsican", "co");
    ("Croatian", "hr"); ("Czech", "cs"); ("Danish", "da"); ("Dutch", "nl");
    ("English", "en"); ("Esperanto", "eo"); ("Estonian", "et");
    ("Finnish", "fi"); ("French", "fr"); ("Frisian", "fy");
    ("Galician", "gl"); ("Georgian", "ka"); ("German", "de");
    ("Greek", "el"); ("Gujarati", "gu"); ("Haitian Creole", "ht");
    ("Hausa", "ha"); ("Hawaiian", "haw"); ("Hebrew", "iw"); ("Hindi", "hi");
    ("Hmong", "hmn"); ("Hungarian", "hu"); ("Icelandic", "is");
    ("Igbo", "ig"); ("Indonesian", "id"); ("Irish", "ga"); ("Italian", "it");
    ("Japanese", "ja"); ("Javanese", "jw"); ("Kannada", "kn");
    ("Kazakh", "kk"); ("Khmer", "km"); ("Kinyarwanda", "rw");
    ("Korean", "ko"); ("Kurdish", "ku"); ("Kyrgyz", "ky"); ("Lao", "lo");
    ("Latin", "la"); ("Latvian", "lv"); ("Lithuanian", "lt");
    ("Luxembourgish", "lb"); ("Macedonian", "mk"); ("Malagasy", "mg");
    ("Malay", "ms"); ("Malayalam", "ml"); ("Maltese", "mt"); ("Maori", "mi");
    ("Marathi", "mr"); ("Mongolian", "mn"); ("Myanmar (Burmese)", "my");
    ("Nepali", "ne"); ("Norwegian", "no"); ("Nyanja (Chichewa)", "ny");
    ("Odia (Oriya)", "or"); ("Pashto", "ps"); ("Persian", "fa");
    ("Polish", "pl"); ("Portuguese", "pt"); ("Punjabi", "pa");
    ("Romanian", "ro"); ("Russian", "ru"); ("Samoan", "sm");
    ("Scots Gaelic", "gd"); ("Serbian", "sr"); ("Sesotho", "st");
    ("Shona", "sn"); ("Sindhi", "sd"); ("Sinhala (Sinhalese)", "si");
    ("Slovak", "sk"); ("Slovenian", "sl"); ("Somali", "so");
    ("Spanish", "es"); ("Sundanese", "su"); ("Swahili", "sw");
    ("Swedish", "sv"); ("Tagalog (Filipino)", "tl"); ("Tajik", "tg");
    ("Tamil", "ta"); ("Tatar", "tt"); ("Telugu", "te"); ("Thai", "th");
    ("Turkish", "tr"); ("Turkmen", "tk"); ("Ukrainian", "uk");
    ("Urdu", "ur"); ("Uyghur", "ug"); ("Uzbek", "uz"); ("Vietnamese", "vi");
    ("Welsh", "cy"); ("Xhosa", "xh"); ("Yiddish", "yi"); ("Yoruba", "yo");
    ("Zulu", "zu")
].

(** [self.languages.get(name)] *)
Definition languages_get (name : string) : option string :=
  PyDict.get name get_supported_languages.

(* ================================================================== *)
(** * Endpoint rotation *)
(* ================================================================== *)

(** [get_next_endpoint]; the body runs under [endpoint_lock], so it is one
    atomic step.  [None] stands for the [IndexError] of an index outside
    the list, which leaves the index as it was. *)
Definition get_next_endpoint (st : state) : option (string * state) :=
  match api_endpoints !! current_endpoint_index st with
  | None => None
  | Some ep =>
      Some (ep,
            set_current_endpoint_index
              ((current_endpoint_index st + 1) mod List.length api_endpoints) st)
  end.

(** The state after [k] calls, whoever makes them. *)
Fixpoint after_calls (k : nat) (st : state) : option state :=
  match k with
  | 0 => Some st
  | S k' =>
      match after_calls k' st with
      | None => None
      | Some st' => snd <$> get_next_endpoint st'
      end
  end.

(* ================================================================== *)
(** * One line: [translate_text_direct] *)
(* ================================================================== *)

(** [seg[0] for seg in data[0] if isinstance(seg, list) and seg and
    isinstance(seg[0], str)] *)
Definition segment_text (seg : json) : option string :=
  match seg with
  | JList (JStr s :: _) => Some s
  | _ => None
  end.

(** [seg.get("trans", "")] as an item of [str.join]: [None] when [seg] has
    no [get] or the member is not a string (an exception is raised). *)
Definition sentence_trans (seg : json) : option string :=
  match seg with
  | JDict members =>
      match PyDict.get "trans" members with
      | None => Some ""
      | Some (JStr s) => Some s
      | Some _ => None
      end
  | _ => None
  end.

(** Iterating over [data.get("sentences", [])]. *)
Definition sentences_text (v : json) : option string :=
  match v with
  | JList segs => String.concat "" <$> mapM sentence_trans segs
  | JStr "" => Some ""
  | JDict [] => Some ""
  | _ => None
  end.

(** The text taken from a decoded 200 answer: both shapes of the service
    are accepted; [None] when the extraction raises. *)
Definition extract_translation (data : json) : option string :=
  match data with
  | JList (JList segs :: _) => Some (String.concat "" (omap segment_text segs))
  | JList (JStr s :: _) => Some s
  | JList _ => Some ""
  | JDict members =>
      match PyDict.get "sentences" members with
      | None => Some ""
      | Some v => sentences_text v
      end
  | _ => Some ""
  end.

(** [translated and translated.strip() and translated.strip() != stripped] *)
Definition accepted (translated stripped : string) : bool :=
  PyStr.truthy translated && PyStr.truthy (PyStr.strip translated)
  && negb (String.eqb (PyStr.strip translated) stripped).

(** [status_code in {429, 500, 502, 503, 504}] *)
Definition transient_status (code : nat) : bool :=
  (code =? 429) || (code =? 500) || (code =? 502) || (code =? 503)
  || (code =? 504).

Definition cache_key (source_code target_code stripped : string) : string :=
  source_code ++ "|" ++ target_code ++ "|" ++ stripped.

(** The [try] block that reads the two codes: [None] is the [KeyError]. *)
Definition language_codes (target_lang source_lang : string)
    : option (string * string) :=
  match languages_get target_lang with
  | None => None
  | Some target_code =>
      if String.eqb source_lang "Auto" then Some ("auto", target_code)
      else match languages_get source_lang with
           | None => None
           | Some source_code => Some (source_code, target_code)
           end
  end.

Definition incr_error_count (st : state) : state :=
  set_error_count (error_count st + 1) st.

(** The [while attempt <= max_retries] loop, by the number of iterations
    left ([max_retries + 1 - attempt]).  The result is [Some translated]
    when the loop ends with [success = True]. *)
Fixpoint request_loop (e : env) (remaining : nat)
    (source_code target_code stripped : string) (st : state)
    : option string * state :=
  match remaining with
  | 0 => (None, st)
  | S remaining' =>
      let (running, st) := read_flag e st in
      if negb running then (None, st)
      else
        let st := set_request_count (request_count st + 1) st in
        match get_next_endpoint st with
        | None => (None, incr_error_count st)
        | Some (ep, st) =>
            let (resp, st) :=
              ask_net e {| endpoint := ep; sl := source_code;
                           tl := target_code; q := stripped |} st in
            match resp with
            | HttpResponse code body =>
                if code =? 200 then
                  match body ≫= extract_translation with
                  | None => (None, incr_error_count st)
                  | Some translated =>
                      if accepted translated stripped
                      then (Some translated, st)
                      else request_loop e remaining' source_code target_code
                             stripped st
                  end
                else if transient_status code then
                  request_loop e remaining' source_code target_code stripped st
                else (None, incr_error_count st)
            | Timeout =>
                request_loop e remaining' source_code target_code stripped st
            | RequestError => (None, incr_error_count st)
            end
        end
  end.

Definition translate_text_direct (e : env) (st : state)
    (text target_lang source_lang : string) (max_retries : nat)
    : string * state :=
  let stripped := PyStr.strip text in
  if negb (PyStr.truthy stripped) then (text, st)
  else
    match language_codes target_lang source_lang with
    | None => (text, st)
    | Some (source_code, target_code) =>
        let ck := cache_key source_code target_code stripped in
        match translation_cache st !! ck with
        | Some cached => (cached, set_cache_hits (cache_hits st + 1) st)
        | None =>
            match request_loop e (S max_retries) source_code target_code
                    stripped st with
            | (Some result, st) =>
                (result,
                 set_translation_cache (<[ck := result]> (translation_cache st)) st)
            | (None, st) => (text, incr_error_count st)
            end
        end
    end.

(* ================================================================== *)
(** * One task: [translate_subtitle] *)
(* ================================================================== *)

Definition dquote : string := String (ascii_of_nat 34) EmptyString.

(** The colour envelope, written out twice in the source (in
    [translate_subtitle] and in the retry pass). *)
Definition colorize (cfg : settings) (translated : string) : string :=
  let color := subtitle_color cfg in
  if PyStr.truthy color && negb (String.eqb (PyStr.upper color) "#FFFFFF") then
    if String.eqb (format_var cfg) "ASS/SSA Compatible" then
      let ass_color :=
        "&H" ++ PyStr.slice 5 7 color ++ PyStr.slice 3 5 color
             ++ PyStr.slice 1 3 color ++ "&" in
      "{\c" ++ ass_color ++ "}" ++ translated ++ "{\c&HFFFFFF&}"
    else
      "<font color=" ++ dquote ++ color ++ dquote ++ ">" ++ translated
      ++ "</font>"
  else translated.

(** What a task returns: [(sub.index, text, success, original_text)]. *)
Record task_result := {
  r_index : Z;
  r_text : string;
  r_success : bool;
  r_original : string
}.

Definition translate_subtitle (e : env) (st : state) (sub : SubRipItem)
    (source_lang target_lang : string) : task_result * state :=
  let original_text := text sub in
  let (running, st) := read_flag e st in
  if negb running then
    ({| r_index := index sub; r_text := original_text; r_success := false;
        r_original := original_text |}, st)
  else
    let st := record_attempt (InitialAttempt (index sub)) st in
    let (translated, st) :=
      translate_text_direct e st original_text target_lang source_lang 3 in
    if PyStr.truthy translated
       && negb (String.eqb (PyStr.strip translated) (PyStr.strip original_text))
    then
      ({| r_index := index sub; r_text := colorize (config st) translated;
          r_success := true; r_original := original_text |}, st)
    else
      ({| r_index := index sub; r_text := original_text; r_success := false;
          r_original := original_text |}, st).

(* ================================================================== *)
(** * Disk *)
(* ================================================================== *)

(** [save_subtitles]: the write either succeeds or raises; the exception is
    swallowed and only changes the returned flag. *)
Definition save_subtitles (e : env) (st : state) (subs : list SubRipItem)
    (output_path : string) : bool * state :=
  let ok := write_ok e (clock st) in
  let st := tick st in
  if ok then (true, set_disk (<[output_path := subs]> (disk st)) st)
  else (false, st).

(** [os.path.exists] *)
Definition path_exists (st : state) (path : string) : bool :=
  bool_decide (is_Some (disk st !! path)).

(* ================================================================== *)
(** * One file: [process_file_parallel] *)
(* ================================================================== *)

(** How a future ends: [future.result()] returns, or raises
    [CancelledError], or raises what the task raised. *)
Inductive future_outcome :=
| FutReturned (r : task_result)
| FutCancelled
| FutRaised.

(** The locals of the collection loop; [completed] is its history: the
    position in the file of every task collected, with what it returned. *)
Record pool_acc := {
  results : gmap Z string;
  processed : nat;
  untranslated : nat;
  completed : list (nat * task_result)
}.

Definition empty_acc : pool_acc :=
  {| results := ∅; processed := 0; untranslated := 0; completed := [] |}.

(** [info = d.get(key, {"failure_count": 0}); info["original_text"] =
    original; info["failure_count"] += 1; d[key] = info] *)
Definition record_failure (k : key) (original : string) (st : state) : state :=
  let count :=
    match PyDict.get k (untranslated_line_details st) with
    | Some info => failure_count info
    | None => 0
    end in
  set_untranslated_line_details
    (PyDict.set k {| original_text := original; failure_count := count + 1 |}
       (untranslated_line_details st)) st.

(** [next((sub.text for sub in subs if sub.index == index), "")] *)
Definition text_of_index (subs : list SubRipItem) (i : Z) : string :=
  match List.find (fun sub => bool_decide (index sub = i)) subs with
  | Some sub => text sub
  | None => ""
  end.

(** The body of one iteration of [for future in as_completed(futures)],
    after the cancellation check; [fut_index] is [futures[future]]. *)
Definition collect_future (output_path : string) (subs : list SubRipItem)
    (fut_index : Z) (o : future_outcome) (acc : pool_acc) (st : state)
    : pool_acc * state :=
  match o with
  | FutReturned r =>
      let k := (output_path, r_index r) in
      if negb (r_success r) then
        ({| results := <[r_index r := r_text r]> (results acc);
            processed := processed acc + 1;
            untranslated := untranslated acc + 1;
            completed := completed acc |},
         record_failure k (r_original r) st)
      else
        ({| results := <[r_index r := r_text r]> (results acc);
            processed := processed acc + 1;
            untranslated := untranslated acc;
            completed := completed acc |},
         set_untranslated_line_details
           (PyDict.del k (untranslated_line_details st)) st)
  | FutCancelled => (acc, st)
  | FutRaised =>
      let original := text_of_index subs fut_index in
      ({| results := <[fut_index := original]> (results acc);
          processed := processed acc;
          untranslated := untranslated acc + 1;
          completed := completed acc |},
       record_failure (output_path, fut_index) original st)
  end.

Definition note_completed (pos : nat) (r : task_result) (acc : pool_acc)
    : pool_acc :=
  {| results := results acc; processed := processed acc;
     untranslated := untranslated acc;
     completed := (pos, r) :: completed acc |}.

(** One turn of the pool: the environment names the pending future that
    completes next; its task runs ([translate_subtitle], taken as one step),
    and the collection loop receives it. *)
Inductive pool_step :=
| Continue (pending : list (nat * SubRipItem)) (acc : pool_acc) (st : state)
| Raise (o : outcome pool_acc) (st : state).

Definition as_completed_step (e : env) (output_path source_lang target_lang : string)
    (subs : list SubRipItem) (pending : list (nat * SubRipItem))
    (acc : pool_acc) (st : state) : pool_step :=
  let choice := completes_next e (clock st) mod List.length pending in
  let st := tick st in
  match pending !! choice with
  | None => Raise Failed st
  | Some (pos, sub) =>
      let (r, st) := translate_subtitle e st sub source_lang target_lang in
      let (running, st) := read_flag e st in
      if negb running then Raise (Interrupted "Translation cancelled.") st
      else
        let (acc, st) :=
          collect_future output_path subs (index sub) (FutReturned r) acc st in
        Continue (delete choice pending) (note_completed pos r acc) st
  end.

Fixpoint as_completed_loop (e : env) (output_path source_lang target_lang : string)
    (subs : list SubRipItem) (turns : nat) (pending : list (nat * SubRipItem))
    (acc : pool_acc) (st : state) : outcome pool_acc * state :=
  match turns with
  | 0 => (Returned acc, st)
  | S turns' =>
      match as_completed_step e output_path source_lang target_lang subs
              pending acc st with
      | Continue pending' acc' st' =>
          as_completed_loop e output_path source_lang target_lang subs turns'
            pending' acc' st'
      | Raise o st' => (o, st')
      end
  end.

(** [for sub in subs: if sub.index in results: sub.text = results[sub.index]] *)
Definition reassemble (results : gmap Z string) (subs : list SubRipItem)
    : list SubRipItem :=
  (fun sub =>
     match results !! index sub with
     | Some t => set_text t sub
     | None => sub
     end) <$> subs.

(** What [process_file_parallel] returns, with the history of its pool. *)
Record file_result := {
  total_chars : nat;
  lines_processed : nat;
  lines_untranslated : nat;
  pool_history : list (nat * task_result)
}.

Definition sum_text_lengths (subs : list SubRipItem) : nat :=
  foldr (fun sub n => String.length (text sub) + n) 0 subs.

Definition process_file_parallel (e : env) (st : state)
    (file_path output_path source_lang target_lang : string)
    : outcome file_result * state :=
  match disk st !! file_path with
  | None => (Failed, st)
  | Some subs =>
      if List.length subs =? 0 then
        let (_, st) := save_subtitles e st [] output_path in
        (Returned {| total_chars := 0; lines_processed := 0;
                     lines_untranslated := 0; pool_history := [] |}, st)
      else
        match as_completed_loop e output_path source_lang target_lang subs
                (List.length subs) (imap pair subs) empty_acc st with
        | (Returned acc, st) =>
            let subs' := reassemble (results acc) subs in
            let (_, st) := save_subtitles e st subs' output_path in
            (Returned {| total_chars := sum_text_lengths subs';
                         lines_processed := processed acc;
                         lines_untranslated := untranslated acc;
                         pool_history := completed acc |}, st)
        | (Interrupted m, st) => (Interrupted m, st)
        | (Failed, st) => (Failed, st)
        end
  end.

(* ================================================================== *)
(** * Retry passes: [retry_untranslated_lines_sequential] *)
(* ================================================================== *)

(** [grouped[key[0]].append((key, details))] over the items of the
    dictionary: the groups come in the order their path is first met. *)
Definition group_append (item : key * details)
    (grouped : list (string * list (key * details)))
    : list (string * list (key * details)) :=
  let path := fst (fst item) in
  match PyDict.get path grouped with
  | Some items => PyDict.set path (items ++ [item])%list grouped
  | None => PyDict.set path [item] grouped
  end.

Definition group_by_path (d : list (key * details))
    : list (string * list (key * details)) :=
  fold_left (fun grouped item => group_append item grouped) d [].

(** [details["failure_count"] = n] changes the record in place: it is seen
    through [self.untranslated_line_details] until that is replaced. *)
Definition mutate_failure_count (k : key) (d : details) (n : nat) (st : state)
    : state :=
  set_untranslated_line_details
    (PyDict.set k (with_failure_count n d) (untranslated_line_details st)) st.

(** The branch of a missing output file: every record of the group is put
    at the cap and kept. *)
Fixpoint cap_items (items : list (key * details)) (next : list (key * details))
    (st : state) : list (key * details) * state :=
  match items with
  | [] => (next, st)
  | (k, d) :: rest =>
      let st := mutate_failure_count k d MAX_FAILURES_PER_LINE st in
      cap_items rest
        (PyDict.set k (with_failure_count MAX_FAILURES_PER_LINE d) next) st
  end.

(** [sub.text = formatted] on the first caption with that index. *)
Fixpoint set_text_at_index (i : Z) (t : string) (subs : list SubRipItem)
    : list SubRipItem :=
  match subs with
  | [] => []
  | sub :: rest =>
      if bool_decide (index sub = i) then set_text t sub :: rest
      else sub :: set_text_at_index i t rest
  end.

(** The locals of a retry pass. *)
Record retry_acc := {
  next_untranslated : list (key * details);
  successes : nat
}.

(** The locals of the loop over one file's records. *)
Record file_acc := {
  fa_subs : list SubRipItem;
  fa_modified : bool;
  fa_pass : retry_acc
}.

(** [next_untranslated[key] = details] *)
Definition keep_record (k : key) (d : details) (fa : file_acc) : file_acc :=
  {| fa_subs := fa_subs fa; fa_modified := fa_modified fa;
     fa_pass :=
       {| next_untranslated := PyDict.set k d (next_untranslated (fa_pass fa));
          successes := successes (fa_pass fa) |} |}.

(** The body of [for key, details in items:] for one record of an output
    file. *)
Definition retry_item (e : env) (pass_number : nat) (item : key * details)
    (fa : file_acc) (st : state) : outcome file_acc * state :=
  let (k, d) := item in
  let (running, st) := read_flag e st in
  if negb running then (Interrupted "Cancelled during retry pass.", st)
  else
    let i := snd k in
    let count := failure_count d in
    if MAX_FAILURES_PER_LINE <=? count then (Returned (keep_record k d fa), st)
    else
      match List.find (fun s => bool_decide (index s = i)) (fa_subs fa) with
      | None =>
          let st := mutate_failure_count k d MAX_FAILURES_PER_LINE st in
          (Returned
             (keep_record k (with_failure_count MAX_FAILURES_PER_LINE d) fa), st)
      | Some sub =>
          let original := original_text d in
          if negb (String.eqb (PyStr.strip (text sub)) (PyStr.strip original))
          then (Returned fa, st)
          else
            let (translated, st) :=
              translate_text_direct e st original
                (target_lang (config st)) (source_lang (config st)) 3 in
            if PyStr.truthy (PyStr.strip translated)
               && negb (String.eqb (PyStr.strip translated)
                                   (PyStr.strip original))
            then
              let st := record_attempt (RetryAttempt pass_number k true) st in
              (Returned
                 {| fa_subs :=
                      set_text_at_index i (colorize (config st) translated)
                        (fa_subs fa);
                    fa_modified := true;
                    fa_pass :=
                      {| next_untranslated := next_untranslated (fa_pass fa);
                         successes := successes (fa_pass fa) + 1 |} |}, st)
            else
              let st := record_attempt (RetryAttempt pass_number k false) st in
              let st := mutate_failure_count k d (count + 1) st in
              (Returned (keep_record k (with_failure_count (count + 1) d) fa), st)
      end.

(** [for key, details in items:] for one output file; the loop stops at the
    first record whose body raises. *)
Fixpoint retry_items (e : env) (pass_number : nat)
    (items : list (key * details)) (fa : file_acc) (st : state)
    : outcome file_acc * state :=
  match items with
  | [] => (Returned fa, st)
  | item :: rest =>
      match retry_item e pass_number item fa st with
      | (Returned fa', st') => retry_items e pass_number rest fa' st'
      | (Interrupted m, st') => (Interrupted m, st')
      | (Failed, st') => (Failed, st')
      end
  end.

(** [for output_path, items in grouped.items():] *)
Fixpoint retry_groups (e : env) (pass_number : nat)
    (grouped : list (string * list (key * details))) (acc : retry_acc)
    (st : state) : outcome retry_acc * state :=
  match grouped with
  | [] => (Returned acc, st)
  | (output_path, items) :: rest =>
      match disk st !! output_path with
      | None =>
          let (next, st) := cap_items items (next_untranslated acc) st in
          retry_groups e pass_number rest
            {| next_untranslated := next; successes := successes acc |} st
      | Some subs =>
          match retry_items e pass_number items
                  {| fa_subs := subs; fa_modified := false; fa_pass := acc |}
                  st with
          | (Returned fa, st) =>
              let st :=
                if fa_modified fa
                then snd (save_subtitles e st (fa_subs fa) output_path)
                else st in
              retry_groups e pass_number rest (fa_pass fa) st
          | (Interrupted m, st) => (Interrupted m, st)
          | (Failed, st) => (Failed, st)
          end
      end
  end.

(** Returns [(successes, remaining)]. *)
Definition retry_untranslated_lines_sequential (e : env) (st : state)
    (pass_number : nat) : outcome (nat * nat) * state :=
  match untranslated_line_details st with
  | [] => (Returned (0, 0), st)
  | _ =>
      match retry_groups e pass_number
              (group_by_path (untranslated_line_details st))
              {| next_untranslated := []; successes := 0 |} st with
      | (Returned acc, st) =>
          (Returned (successes acc, List.length (next_untranslated acc)),
           set_untranslated_line_details (next_untranslated acc) st)
      | (Interrupted m, st) => (Interrupted m, st)
      | (Failed, st) => (Failed, st)
      end
  end.

(* ================================================================== *)
(** * Output naming: [get_output_path] *)
(* ================================================================== *)

(** [os.path] on POSIX paths. *)
Module PosixPath.

Definition slash : ascii := ascii_of_nat 47.
Definition dot : ascii := ascii_of_nat 46.

Definition basename (p : string) : string :=
  match PyStr.rfind slash p with
  | None => p
  | Some i => PyStr.drop (S i) p
  end.

Definition dirname (p : string) : string :=
  match PyStr.rfind slash p with
  | None => ""
  | Some i =>
      let head := PyStr.take (S i) p in
      if PyStr.truthy head
         && negb (PyStr.all_chars (fun c => Ascii.eqb c slash) head)
      then PyStr.rstrip_by (fun c => Ascii.eqb c slash) head
      else head
  end.

(** [splitext] of a name without directory: the extension starts at the
    last dot, unless only dots come before it. *)
Definition splitext (name : string) : string * string :=
  match PyStr.rfind dot name with
  | None => (name, "")
  | Some d =>
      if PyStr.all_chars (fun c => Ascii.eqb c dot) (PyStr.take d name)
      then (name, "")
      else (PyStr.take d name, PyStr.drop d name)
  end.

Definition join (a b : string) : string :=
  if PyStr.startswith_char slash b then b
  else if negb (PyStr.truthy a) || PyStr.endswith a "/" then a ++ b
  else a ++ "/" ++ b.

End PosixPath.

(** [parts[-1]] and [parts[:-1]] *)
Definition last_part (parts : list string) : string := List.last parts "".
Definition but_last (parts : list string) : list string := removelast parts.

(** [get_output_path]: the name is built from the input path, the target
    language and the naming pattern; the [except] branch is for exceptions
    that none of these string operations raises.  The state is passed whole,
    disk included, to make plain what the function reads. *)
Definition get_output_path (st : state) (input_path target_lang : string)
    : string :=
  let directory := PosixPath.dirname input_path in
  let '(base, ext) := PosixPath.splitext (PosixPath.basename input_path) in
  let base :=
    if PyStr.endswith (PyStr.lower base) "_cleaned"
    then PyStr.drop_last 8 base else base in
  let parts := PyStr.split PosixPath.dot base in
  let last := last_part parts in
  let core :=
    if (1 <? List.length parts) && PyStr.isalpha last
       && ((String.length last =? 2) || (String.length last =? 3))
    then PyStr.join "." (but_last parts)
    else base in
  let code :=
    match languages_get target_lang with
    | Some c => c
    | None => PyStr.lower (PyStr.take 2 target_lang)
    end in
  let naming := naming_var (config st) in
  let output_name :=
    if String.eqb naming "Original_language" then core ++ "_" ++ code ++ ext
    else if String.eqb naming "language.Original" then code ++ "." ++ core ++ ext
    else core ++ "." ++ code ++ ext in
  PosixPath.join directory output_name.

(* ================================================================== *)
(** * The run: [translate_files_thread] *)
(* ================================================================== *)

(** The arguments of the final [finalize_translation] call. *)
Record summary := {
  files_ok : nat;
  files_total : nat;
  subs_ok : nat;
  subs_total : nat;
  final_untranslated : nat;
  cancelled : bool
}.

(** How the run ends: a summary (cancelled or not), or the error dialog. *)
Inductive run_end :=
| Finalized (s : summary)
| TranslationFailed.

(** The analysis loop: the files that open and have captions, with their
    counts; a cleared flag leaves the loop. *)
Fixpoint analyze_files (e : env) (files : list string)
    (valid : list (string * nat)) (st : state)
    : list (string * nat) * state :=
  match files with
  | [] => (valid, st)
  | fp :: rest =>
      let (running, st) := read_flag e st in
      if negb running then (valid, st)
      else
        match disk st !! fp with
        | None => analyze_files e rest valid st
        | Some subs =>
            if 0 <? List.length subs
            then analyze_files e rest (valid ++ [(fp, List.length subs)])%list st
            else analyze_files e rest valid st
        end
  end.

Definition note_output_file (out_path : string) (st : state) : state :=
  if path_exists st out_path then
    if bool_decide (out_path ∈ output_files st) then st
    else set_output_files (output_files st ++ [out_path])%list st
  else st.

(** The loop over the valid files; the result is [overall_stats["processed"]]. *)
Fixpoint translate_valid_files (e : env) (valid : list (string * nat))
    (done : nat) (st : state) : outcome nat * state :=
  match valid with
  | [] => (Returned done, st)
  | (fp, _) :: rest =>
      let (running, st) := read_flag e st in
      if negb running then (Returned done, st)
      else
        let out_path := get_output_path st fp (target_lang (config st)) in
        match process_file_parallel e st fp out_path
                (source_lang (config st)) (target_lang (config st)) with
        | (Returned r, st) =>
            translate_valid_files e rest (done + lines_processed r)
              (note_output_file out_path st)
        | (Interrupted m, st) => (Interrupted m, st)
        | (Failed, st) => translate_valid_files e rest done st
        end
  end.

(** [while self.untranslated_line_details and current_pass < max_retries] *)
Fixpoint retry_loop (e : env) (passes_left current_pass : nat) (st : state)
    : outcome unit * state :=
  match passes_left with
  | 0 => (Returned tt, st)
  | S passes_left' =>
      match untranslated_line_details st with
      | [] => (Returned tt, st)
      | _ =>
          let current_pass := current_pass + 1 in
          let (running, st) := read_flag e st in
          if negb running then (Interrupted "Cancelled during retry.", st)
          else
            match retry_untranslated_lines_sequential e st current_pass with
            | (Returned (_, remaining), st) =>
                if remaining =? 0 then (Returned tt, st)
                else retry_loop e passes_left' current_pass st
            | (Interrupted m, st) => (Interrupted m, st)
            | (Failed, st) => (Failed, st)
            end
      end
  end.

(** [int(self.retry_passes_var.get())], 3 on [ValueError]. *)
Definition configured_passes (cfg : settings) : nat :=
  match retry_passes_var cfg with
  | Some n => Z.to_nat n
  | None => 3
  end.

Definition cancelled_summary (files : list string) (st : state) : run_end :=
  Finalized {| files_ok := List.length (output_files st);
               files_total := List.length files;
               subs_ok := 0; subs_total := 0;
               final_untranslated := List.length (untranslated_line_details st);
               cancelled := true |}.

Definition translate_files_thread (e : env) (st : state) (files : list string)
    : run_end * state :=
  match files with
  | [] => (TranslationFailed, st)
  | _ =>
      let st := set_output_files [] st in
      let st := set_untranslated_line_details [] st in
      let st := set_final_untranslated_count 0 st in
      let (valid, st) := analyze_files e files [] st in
      let (running, st) := read_flag e st in
      if negb running then (cancelled_summary files st, st)
      else
        match valid with
        | [] => (TranslationFailed, st)
        | _ =>
            match translate_valid_files e valid 0 st with
            | (Returned done, st) =>
                let (running, st) := read_flag e st in
                if negb running then (cancelled_summary files st, st)
                else
                  match retry_loop e (configured_passes (config st)) 0 st with
                  | (Returned _, st) =>
                      let st :=
                        set_final_untranslated_count
                          (List.length (untranslated_line_details st)) st in
                      (Finalized
                         {| files_ok := List.length (output_files st);
                            files_total := List.length valid;
                            subs_ok := done;
                            subs_total := foldr (fun v n => snd v + n) 0 valid;
                            final_untranslated := final_untranslated_count st;
                            cancelled := false |}, st)
                  | (Interrupted _, st) => (cancelled_summary files st, st)
                  | (Failed, st) => (TranslationFailed, st)
                  end
            | (Interrupted _, st) => (cancelled_summary files st, st)
            | (Failed, st) => (TranslationFailed, st)
            end
        end
  end.

(** The attributes after [__init__] (and after [start_translation], which
    resets the counters), for given settings and disk contents. *)
Definition init_state (cfg : settings)
    (d : gmap string (list SubRipItem)) : state :=
  {| config := cfg; translation_cache := ∅; cache_hits := 0;
     request_count := 0; error_count := 0; current_endpoint_index := 0;
     untranslated_line_details := []; final_untranslated_count := 0;
     output_files := []; disk := d; clock := 0; attempts := [] |}.

(** The default settings of the GUI. *)
Definition default_settings : settings :=
  {| subtitle_color := "#FFFF00"; format_var := "Standard SRT";
     naming_var := "Original.language"; source_lang := "Auto";
     target_lang := "Russian"; retry_passes_var := Some 3%Z |}.

(* ================================================================== *)
(** * More of the program: language codes for embedding, the API test *)
(* ================================================================== *)

(** The items of the dictionary display [ISO_639_2_CODES], in the order
    they are written; the display names the key ["sq"] twice. *)
Definition ISO_639_2_CODES_items : list (string * string) :=
  [
    ("af", "afr"); ("sq", "alb"); ("am", "amh"); ("ar", "ara"); ("az", "aze");
    ("be", "bel"); ("bg", "bul"); ("bn", "ben"); ("bs", "bos"); ("ca", "cat");
    ("ceb", "ceb"); ("co", "cos"); ("cs", "ces"); ("cze", "ces");
    ("cy", "cym"); ("da", "dan"); ("de", "ger"); ("ger", "ger");
    ("deu", "ger"); ("el", "ell"); ("en", "eng"); ("eo", "epo");
    ("es", "spa"); ("et", "est"); ("eu", "eus"); ("fa", "fas"); ("fi", "fin");
    ("fil", "fil"); ("fr", "fre"); ("fre", "fre"); ("fra", "fre");
    ("ga", "gle"); ("gl", "glg"); ("gu", "guj"); ("ha", "hau");
    ("haw", "haw"); ("he", "heb"); ("iw", "heb"); ("hi", "hin");
    ("hmn", "hmn"); ("hr", "hrv"); ("hu", "hun"); ("hy", "hye");
    ("id", "ind"); ("ig", "ibo"); ("is", "isl"); ("it", "ita"); ("ja", "jpn");
    ("jw", "jav"); ("ka", "kat"); ("kk", "kaz"); ("km", "khm"); ("kn", "kan");
    ("ko", "kor"); ("ku", "kur"); ("ky", "kir"); ("la", "lat"); ("lb", "ltz");
    ("lo", "lao"); ("lt", "lit"); ("lv", "lav"); ("mg", "mlg"); ("mi", "mao");
    ("mk", "mkd"); ("ml", "mal"); ("mn", "mon"); ("mr", "mar"); ("ms", "msa");
    ("mt", "mlt"); ("my", "mya"); ("ne", "nep"); ("nl", "dut");
    ("dut", "dut"); ("nld", "dut"); ("no", "nor"); ("ny", "nya");
    ("or", "ori"); ("pa", "pan"); ("pl", "pol"); ("ps", "pus"); ("pt", "por");
    ("ro", "rum"); ("rum", "rum"); ("ron", "rum"); ("ru", "rus");
    ("rw", "kin"); ("sd", "snd"); ("si", "sin"); ("sk", "slk"); ("sl", "slv");
    ("sm", "smo"); ("sn", "sna"); ("so", "som"); ("sq", "alb"); ("sr", "srp");
    ("st", "sot"); ("su", "sun"); ("sv", "swe"); ("sw", "swa"); ("ta", "tam");
    ("te", "tel"); ("tg", "tgk"); ("th", "tha"); ("ti", "tir"); ("tk", "tuk");
    ("tl", "tgl"); ("tr", "tur"); ("tt", "tat"); ("ug", "uig"); ("uk", "ukr");
    ("ur", "urd"); ("uz", "uzb"); ("vi", "vie"); ("xh", "xho"); ("yi", "yid");
    ("yo", "yor"); ("zh", "chi"); ("zh-cn", "chi"); ("zh-tw", "chi");
    ("zu", "zul")
  ].

(** A dictionary display stores its items from left to right. *)
Definition ISO_639_2_CODES : list (string * string) :=
  foldl (fun d item => PyDict.set (fst item) (snd item) d) []
    ISO_639_2_CODES_items.

Definition hyphen : ascii := "-"%char.

(** [x or y] on strings that may be [None]. *)
Definition or_else (x : option string) (y : string) : string :=
  match x with
  | Some s => if PyStr.truthy s then s else y
  | None => y
  end.

(** [get_embed_language_code(language_name=None, fallback=None)]; the
    element [0] of a split always exists. *)
Definition get_embed_language_code (st : state)
    (language_name fallback : option string) : string :=
  let target := or_else language_name (target_lang (config st)) in
  let code :=
    match languages_get target with
    | Some c => c
    | None => or_else fallback "en"
    end in
  let normalized := List.hd "" (PyStr.split hyphen (PyStr.lower code)) in
  match PyDict.get normalized ISO_639_2_CODES with
  | Some c => c
  | None => PyStr.take 3 normalized
  end.

(** The dialog that [test_translation] ends with. *)
Inductive test_dialog :=
| InvalidTargetLanguage
| InvalidSourceLanguage
| TestSuccessful (translated : string)
| TestReturnedOriginal
| TestFailed (translated : string).

Definition sample_text : string := "This is a test.".

(** [test_translation]: one call of [translate_text_direct] with
    [max_retries=1] for a fixed sentence.  The [except] branch is for
    exceptions that the call does not let through. *)
Definition test_translation (e : env) (st : state) : test_dialog * state :=
  let target_name := target_lang (config st) in
  let source_name := source_lang (config st) in
  if negb (PyStr.truthy target_name)
     || negb (bool_decide (is_Some (languages_get target_name)))
  then (InvalidTargetLanguage, st)
  else if negb (String.eqb source_name "Auto")
          && negb (bool_decide (is_Some (languages_get source_name)))
  then (InvalidSourceLanguage, st)
  else
    let (translated, st) :=
      translate_text_direct e st sample_text target_name source_name 1 in
    if PyStr.truthy translated && PyStr.truthy (PyStr.strip translated)
       && negb (String.eqb (PyStr.strip translated) (PyStr.strip sample_text))
    then (TestSuccessful translated, st)
    else if String.eqb translated sample_text then (TestReturnedOriginal, st)
    else (TestFailed translated, st).

(* ================================================================== *)
(** * Vocabulary of the statements *)
(* ================================================================== *)

Definition pipe : ascii := "|"%char.

(** A language code without the separator of the cache key. *)
Definition pipe_free (s : string) : Prop := PyStr.contains pipe s = false.

(** Every key of the cache was built by [translate_text_direct]: two codes
    and a non-empty trimmed text.  It holds of the empty cache and the
    method keeps it. *)
Definition cache_wf (c : gmap string string) : Prop :=
  forall k v, c !! k = Some v ->
    exists source_code target_code stripped,
      k = cache_key source_code target_code stripped
      /\ pipe_free source_code /\ pipe_free target_code
      /\ stripped <> "".

(** The service only ever echoes the text [stripped]: whenever it is asked
    to translate it, the answer is a 200 whose text, trimmed, is [stripped]. *)
Definition echoes (e : env) (stripped : string) : Prop :=
  forall n r, q r = stripped ->
    exists data t,
      net e n r = HttpResponse 200 (Some data)
      /\ extract_translation data = Some t
      /\ PyStr.strip t = stripped.

(** No translation of [stripped] is cached, whatever the language pair. *)
Definition uncached (st : state) (stripped : string) : Prop :=
  forall target source source_code target_code,
    language_codes target source = Some (source_code, target_code) ->
    translation_cache st !! cache_key source_code target_code stripped = None.

(** The user never cancels, and writes to disk succeed. *)
Definition never_cancelled (e : env) : Prop :=
  forall n, translation_in_progress e n = true.

Definition writes_succeed (e : env) : Prop :=
  forall n, write_ok e n = true.

(** The states of the collection loop of one file: from the start of the
    pool, any number of turns. *)
Inductive loop_reaches (e : env) (output_path source_lang target_lang : string)
    (subs : list SubRipItem)
    : list (nat * SubRipItem) -> pool_acc -> state
      -> list (nat * SubRipItem) -> pool_acc -> state -> Prop :=
| reaches_here pending acc st :
    loop_reaches e output_path source_lang target_lang subs
      pending acc st pending acc st
| reaches_turn pending acc st pending1 acc1 st1 pending2 acc2 st2 :
    as_completed_step e output_path source_lang target_lang subs pending acc st
      = Continue pending1 acc1 st1 ->
    loop_reaches e output_path source_lang target_lang subs
      pending1 acc1 st1 pending2 acc2 st2 ->
    loop_reaches e output_path source_lang target_lang subs
      pending acc st pending2 acc2 st2.

(** The state in which the collection loop makes its cancellation check
    for the future that completes next: the worker's task has run. *)
Definition state_at_check (e : env) (source_lang target_lang : string)
    (pending : list (nat * SubRipItem)) (st : state) : option state :=
  match pending !! (completes_next e (clock st) mod List.length pending) with
  | None => None
  | Some (_, sub) =>
      Some (snd (translate_subtitle e (tick st) sub source_lang target_lang))
  end.

(** [res] is what the task of the line [sub] at place [j] of the file
    returned when the pool ran it: the collection loop, started in [st] with
    every line pending, reaches a state in which the future of that line is
    the one that completes next, and [res] is what [translate_subtitle]
    returns for [sub] there. *)
Definition task_result_of (e : env) (output_path source_lang target_lang : string)
    (subs : list SubRipItem) (st : state) (j : nat) (sub : SubRipItem)
    (res : task_result) : Prop :=
  exists pending acc st_j,
    loop_reaches e output_path source_lang target_lang subs
      (imap pair subs) empty_acc st pending acc st_j
    /\ pending !! (completes_next e (clock st_j) mod List.length pending)
       = Some (j, sub)
    /\ res = fst (translate_subtitle e (tick st_j) sub source_lang target_lang).

(** What a call of [translate_text_direct] leaves alone. *)
Definition line_frame (st st' : state) : Prop :=
  config st' = config st
  /\ untranslated_line_details st' = untranslated_line_details st
  /\ final_untranslated_count st' = final_untranslated_count st
  /\ output_files st' = output_files st
  /\ disk st' = disk st
  /\ attempts st' = attempts st.

(** What running a task, collecting its result, or retrying a record leave
    alone. *)
Definition pool_frame (st st' : state) : Prop :=
  config st' = config st
  /\ final_untranslated_count st' = final_untranslated_count st
  /\ output_files st' = output_files st
  /\ disk st' = disk st.

(** The ways the body of the retry loop goes for a record [(k, d)]: the
    pass is cancelled; the record is at the cap and is carried over; its
    line is gone and it is put at the cap; its line has changed and it is
    dropped; it is translated; it fails once more. *)
Inductive item_effect (pass_number : nat) (k : key) (d : details)
    (fa : file_acc) (st : state) : outcome file_acc -> state -> Prop :=
| effect_cancelled st' :
    pool_frame st st' ->
    attempts st' = attempts st ->
    untranslated_line_details st' = untranslated_line_details st ->
    item_effect pass_number k d fa st
      (Interrupted "Cancelled during retry pass.") st'
| effect_capped st' :
    MAX_FAILURES_PER_LINE <= failure_count d ->
    pool_frame st st' ->
    attempts st' = attempts st ->
    untranslated_line_details st' = untranslated_line_details st ->
    item_effect pass_number k d fa st (Returned (keep_record k d fa)) st'
| effect_no_line st' :
    failure_count d < MAX_FAILURES_PER_LINE ->
    pool_frame st st' ->
    attempts st' = attempts st ->
    untranslated_line_details st'
    = PyDict.set k (with_failure_count MAX_FAILURES_PER_LINE d)
        (untranslated_line_details st) ->
    item_effect pass_number k d fa st
      (Returned (keep_record k (with_failure_count MAX_FAILURES_PER_LINE d) fa))
      st'
| effect_changed st' :
    failure_count d < MAX_FAILURES_PER_LINE ->
    pool_frame st st' ->
    attempts st' = attempts st ->
    untranslated_line_details st' = untranslated_line_details st ->
    item_effect pass_number k d fa st (Returned fa) st'
| effect_success st' subs' :
    failure_count d < MAX_FAILURES_PER_LINE ->
    pool_frame st st' ->
    attempts st' = RetryAttempt pass_number k true :: attempts st ->
    untranslated_line_details st' = untranslated_line_details st ->
    item_effect pass_number k d fa st
      (Returned
         {| fa_subs := subs'; fa_modified := true;
            fa_pass :=
              {| next_untranslated := next_untranslated (fa_pass fa);
                 successes := successes (fa_pass fa) + 1 |} |}) st'
| effect_failure st' :
    failure_count d < MAX_FAILURES_PER_LINE ->
    pool_frame st st' ->
    attempts st' = RetryAttempt pass_number k false :: attempts st ->
    untranslated_line_details st'
    = PyDict.set k (with_failure_count (failure_count d + 1) d)
        (untranslated_line_details st) ->
    item_effect pass_number k d fa st
      (Returned (keep_record k (with_failure_count (failure_count d + 1) d) fa))
      st'.

(** The records of all groups, group after group. *)
Definition group_items (grouped : list (string * list (key * details)))
    : list (key * details) :=
  foldr (fun g rest => (snd g ++ rest)%list) [] grouped.

(** Retry attempts made for a record, in a history. *)
Definition is_retry_of (k : key) (a : attempt) : bool :=
  match a with
  | RetryAttempt _ k' _ => bool_decide (k' = k)
  | InitialAttempt _ => false
  end.

Definition count_retries (k : key) (h : list attempt) : nat :=
  List.length (List.filter (is_retry_of k) h).

Definition is_initial_of (i : Z) (a : attempt) : bool :=
  match a with
  | InitialAttempt j => bool_decide (j = i)
  | RetryAttempt _ _ _ => false
  end.

Definition count_initial (i : Z) (h : list attempt) : nat :=
  List.length (List.filter (is_initial_of i) h).





(** What the translation of a line that fails leaves alone. *)
Definition same_store (st st' : state) : Prop :=
  config st' = config st
  /\ disk st' = disk st
  /\ translation_cache st' = translation_cache st
  /\ output_files st' = output_files st.

(** A service that echoes every text, for the scenarios. *)
Definition echo_env : env :=
  {| net := fun _ r => HttpResponse 200 (Some (JList [JList [JList [JStr (q r)]]]));
     translation_in_progress := fun _ => true;
     completes_next := fun _ => 0;
     write_ok := fun _ => true |}.

(* ================================================================== *)
(** * Invariants of the loops *)
(* ================================================================== *)

(** What a task returns for a line it could not translate. *)
Definition failed_result (sub : SubRipItem) : task_result :=
  {| r_index := index sub; r_text := text sub; r_success := false;
     r_original := text sub |}.

(** The invariant of the collection loop: a position of the file is
    pending or collected, never both and never twice; a collected result
    carries the index of its line, and, when indices are distinct,
    [results] maps that index to the text of that very result. *)
Definition pool_inv (subs : list SubRipItem)
    (pending : list (nat * SubRipItem)) (acc : pool_acc) : Prop :=
  NoDup ((fst <$> pending) ++ (fst <$> completed acc))%list
  /\ (forall pos sub, (pos, sub) ∈ pending -> subs !! pos = Some sub)
  /\ (forall j sub, subs !! j = Some sub ->
        (j, sub) ∈ pending \/ exists res, (j, res) ∈ completed acc)
  /\ (forall j res, (j, res) ∈ completed acc ->
        exists sub, subs !! j = Some sub
                    /\ r_index res = index sub
                    /\ (NoDup (index <$> subs) ->
                        results acc !! index sub = Some (r_text res))).


(** Every record sits in the group of its own output path. *)
Definition well_grouped (grouped : list (string * list (key * details))) : Prop :=
  forall p items k d, (p, items) ∈ grouped -> (k, d) ∈ items -> fst k = p.



(* ================================================================== *)
(** * Scenarios *)
(* ================================================================== *)

(** Captions, disks, services and states for the examples. *)
Definition sample_caption : SubRipItem :=
  {| index := 1; start := 1000; stop := 2500; text := "Hello there" |}.

Definition older_caption : SubRipItem :=
  {| index := 1; start := 1000; stop := 2500; text := "An older translation" |}.

Definition second_caption : SubRipItem :=
  {| index := 2; start := 3000; stop := 4000; text := "Good morning" |}.

Definition third_caption : SubRipItem :=
  {| index := 3; start := 4200; stop := 4800; text := "See you" |}.

Definition blank_caption : SubRipItem :=
  {| index := 2; start := 3000; stop := 4000; text := "" |}.

Definition crowded_disk : gmap string (list SubRipItem) :=
  {[ "/subs/movie_cleaned.srt" := [sample_caption];
     "/subs/movie.ru.srt" := [older_caption] ]}.

Definition one_line_disk : gmap string (list SubRipItem) :=
  {[ "/subs/movie_cleaned.srt" := [sample_caption] ]}.

Definition disk_with_blank : gmap string (list SubRipItem) :=
  {[ "/subs/movie_cleaned.srt" := [sample_caption; blank_caption] ]}.

Definition three_lines : gmap string (list SubRipItem) :=
  {[ "/subs/movie_cleaned.srt" :=
       [sample_caption; second_caption; third_caption] ]}.

(** A service that translates whatever it is sent. *)
Definition translating_env : env :=
  {| net := fun _ r =>
       HttpResponse 200 (Some (JList [JList [JList [JStr ("[ru] " ++ q r)]]]));
     translation_in_progress := fun _ => true;
     completes_next := fun _ => 0;
     write_ok := fun _ => true |}.

(** The user cancels while the second line is being translated. *)
Definition cancelling_env : env :=
  {| net := net translating_env;
     translation_in_progress := fun n => n <? 9;
     completes_next := fun _ => 0;
     write_ok := fun _ => true |}.

(** The futures of a three-line file complete in the order 3, 1, 2. *)
Definition out_of_order_env : env :=
  {| net := net translating_env;
     translation_in_progress := fun _ => true;
     completes_next := fun n => if n =? 0 then 2 else 0;
     write_ok := fun _ => true |}.

(** A state whose cache holds one translation. *)
Definition warm_state : state :=
  set_translation_cache {[ "auto|ru|Hello there" := "Privet" ]}
    (init_state default_settings ∅).

(** A table with a record that has failed once and a record at the cap. *)
Definition two_records : list (key * details) :=
  [(("/subs/movie.ru.srt", 1%Z),
    {| original_text := "Hello there"; failure_count := 1 |});
   (("/subs/movie.ru.srt", 2%Z),
    {| original_text := "Good morning"; failure_count := 3 |})].

Definition after_parallel_pass : state :=
  set_untranslated_line_details two_records
    (init_state default_settings
       {[ "/subs/movie.ru.srt" := [sample_caption; second_caption] ]}).



(** The service answers every request with 429 (too many requests). *)
Definition busy_env : env :=
  {| net := fun _ _ => HttpResponse 429 None;
     translation_in_progress := fun _ => true;
     completes_next := fun _ => 0;
     write_ok := fun _ => true |}.

(** The service answers every request with 404. *)
Definition refusing_env : env :=
  {| net := fun _ _ => HttpResponse 404 None;
     translation_in_progress := fun _ => true;
     completes_next := fun _ => 0;
     write_ok := fun _ => true |}.

(** A disk where the file to translate holds no caption, and an
    environment in which the user has cancelled before the run starts. *)
Definition empty_file_disk : gmap string (list SubRipItem) :=
  {[ "/subs/movie_cleaned.srt" := [] ]}.

Definition cancelled_env : env :=
  {| net := net translating_env;
     translation_in_progress := fun _ => false;
     completes_next := fun _ => 0;
     write_ok := fun _ => true |}.

(* ================================================================== *)
(** * Further vocabulary: answers of the service, shapes, counts *)
(* ================================================================== *)

(** The service never answers with a translation: every request times out
    or gets one of the statuses that are retried. *)
Definition always_transient (e : env) : Prop :=
  forall n r,
    net e n r = Timeout
    \/ exists code body,
         net e n r = HttpResponse code body
         /\ (code =? 200) = false /\ transient_status code = true.

(** An answer that ends the attempts of a call at once: a status that is
    neither 200 nor retried, or an exception other than a timeout. *)
Definition terminal_answer (a : response) : Prop :=
  a = RequestError
  \/ exists code body,
       a = HttpResponse code body
       /\ (code =? 200) = false /\ transient_status code = false.

(** The two shapes of a 200 answer, built from the same segments: the
    nested array (each segment an array that starts with its text) and the
    object with a list of sentences. *)
Definition nested_shape (segs : list (string * list json)) (rest : list json)
    : json :=
  JList (JList ((fun seg => JList (JStr (fst seg) :: snd seg)) <$> segs) :: rest).

Definition sentences_shape (segs : list string) (others : list (string * json))
    : json :=
  JDict (("sentences",
          JList ((fun s => JDict [("trans", JStr s)]) <$> segs)) :: others).

(** The results of a pool history that report a failure. *)
Definition failed_results (h : list (nat * task_result)) : nat :=
  List.length (filter (fun p => r_success (snd p) = false) h).

(** The failures counted for [k] in the table of a state (0 without a
    record), and what the table holds for a result of the parallel pass
    over [output_path] that started in [st0]: nothing after a success, the
    text of the line and one more failure after a failure. *)
Definition earlier_failures (k : key) (st : state) : nat :=
  match PyDict.get k (untranslated_line_details st) with
  | Some info => failure_count info
  | None => 0
  end.

Definition recorded (output_path : string) (st0 st : state) (res : task_result)
    : Prop :=
  let k := (output_path, r_index res) in
  if r_success res then PyDict.get k (untranslated_line_details st) = None
  else PyDict.get k (untranslated_line_details st)
       = Some {| original_text := r_original res;
                 failure_count := earlier_failures k st0 + 1 |}.

(** A caption of the saved file against the caption of the input at the
    same place: same index and timing, and a text that is the input's or
    the text of a collected result with that index. *)
Definition retimed (h : list (nat * task_result)) (sub saved : SubRipItem) : Prop :=
  index saved = index sub /\ start saved = start sub /\ stop saved = stop sub
  /\ (text saved = text sub
      \/ exists j res, (j, res) ∈ h /\ r_index res = index sub
                       /\ text saved = r_text res).

(** A record after a retry pass against the table before it: the record of
    the same key there has the same text, and, when its count was within
    the cap, a count that is not greater and still within the cap. *)
Definition descends (table : list (key * details)) (item : key * details)
    : Prop :=
  exists d,
    (fst item, d) ∈ table
    /\ original_text (snd item) = original_text d
    /\ (failure_count d <= MAX_FAILURES_PER_LINE ->
        failure_count d <= failure_count (snd item) <= MAX_FAILURES_PER_LINE).

(** The output paths named by the records of a table. *)
Definition record_paths (table : list (key * details)) : list string :=
  (fun item => fst (fst item)) <$> table.

(** The records of [two_records] after their output file was removed, and
    after both of its lines were given other texts. *)
Definition orphaned_records : state :=
  set_untranslated_line_details two_records (init_state default_settings ∅).

Definition edited_caption : SubRipItem :=
  {| index := 1; start := 1000; stop := 2500; text := "Privet" |}.

Definition stale_records : state :=
  set_untranslated_line_details
    [(("/subs/movie.ru.srt", 1%Z),
      {| original_text := "Hello there"; failure_count := 1 |})]
    (init_state default_settings
       {[ "/subs/movie.ru.srt" := [edited_caption; second_caption] ]}).

(** A record whose line is still in its output file, with a text that is
    no longer the text that failed (compared after trimming). *)
Definition line_changed (st : state) (item : key * details) : Prop :=
  failure_count (snd item) < MAX_FAILURES_PER_LINE
  /\ exists subs sub,
       disk st !! fst (fst item) = Some subs
       /\ List.find (fun s => bool_decide (index s = snd (fst item))) subs
          = Some sub
       /\ PyStr.strip (text sub) <> PyStr.strip (original_text (snd item)).

(** Where a run may write.  [outs] is a set of paths; a table is within it
    when each of its records names one of them, and a step from [st] to
    [st'] is confined to it when, the table of [st] being within [outs],
    the files outside [outs] are in [st'] what they were in [st] and the
    table is still within [outs]. *)
Definition in_outputs (outs : string -> Prop) (table : list (key * details))
    : Prop :=
  Forall (fun item => outs (fst (fst item))) table.

Definition confined (outs : string -> Prop) (st st' : state) : Prop :=
  config st' = config st
  /\ (in_outputs outs (untranslated_line_details st) ->
      (forall p, disk st' !! p = disk st !! p \/ outs p)
      /\ in_outputs outs (untranslated_line_details st')).

(** The output paths of the files of a run. *)
Definition output_of (st : state) (files : list string) (p : string) : Prop :=
  exists f, f ∈ files /\ p = get_output_path st f (target_lang (config st)).

(** Every value of the cache was accepted as a translation of the text of
    its key: it is not empty, not blank, and differs from that text after
    trimming. *)
Definition cache_sound (c : gmap string string) : Prop :=
  forall k v, c !! k = Some v ->
    exists source_code target_code stripped,
      k = cache_key source_code target_code stripped
      /\ pipe_free source_code /\ pipe_free target_code
      /\ accepted v stripped = true.

(* ================================================================== *)
(** * More of the program: the window, its list of files and its stages *)
(* ================================================================== *)

(** What the window asks the operating system about paths: [os.path.isfile],
    [os.path.exists] and [os.path.abspath].  [os.path.normcase] is the
    identity on POSIX. *)
Record os_path := {
  isfile : string -> bool;
  file_exists : string -> bool;
  abspath : string -> string
}.

Definition normcase (path : string) : string := path.

(** The threads that the window starts, with their arguments. *)
Inductive thread :=
| ProcessMkvFiles (mkv_files : list string)
| CleanSubtitles (files_to_clean : list string)
| TranslateFiles (cleaned_srts : list string)
| EmbedSubtitles (tasks : list (string * list string)).

(** How [initiate_next_run_all_step] leaves the pipeline: a stage was
    started, a later step was scheduled with [root.after], the pipeline is
    complete, or nothing was done. *)
Inductive pipeline :=
| Launched (t : thread)
| Scheduled (step : string)
| Complete
| Idle.

Module Window.

(** The attributes of the application object outside the translation
    engine, and [files_listbox], the only widget whose content the code
    reads back.  Logs, labels, dialogs and the states of the buttons are
    written and never read: they are left out. *)
Record window := {
  engine : state;
  selected_files : list string;
  files_listbox : list string;
  cleaned_files : list string;
  embedding_results : list string;
  srt_to_mkv_map : list (string * option string);
  last_browse_dir : option string;
  mkv_processing_in_progress : bool;
  cleaning_in_progress : bool;
  translation_in_progress : bool;
  embedding_in_progress : bool;
  run_all_in_progress : bool;
  run_all_current_step : option string
}.

(** [reset_outputs_after_file_change] *)
Definition reset_outputs_after_file_change (w : window) : window :=
  {| engine := set_output_files [] (engine w);
     selected_files := selected_files w; files_listbox := files_listbox w;
     cleaned_files := []; embedding_results := [];
     srt_to_mkv_map := srt_to_mkv_map w; last_browse_dir := last_browse_dir w;
     mkv_processing_in_progress := mkv_processing_in_progress w;
     cleaning_in_progress := cleaning_in_progress w;
     translation_in_progress := translation_in_progress w;
     embedding_in_progress := embedding_in_progress w;
     run_all_in_progress := run_all_in_progress w;
     run_all_current_step := run_all_current_step w |}.

(** [any(os.path.normcase(p) == norm for p in self.selected_files)] *)
Definition already_selected (path : string) (w : window) : bool :=
  existsb (fun p => String.eqb (normcase p) (normcase path)) (selected_files w).

(** [self.selected_files.append(path)] and the insertion of its base name at
    the end of the list box. *)
Definition append_file (path : string) (w : window) : window :=
  {| engine := engine w;
     selected_files := (selected_files w ++ [path])%list;
     files_listbox := (files_listbox w ++ [PosixPath.basename path])%list;
     cleaned_files := cleaned_files w; embedding_results := embedding_results w;
     srt_to_mkv_map := srt_to_mkv_map w; last_browse_dir := last_browse_dir w;
     mkv_processing_in_progress := mkv_processing_in_progress w;
     cleaning_in_progress := cleaning_in_progress w;
     translation_in_progress := translation_in_progress w;
     embedding_in_progress := embedding_in_progress w;
     run_all_in_progress := run_all_in_progress w;
     run_all_current_step := run_all_current_step w |}.

Definition set_last_browse_dir (d : string) (w : window) : window :=
  {| engine := engine w;
     selected_files := selected_files w; files_listbox := files_listbox w;
     cleaned_files := cleaned_files w; embedding_results := embedding_results w;
     srt_to_mkv_map := srt_to_mkv_map w; last_browse_dir := Some d;
     mkv_processing_in_progress := mkv_processing_in_progress w;
     cleaning_in_progress := cleaning_in_progress w;
     translation_in_progress := translation_in_progress w;
     embedding_in_progress := embedding_in_progress w;
     run_all_in_progress := run_all_in_progress w;
     run_all_current_step := run_all_current_step w |}.

(** The loop of [browse_files] over the paths of the dialog; the result
    carries [added]. *)
Fixpoint browse_loop (paths : list string) (added : nat) (w : window)
    : window * nat :=
  match paths with
  | [] => (w, added)
  | path :: rest =>
      if already_selected path w then browse_loop rest added w
      else browse_loop rest (added + 1) (append_file path w)
  end.

(** [browse_files], for the paths that the file dialog returns. *)
Definition browse_files (paths : list string) (w : window) : window :=
  match paths with
  | [] => w
  | first :: _ =>
      let w := set_last_browse_dir (PosixPath.dirname first) w in
      let (w, added) := browse_loop paths 0 w in
      if 0 <? added then reset_outputs_after_file_change w else w
  end.

(** [path.lower().endswith((".srt", ".mkv"))] *)
Definition supported_file (path : string) : bool :=
  PyStr.endswith (PyStr.lower path) ".srt"
  || PyStr.endswith (PyStr.lower path) ".mkv".

(** The loop of [handle_drop] over the dropped paths. *)
Fixpoint drop_loop (os : os_path) (paths : list string) (added : nat)
    (w : window) : window * nat :=
  match paths with
  | [] => (w, added)
  | path :: rest =>
      if isfile os path && supported_file path then
        if already_selected path w then drop_loop os rest added w
        else drop_loop os rest (added + 1) (append_file path w)
      else drop_loop os rest added w
  end.

(** [handle_drop], for the paths of the drop event; none of the operations
    of its [try] block raises. *)
Definition handle_drop (os : os_path) (paths : list string) (w : window)
    : window :=
  let (w, added) := drop_loop os paths 0 w in
  if 0 <? added then reset_outputs_after_file_change w else w.

(** The guard that opens the four [start_*] methods. *)
Definition busy (w : window) : bool :=
  mkv_processing_in_progress w || cleaning_in_progress w
  || translation_in_progress w || embedding_in_progress w.

Definition is_mkv (f : string) : bool := PyStr.endswith (PyStr.lower f) ".mkv".
Definition is_srt (f : string) : bool := PyStr.endswith (PyStr.lower f) ".srt".
Definition is_cleaned (f : string) : bool :=
  PyStr.endswith (PyStr.lower f) "_cleaned.srt".

(** [start_mkv_processing] *)
Definition start_mkv_processing (w : window) : window * option thread :=
  if busy w then (w, None)
  else
    let mkv_files := List.filter is_mkv (selected_files w) in
    match mkv_files with
    | [] => (w, None)
    | _ =>
        ({| engine := engine w;
            selected_files := selected_files w; files_listbox := files_listbox w;
            cleaned_files := cleaned_files w;
            embedding_results := embedding_results w;
            srt_to_mkv_map := srt_to_mkv_map w;
            last_browse_dir := last_browse_dir w;
            mkv_processing_in_progress := true;
            cleaning_in_progress := cleaning_in_progress w;
            translation_in_progress := translation_in_progress w;
            embedding_in_progress := embedding_in_progress w;
            run_all_in_progress := run_all_in_progress w;
            run_all_current_step := run_all_current_step w |},
         Some (ProcessMkvFiles mkv_files))
    end.

Definition begin_cleaning (files_to_clean : list string) (w : window)
    : window * option thread :=
  ({| engine := engine w;
      selected_files := selected_files w; files_listbox := files_listbox w;
      cleaned_files := [];
      embedding_results := embedding_results w;
      srt_to_mkv_map := srt_to_mkv_map w;
      last_browse_dir := last_browse_dir w;
      mkv_processing_in_progress := mkv_processing_in_progress w;
      cleaning_in_progress := true;
      translation_in_progress := translation_in_progress w;
      embedding_in_progress := embedding_in_progress w;
      run_all_in_progress := run_all_in_progress w;
      run_all_current_step := run_all_current_step w |},
   Some (CleanSubtitles files_to_clean)).

(** [start_cleaning]; [confirm] is the answer to the question asked when
    every subtitle file is already cleaned. *)
Definition start_cleaning (confirm : bool) (w : window)
    : window * option thread :=
  if busy w then (w, None)
  else
    let srt_files := List.filter is_srt (selected_files w) in
    match srt_files with
    | [] => (w, None)
    | _ =>
        let files_to_clean :=
          List.filter (fun f => negb (is_cleaned f)) srt_files in
        match files_to_clean with
        | [] =>
            if negb (run_all_in_progress w) then
              if negb confirm then (w, None)
              else begin_cleaning srt_files w
            else begin_cleaning files_to_clean w
        | _ => begin_cleaning files_to_clean w
        end
    end.

(** [start_translation]; the number of workers it reads is a setting of
    the pool, which the engine is modelled for whatever its size. *)
Definition start_translation (w : window) : window * option thread :=
  if busy w then (w, None)
  else
    let cleaned_srts := List.filter is_cleaned (selected_files w) in
    match cleaned_srts with
    | [] => (w, None)
    | _ =>
        ({| engine :=
              set_final_untranslated_count 0
                (set_untranslated_line_details []
                   (set_cache_hits 0
                      (set_error_count 0
                         (set_request_count 0
                            (set_output_files [] (engine w))))));
            selected_files := selected_files w; files_listbox := files_listbox w;
            cleaned_files := cleaned_files w;
            embedding_results := [];
            srt_to_mkv_map := srt_to_mkv_map w;
            last_browse_dir := last_browse_dir w;
            mkv_processing_in_progress := mkv_processing_in_progress w;
            cleaning_in_progress := cleaning_in_progress w;
            translation_in_progress := true;
            embedding_in_progress := embedding_in_progress w;
            run_all_in_progress := run_all_in_progress w;
            run_all_current_step := run_all_current_step w |},
         Some (TranslateFiles cleaned_srts))
    end.

(** [mkv = self.srt_to_mkv_map.get(srt)] followed by
    [mkv and os.path.exists(mkv)]: the MKV to embed [srt] into, if any. *)
Definition embed_target (os : os_path) (w : window) (srt : string)
    : option string :=
  match PyDict.get srt (srt_to_mkv_map w) with
  | Some (Some mkv) =>
      if PyStr.truthy mkv && file_exists os mkv then Some mkv else None
  | _ => None
  end.

(** [tasks[mkv].append(srt)] on a [defaultdict(list)]. *)
Definition add_task (mkv srt : string) (tasks : list (string * list string))
    : list (string * list string) :=
  match PyDict.get mkv tasks with
  | Some srts => PyDict.set mkv (srts ++ [srt])%list tasks
  | None => PyDict.set mkv [srt] tasks
  end.

Definition embedding_tasks (os : os_path) (w : window)
    (translated_srts : list string) : list (string * list string) :=
  foldl (fun tasks srt =>
           match embed_target os w srt with
           | Some mkv => add_task mkv srt tasks
           | None => tasks
           end) [] translated_srts.

(** [start_embedding] *)
Definition start_embedding (os : os_path) (w : window)
    : window * option thread :=
  if busy w then (w, None)
  else
    let translated_srts :=
      abspath os <$> List.filter is_srt (output_files (engine w)) in
    match translated_srts with
    | [] => (w, None)
    | _ =>
        match embedding_tasks os w translated_srts with
        | [] => (w, None)
        | tasks =>
            ({| engine := engine w;
                selected_files := selected_files w;
                files_listbox := files_listbox w;
                cleaned_files := cleaned_files w;
                embedding_results := [];
                srt_to_mkv_map := srt_to_mkv_map w;
                last_browse_dir := last_browse_dir w;
                mkv_processing_in_progress := mkv_processing_in_progress w;
                cleaning_in_progress := cleaning_in_progress w;
                translation_in_progress := translation_in_progress w;
                embedding_in_progress := true;
                run_all_in_progress := run_all_in_progress w;
                run_all_current_step := run_all_current_step w |},
             Some (EmbedSubtitles tasks))
        end
    end.

(** [run_all_complete]; the class defines it twice, with the same body. *)
Definition run_all_complete (w : window) : window :=
  {| engine := engine w;
     selected_files := selected_files w; files_listbox := files_listbox w;
     cleaned_files := cleaned_files w; embedding_results := embedding_results w;
     srt_to_mkv_map := srt_to_mkv_map w; last_browse_dir := last_browse_dir w;
     mkv_processing_in_progress := mkv_processing_in_progress w;
     cleaning_in_progress := cleaning_in_progress w;
     translation_in_progress := translation_in_progress w;
     embedding_in_progress := embedding_in_progress w;
     run_all_in_progress := false;
     run_all_current_step := None |}.

Definition set_run_all_current_step (step : string) (w : window) : window :=
  {| engine := engine w;
     selected_files := selected_files w; files_listbox := files_listbox w;
     cleaned_files := cleaned_files w; embedding_results := embedding_results w;
     srt_to_mkv_map := srt_to_mkv_map w; last_browse_dir := last_browse_dir w;
     mkv_processing_in_progress := mkv_processing_in_progress w;
     cleaning_in_progress := cleaning_in_progress w;
     translation_in_progress := translation_in_progress w;
     embedding_in_progress := embedding_in_progress w;
     run_all_in_progress := run_all_in_progress w;
     run_all_current_step := Some step |}.

(** What a [start_*] method called by the pipeline leaves behind. *)
Definition launched (r : window * option thread) : window * pipeline :=
  match r with
  | (w, Some t) => (w, Launched t)
  | (w, None) => (w, Idle)
  end.

(** [initiate_next_run_all_step]; inside the pipeline [start_cleaning] asks
    no question, so its answer does not matter. *)
Definition initiate_next_run_all_step (os : os_path) (step : string)
    (w : window) : window * pipeline :=
  if negb (run_all_in_progress w) then (w, Idle)
  else
    let w := set_run_all_current_step step w in
    if String.eqb step "mkv" then
      if existsb is_mkv (selected_files w)
      then launched (start_mkv_processing w)
      else (w, Scheduled "clean")
    else if String.eqb step "clean" then
      if existsb (fun f => is_srt f && negb (is_cleaned f)) (selected_files w)
      then launched (start_cleaning false w)
      else (w, Scheduled "translate")
    else if String.eqb step "translate" then
      if existsb is_cleaned (selected_files w)
      then launched (start_translation w)
      else (w, Scheduled "embed")
    else if String.eqb step "embed" then
      let translated_srts := List.filter is_srt (output_files (engine w)) in
      if existsb (fun srt =>
                    bool_decide (is_Some (embed_target os w (abspath os srt))))
           translated_srts
      then launched (start_embedding os w)
      else (run_all_complete w, Complete)
    else (run_all_complete w, Complete).

(** The scheduled callbacks run one after the other until a stage is
    started or the pipeline ends; [hops] bounds their number. *)
Fixpoint run_scheduled (os : os_path) (hops : nat) (step : string) (w : window)
    : window * pipeline :=
  match initiate_next_run_all_step os step w with
  | (w', Scheduled next) =>
      match hops with
      | 0 => (w', Scheduled next)
      | S hops' => run_scheduled os hops' next w'
      end
  | r => r
  end.

(** The stages in progress. *)
Definition stages (w : window) : list bool :=
  [mkv_processing_in_progress w; cleaning_in_progress w;
   translation_in_progress w; embedding_in_progress w].

Definition stages_running (w : window) : nat :=
  List.length (List.filter (fun b => b) (stages w)).

(** The list box shows the selected files, and no file is selected twice. *)
Definition listed (w : window) : Prop :=
  files_listbox w = PosixPath.basename <$> selected_files w
  /\ NoDup (selected_files w).

End Window.

(** A window with nothing selected and nothing running, and an operating
    system that knows two files. *)
Definition empty_window : Window.window :=
  {| Window.engine := init_state default_settings one_line_disk;
     Window.selected_files := []; Window.files_listbox := [];
     Window.cleaned_files := []; Window.embedding_results := [];
     Window.srt_to_mkv_map := []; Window.last_browse_dir := None;
     Window.mkv_processing_in_progress := false;
     Window.cleaning_in_progress := false;
     Window.translation_in_progress := false;
     Window.embedding_in_progress := false;
     Window.run_all_in_progress := false;
     Window.run_all_current_step := None |}.

Definition two_files_os : os_path :=
  {| isfile := fun p => String.eqb p "/subs/movie_cleaned.srt"
                        || String.eqb p "/subs/notes.txt";
     file_exists := fun p => String.eqb p "/subs/movie_cleaned.srt"
                             || String.eqb p "/subs/notes.txt";
     abspath := fun p => p |}.

(** What the four [start_*] methods have in common. *)
Definition starts_one_stage (w : Window.window)
    (r : Window.window * option thread) : Prop :=
  (snd r = None -> fst r = w)
  /\ (is_Some (snd r) ->
      Window.stages_running w = 0 /\ Window.stages_running (fst r) = 1
      /\ Window.selected_files (fst r) = Window.selected_files w
      /\ Window.run_all_in_progress (fst r) = Window.run_all_in_progress w).


(** How one step of the pipeline may end when the pipeline is on and no
    stage is in progress: it never ends with nothing done. *)
Definition step_outcome (step : string) (r : Window.window * pipeline) : Prop :=
  match snd r with
  | Launched _ =>
      Window.stages_running (fst r) = 1
      /\ Window.run_all_in_progress (fst r) = true
  | Scheduled next =>
      Window.busy (fst r) = false
      /\ Window.run_all_in_progress (fst r) = true
      /\ ((step = "mkv" /\ next = "clean")
          \/ (step = "clean" /\ next = "translate")
          \/ (step = "translate" /\ next = "embed"))
  | Complete =>
      Window.stages_running (fst r) = 0
      /\ Window.run_all_in_progress (fst r) = false
  | Idle => False
  end.

(** A window in which the pipeline was just switched on. *)
Definition pipeline_window (selected : list string) : Window.window :=
  {| Window.engine := init_state default_settings one_line_disk;
     Window.selected_files := selected;
     Window.files_listbox := PosixPath.basename <$> selected;
     Window.cleaned_files := []; Window.embedding_results := [];
     Window.srt_to_mkv_map := []; Window.last_browse_dir := None;
     Window.mkv_processing_in_progress := false;
     Window.cleaning_in_progress := false;
     Window.translation_in_progress := false;
     Window.embedding_in_progress := false;
     Window.run_all_in_progress := true;
     Window.run_all_current_step := None |}.

(* ================================================================== *)
(** * Endpoint rotation is round-robin *)
(* ================================================================== *)

Lemma get_next_endpoint_in_range st :
  current_endpoint_index st < List.length api_endpoints ->
  exists ep st',
    get_next_endpoint st = Some (ep, st')
    /\ api_endpoints !! current_endpoint_index st = Some ep
    /\ current_endpoint_index st'
       = (current_endpoint_index st + 1) mod List.length api_endpoints.
Proof.
  intros Hlt. unfold get_next_endpoint.
  destruct (lookup_lt_is_Some_2 api_endpoints _ Hlt) as [ep Hep].
  rewrite Hep. eauto.
Qed.

Lemma after_calls_index k st :
  current_endpoint_index st < List.length api_endpoints ->
  exists st',
    after_calls k st = Some st'
    /\ current_endpoint_index st'
       = (current_endpoint_index st + k) mod List.length api_endpoints.
Proof.
  intros Hlt. induction k as [|k [st1 [Hk Hidx]]]; cbn [after_calls].
  - exists st. split; [done|].
    rewrite Nat.add_0_r, Nat.mod_small; done.
  - rewrite Hk.
    assert (Hlt1 : current_endpoint_index st1 < List.length api_endpoints).
    { rewrite Hidx. apply Nat.mod_upper_bound. done. }
    destruct (get_next_endpoint_in_range st1 Hlt1) as (ep & st2 & Hg & _ & Hi2).
    exists st2. rewrite Hg. split; [done|].
    rewrite Hi2, Hidx.
    replace (current_endpoint_index st + S k)
      with ((current_endpoint_index st + k) + 1) by lia.
    rewrite Nat.Div0.add_mod_idemp_l. done.
Qed.

(** C8: starting from index 0, after any [k] calls of [get_next_endpoint]
    the shared index is inside the list, and the next call (the [k]-th,
    counting from 0) returns the endpoint at position [k mod N]. *)
Theorem C8_round_robin (st : state) (k : nat) :
  current_endpoint_index st = 0 ->
  exists st_k ep st_next,
    after_calls k st = Some st_k
    /\ current_endpoint_index st_k < List.length api_endpoints
    /\ get_next_endpoint st_k = Some (ep, st_next)
    /\ api_endpoints !! (k mod List.length api_endpoints) = Some ep
    /\ current_endpoint_index st_next < List.length api_endpoints.
Proof.
  intros H0.
  assert (Hlt : current_endpoint_index st < List.length api_endpoints).
  { rewrite H0. simpl. lia. }
  destruct (after_calls_index k st Hlt) as (st_k & Hk & Hidx).
  rewrite H0, Nat.add_0_l in Hidx.
  assert (Hltk : current_endpoint_index st_k < List.length api_endpoints).
  { rewrite Hidx. apply Nat.mod_upper_bound. simpl. lia. }
  destruct (get_next_endpoint_in_range st_k Hltk) as (ep & st' & Hg & Hep & Hi').
  exists st_k, ep, st'. repeat split; try done.
  - rewrite <- Hidx. done.
  - rewrite Hi'. apply Nat.mod_upper_bound. simpl. lia.
Qed.

Lemma C8_round_robin_witness :
  exists st_k ep st_next,
    after_calls 7 (init_state default_settings ∅) = Some st_k
    /\ current_endpoint_index st_k < List.length api_endpoints
    /\ get_next_endpoint st_k = Some (ep, st_next)
    /\ api_endpoints !! (7 mod List.length api_endpoints) = Some ep
    /\ current_endpoint_index st_next < List.length api_endpoints.
Proof. apply (C8_round_robin (init_state default_settings ∅) 7). reflexivity. Defined.

(* ================================================================== *)
(** * Output naming *)
(* ================================================================== *)

(** C9, as stated, fails: the name computed for an input can be the name of
    a file that already exists; no other name is looked for. *)
Lemma C9_collision_not_avoided :
  let st := init_state default_settings crowded_disk in
  get_output_path st "/subs/movie_cleaned.srt" "Russian" = "/subs/movie.ru.srt"
  /\ path_exists st (get_output_path st "/subs/movie_cleaned.srt" "Russian")
     = true.
Proof. vm_compute. split; reflexivity. Qed.

Lemma get_output_path_naming st st' input_path lang :
  naming_var (config st) = naming_var (config st') ->
  get_output_path st input_path lang = get_output_path st' input_path lang.
Proof.
  intros Hnaming. unfold get_output_path. rewrite Hnaming. reflexivity.
Qed.

(** C9, amended: the output name is a function of the input path, the
    target language and the naming pattern alone; the disk is not read, so
    the name is the same whether or not such a file exists. *)
Theorem C9_output_name_ignores_disk (st st' : state) (input_path lang : string) :
  naming_var (config st) = naming_var (config st') ->
  get_output_path st input_path lang = get_output_path st' input_path lang
  /\ (path_exists st (get_output_path st input_path lang) = true ->
      get_output_path st input_path lang = get_output_path st' input_path lang).
Proof.
  intros Hnaming. split; [|intros _]; by apply get_output_path_naming.
Qed.

Lemma C9_output_name_ignores_disk_witness :
  get_output_path (init_state default_settings crowded_disk)
    "/subs/movie_cleaned.srt" "Russian"
  = get_output_path (init_state default_settings ∅)
      "/subs/movie_cleaned.srt" "Russian"
  /\ (path_exists (init_state default_settings crowded_disk)
        (get_output_path (init_state default_settings crowded_disk)
           "/subs/movie_cleaned.srt" "Russian") = true ->
      get_output_path (init_state default_settings crowded_disk)
        "/subs/movie_cleaned.srt" "Russian"
      = get_output_path (init_state default_settings ∅)
          "/subs/movie_cleaned.srt" "Russian").
Proof.
  apply (C9_output_name_ignores_disk
           (init_state default_settings crowded_disk)
           (init_state default_settings ∅)).
  reflexivity.
Defined.

(* ================================================================== *)
(** * Cache keys *)
(* ================================================================== *)

Lemma pipe_split_inj a r a' r' :
  pipe_free a -> pipe_free a' ->
  a ++ String pipe r = a' ++ String pipe r' ->
  a = a' /\ r = r'.
Proof.
  unfold pipe_free. revert a'.
  induction a as [|c a IH]; intros [|c' a'] Ha Ha' Heq; simpl in *.
  - injection Heq as ->. done.
  - injection Heq as <- _. rewrite Ascii.eqb_refl in Ha'. done.
  - injection Heq as -> _. rewrite Ascii.eqb_refl in Ha. done.
  - injection Heq as -> Heq.
    apply orb_false_iff in Ha as [_ Ha]. apply orb_false_iff in Ha' as [_ Ha'].
    destruct (IH a' Ha Ha' Heq) as [-> ->]. done.
Qed.

Lemma cache_key_inj sc tc s sc' tc' s' :
  pipe_free sc -> pipe_free tc -> pipe_free sc' -> pipe_free tc' ->
  cache_key sc tc s = cache_key sc' tc' s' ->
  sc = sc' /\ tc = tc' /\ s = s'.
Proof.
  intros Hsc Htc Hsc' Htc' Heq. unfold cache_key in Heq. simpl in Heq.
  destruct (pipe_split_inj _ _ _ _ Hsc Hsc' Heq) as [-> Heq'].
  destruct (pipe_split_inj _ _ _ _ Htc Htc' Heq') as [-> ->]. done.
Qed.

Lemma PyDict_get_In {K V} `{EqDecision K} (k : K) (v : V) d :
  PyDict.get k d = Some v -> In (k, v) d.
Proof.
  induction d as [|[k' v'] d IH]; simpl; [done|].
  destruct (decide (k = k')) as [->|_].
  - intros [= ->]. by left.
  - intros H. right. by apply IH.
Qed.

Lemma languages_get_pipe_free name code :
  languages_get name = Some code -> pipe_free code.
Proof.
  intros H. apply PyDict_get_In in H.
  assert (Hall : forallb (fun p => negb (PyStr.contains pipe (snd p)))
                   get_supported_languages = true) by (vm_compute; reflexivity).
  rewrite forallb_forall in Hall. specialize (Hall _ H). simpl in Hall.
  unfold pipe_free. by destruct (PyStr.contains pipe code).
Qed.

Lemma language_codes_pipe_free target source sc tc :
  language_codes target source = Some (sc, tc) ->
  pipe_free sc /\ pipe_free tc.
Proof.
  unfold language_codes.
  destruct (languages_get target) as [t|] eqn:Ht; [|done].
  destruct (String.eqb source "Auto").
  - intros [= <- <-]. split; [reflexivity|]. by eapply languages_get_pipe_free.
  - destruct (languages_get source) as [s0|] eqn:Hs; [|done].
    intros [= <- <-]. split; by eapply languages_get_pipe_free.
Qed.

Lemma truthy_false s : PyStr.truthy s = false -> s = "".
Proof. by destruct s. Qed.

Lemma truthy_true s : PyStr.truthy s = true -> s <> "".
Proof. by destruct s. Qed.

(** No well-formed cache has a key for an empty trimmed text. *)
Lemma cache_wf_no_empty c sc tc :
  cache_wf c -> pipe_free sc -> pipe_free tc ->
  c !! cache_key sc tc "" = None.
Proof.
  intros Hwf Hsc Htc.
  destruct (c !! cache_key sc tc "") as [v|] eqn:Hv; [|done].
  destruct (Hwf _ _ Hv) as (sc' & tc' & s' & Hk & Hsc' & Htc' & Hne).
  destruct (cache_key_inj _ _ _ _ _ _ Hsc Htc Hsc' Htc' Hk) as (_ & _ & <-).
  done.
Qed.

Lemma cache_wf_empty : cache_wf ∅.
Proof. intros k v H. by rewrite lookup_empty in H. Qed.

(* ================================================================== *)
(** * What one line's translation touches *)
(* ================================================================== *)

Lemma line_frame_refl st : line_frame st st.
Proof. by repeat split. Qed.

Lemma line_frame_trans st1 st2 st3 :
  line_frame st1 st2 -> line_frame st2 st3 -> line_frame st1 st3.
Proof.
  unfold line_frame. intros (?&?&?&?&?&?) (?&?&?&?&?&?).
  repeat split; congruence.
Qed.

(** The request loop changes the counters, the rotation index and the clock,
    nothing else; in particular not the cache. *)
Lemma request_loop_frame e remaining sc tc stripped st :
  let st' := snd (request_loop e remaining sc tc stripped st) in
  line_frame st st'
  /\ translation_cache st' = translation_cache st
  /\ cache_hits st' = cache_hits st.
Proof.
  revert st. induction remaining as [|n IH]; intros st; simpl.
  - split; [apply line_frame_refl | done].
  - destruct (translation_in_progress e (clock st)); simpl;
      [|split; [by repeat split | done]].
    unfold get_next_endpoint; simpl.
    destruct (api_endpoints !! current_endpoint_index st) as [ep|]; simpl;
      [|split; [by repeat split | done]].
    match goal with
    | |- context [request_loop e n sc tc stripped ?s] =>
        specialize (IH s); simpl in IH; destruct IH as (IHf & IHc & IHh)
    end.
    destruct (net e _ _) as [code body| |]; simpl.
    + destruct (code =? 200).
      * destruct (body ≫= extract_translation) as [t|]; simpl;
          [|split; [by repeat split | done]].
        destruct (accepted t stripped); simpl;
          [split; [by repeat split | done]|].
        split; [|split; congruence].
        eapply line_frame_trans; [|exact IHf]. by repeat split.
      * destruct (transient_status code); simpl;
          [|split; [by repeat split | done]].
        split; [|split; congruence].
        eapply line_frame_trans; [|exact IHf]. by repeat split.
    + split; [|split; congruence].
      eapply line_frame_trans; [|exact IHf]. by repeat split.
    + split; [by repeat split | done].
Qed.

Lemma translate_text_direct_frame e st text target source max_retries :
  line_frame st (snd (translate_text_direct e st text target source max_retries)).
Proof.
  unfold translate_text_direct.
  destruct (negb (PyStr.truthy (PyStr.strip text))); [apply line_frame_refl|].
  destruct (language_codes target source) as [[sc tc]|]; [|apply line_frame_refl].
  destruct (translation_cache st !! _); [by repeat split|].
  pose proof (request_loop_frame e (S max_retries) sc tc (PyStr.strip text) st)
    as (Hf & _ & _).
  destruct (request_loop e (S max_retries) sc tc (PyStr.strip text) st)
    as [[result|] st1]; simpl in *;
    (eapply line_frame_trans; [exact Hf|by repeat split]).
Qed.

(** The method keeps the cache well formed. *)
Lemma translate_text_direct_cache_wf e st text target source max_retries :
  cache_wf (translation_cache st) ->
  cache_wf (translation_cache
              (snd (translate_text_direct e st text target source max_retries))).
Proof.
  intros Hwf. unfold translate_text_direct.
  destruct (PyStr.truthy (PyStr.strip text)) eqn:Htruthy; cbn [negb]; [|done].
  destruct (language_codes target source) as [[sc tc]|] eqn:Hcodes; [|done].
  destruct (translation_cache st !! _); [done|].
  pose proof (request_loop_frame e (S max_retries) sc tc (PyStr.strip text) st)
    as (_ & Hc & _).
  destruct (request_loop e (S max_retries) sc tc (PyStr.strip text) st)
    as [[result|] st1]; simpl in *; [|by rewrite Hc].
  rewrite Hc. intros k v Hkv.
  destruct (decide (k = cache_key sc tc (PyStr.strip text))) as [->|Hne].
  - destruct (language_codes_pipe_free _ _ _ _ Hcodes) as [Hsc Htc].
    exists sc, tc, (PyStr.strip text). repeat split; try done.
    by apply truthy_true.
  - rewrite lookup_insert_ne in Hkv by done. by eapply Hwf.
Qed.

(* ================================================================== *)
(** * Cache hits *)
(* ================================================================== *)

(** C1: when the key built from the two codes and the trimmed text is in the
    cache, [translate_text_direct] returns the cached value and counts a
    cache hit; the request counter and the rotation index are as before and
    the environment is not consulted (the clock has not moved): no request
    is issued and no endpoint is taken. *)
Theorem C1_cache_hit (e : env) (st : state)
    (text target source : string) (max_retries : nat)
    (source_code target_code cached : string) :
  cache_wf (translation_cache st) ->
  language_codes target source = Some (source_code, target_code) ->
  translation_cache st !! cache_key source_code target_code (PyStr.strip text)
    = Some cached ->
  let (result, st') := translate_text_direct e st text target source max_retries in
  result = cached
  /\ cache_hits st' = cache_hits st + 1
  /\ request_count st' = request_count st
  /\ current_endpoint_index st' = current_endpoint_index st
  /\ clock st' = clock st
  /\ translation_cache st' = translation_cache st.
Proof.
  intros Hwf Hcodes Hhit. unfold translate_text_direct.
  destruct (language_codes_pipe_free _ _ _ _ Hcodes) as [Hsc Htc].
  destruct (PyStr.truthy (PyStr.strip text)) eqn:Htruthy; cbn [negb].
  - rewrite Hcodes, Hhit. by repeat split.
  - apply truthy_false in Htruthy. rewrite Htruthy in Hhit.
    rewrite (cache_wf_no_empty _ _ _ Hwf Hsc Htc) in Hhit. done.
Qed.

Lemma warm_state_cache_wf : cache_wf (translation_cache warm_state).
Proof.
  intros k v Hkv. simpl in Hkv. apply lookup_singleton_Some in Hkv as [<- _].
  exists "auto", "ru", "Hello there". by repeat split.
Qed.

Lemma C1_cache_hit_witness :
  let (result, st') :=
    translate_text_direct echo_env warm_state "  Hello there " "Russian" "Auto" 3 in
  result = "Privet"
  /\ cache_hits st' = cache_hits warm_state + 1
  /\ request_count st' = request_count warm_state
  /\ current_endpoint_index st' = current_endpoint_index warm_state
  /\ clock st' = clock warm_state
  /\ translation_cache st' = translation_cache warm_state.
Proof.
  apply (C1_cache_hit echo_env warm_state "  Hello there " "Russian" "Auto" 3
           "auto" "ru" "Privet").
  - exact warm_state_cache_wf.
  - reflexivity.
  - vm_compute. reflexivity.
Defined.

(* ================================================================== *)
(** * Lines the service only echoes *)
(* ================================================================== *)

Lemma accepted_echo t stripped :
  PyStr.strip t = stripped -> accepted t stripped = false.
Proof.
  intros <-. unfold accepted. rewrite String.eqb_refl.
  by rewrite andb_false_r.
Qed.

(** Against an echoing service the request loop never ends in success. *)
Lemma request_loop_echo e remaining sc tc stripped st :
  echoes e stripped ->
  fst (request_loop e remaining sc tc stripped st) = None.
Proof.
  intros Hecho. revert st.
  induction remaining as [|n IH]; intros st; [done|].
  cbn [request_loop read_flag].
  destruct (translation_in_progress e (clock st)); cbn [negb]; [|done].
  destruct (get_next_endpoint _) as [[ep st1]|]; [|done].
  cbn [ask_net].
  destruct (Hecho (clock st1)
              {| endpoint := ep; sl := sc; tl := tc; q := stripped |} eq_refl)
    as (data & t & -> & Hdata & Ht).
  cbn [Nat.eqb option_bind mbind]. simpl. rewrite Hdata.
  rewrite (accepted_echo _ _ Ht). apply IH.
Qed.

Lemma translate_text_direct_echo e st text target source max_retries :
  echoes e (PyStr.strip text) ->
  uncached st (PyStr.strip text) ->
  let st' := snd (translate_text_direct e st text target source max_retries) in
  fst (translate_text_direct e st text target source max_retries) = text
  /\ translation_cache st' = translation_cache st.
Proof.
  intros Hecho Hmiss. unfold translate_text_direct.
  destruct (negb (PyStr.truthy (PyStr.strip text))); [done|].
  destruct (language_codes target source) as [[sc tc]|] eqn:Hcodes; [|done].
  rewrite (Hmiss _ _ _ _ Hcodes).
  pose proof (request_loop_echo e (S max_retries) sc tc _ st Hecho) as Hnone.
  pose proof (request_loop_frame e (S max_retries) sc tc (PyStr.strip text) st)
    as (_ & Hc & _).
  destruct (request_loop e (S max_retries) sc tc (PyStr.strip text) st)
    as [[result|] st1]; simpl in *; [done|by split].
Qed.

(** While the service echoes [stripped], no call of the method, for
    whatever text, puts a translation of [stripped] in the cache. *)
Lemma translate_text_direct_uncached e st stripped text target source
    max_retries :
  echoes e stripped ->
  uncached st stripped ->
  uncached (snd (translate_text_direct e st text target source max_retries))
    stripped.
Proof.
  intros Hecho Hmiss. unfold translate_text_direct.
  destruct (PyStr.truthy (PyStr.strip text)) eqn:Htruthy; cbn [negb]; [|done].
  destruct (language_codes target source) as [[sc tc]|] eqn:Hcodes; [|done].
  destruct (translation_cache st !! _); [done|].
  pose proof (request_loop_frame e (S max_retries) sc tc (PyStr.strip text) st)
    as (_ & Hc & _).
  pose proof (request_loop_echo e (S max_retries) sc tc (PyStr.strip text) st)
    as Hnone.
  destruct (request_loop e (S max_retries) sc tc (PyStr.strip text) st)
    as [[result|] st1]; cbn [fst snd] in *.
  - intros t s sc' tc' Hcodes'. simpl. rewrite Hc.
    destruct (language_codes_pipe_free _ _ _ _ Hcodes) as [Hsc Htc].
    destruct (language_codes_pipe_free _ _ _ _ Hcodes') as [Hsc' Htc'].
    destruct (decide (cache_key sc tc (PyStr.strip text)
                      = cache_key sc' tc' stripped)) as [Heq|Hne].
    + destruct (cache_key_inj _ _ _ _ _ _ Hsc Htc Hsc' Htc' Heq) as (_ & _ & Hs).
      rewrite Hs in Hnone. by specialize (Hnone Hecho).
    + rewrite lookup_insert_ne by done. by eapply Hmiss.
  - intros t s sc' tc' Hcodes'. simpl. rewrite Hc. by eapply Hmiss.
Qed.

Lemma translate_subtitle_echo e st sub source target :
  echoes e (PyStr.strip (text sub)) ->
  uncached st (PyStr.strip (text sub)) ->
  fst (translate_subtitle e st sub source target) = failed_result sub
  /\ translation_cache (snd (translate_subtitle e st sub source target))
     = translation_cache st.
Proof.
  intros Hecho Hmiss. unfold translate_subtitle. cbn [read_flag].
  destruct (translation_in_progress e (clock st)); cbn [negb]; [|done].
  set (st1 := record_attempt _ (tick st)).
  assert (Hmiss1 : uncached st1 (PyStr.strip (text sub))) by exact Hmiss.
  pose proof (translate_text_direct_echo e st1 (text sub) target source 3
                Hecho Hmiss1) as [Hres Hcache].
  destruct (translate_text_direct e st1 (text sub) target source 3)
    as [translated st2]; simpl in Hres, Hcache. subst translated.
  rewrite String.eqb_refl, andb_false_r. done.
Qed.

(** A task never reports success with a text that, trimmed, is the
    original: a success carries a text that differs. *)
Lemma translate_subtitle_success_changed e st sub source target :
  r_success (fst (translate_subtitle e st sub source target)) = true ->
  exists translated,
    r_text (fst (translate_subtitle e st sub source target))
    = colorize (config (snd (translate_subtitle e st sub source target)))
        translated
    /\ PyStr.strip translated <> PyStr.strip (text sub).
Proof.
  unfold translate_subtitle. cbn [read_flag].
  destruct (translation_in_progress e (clock st)); cbn [negb]; [|done].
  destruct (translate_text_direct e _ (text sub) target source 3)
    as [translated st2].
  destruct (PyStr.truthy translated); cbn [andb]; [|done].
  destruct (String.eqb_spec (PyStr.strip translated) (PyStr.strip (text sub)));
    cbn [negb]; [done|].
  intros _. by exists translated.
Qed.

Lemma PyDict_get_set_eq {K V} `{EqDecision K} (k : K) (v : V) d :
  PyDict.get k (PyDict.set k v d) = Some v.
Proof.
  induction d as [|[k' v'] d IH]; simpl.
  - by rewrite decide_True.
  - destruct (decide (k = k')) as [->|Hne]; simpl.
    + by rewrite decide_True.
    + by rewrite decide_False.
Qed.

Lemma PyDict_get_set_ne {K V} `{EqDecision K} (k k' : K) (v : V) d :
  k <> k' -> PyDict.get k (PyDict.set k' v d) = PyDict.get k d.
Proof.
  intros Hne. induction d as [|[k0 v0] d IH]; simpl.
  - by rewrite decide_False.
  - destruct (decide (k' = k0)) as [->|Hne0]; simpl.
    + by rewrite !decide_False.
    + destruct (decide (k = k0)); done.
Qed.

(** C6: for a line that the service only ever echoes (and of which, then,
    no translation is cached), [translate_subtitle] returns the original
    text with success = false, and the collection loop, on receiving that
    result, files a failure record for the line, counts it as untranslated
    and keeps the original text for it. *)
Theorem C6_echo_marked_failed (e : env) (st : state) (sub : SubRipItem)
    (source target output_path : string) (subs : list SubRipItem)
    (acc : pool_acc) :
  echoes e (PyStr.strip (text sub)) ->
  uncached st (PyStr.strip (text sub)) ->
  let (r, st1) := translate_subtitle e st sub source target in
  r = failed_result sub
  /\ let (acc', st2) :=
       collect_future output_path subs (index sub) (FutReturned r) acc st1 in
     (exists info,
        PyDict.get (output_path, index sub) (untranslated_line_details st2)
        = Some info
        /\ original_text info = text sub
        /\ 1 <= failure_count info)
     /\ untranslated acc' = untranslated acc + 1
     /\ results acc' !! index sub = Some (text sub).
Proof.
  intros Hecho Hmiss.
  pose proof (translate_subtitle_echo e st sub source target Hecho Hmiss)
    as [Hres _].
  destruct (translate_subtitle e st sub source target) as [r st1].
  simpl in Hres. subst r. split; [done|].
  simpl. split; [|split; [done|by rewrite lookup_insert_eq]].
  eexists. split; [apply PyDict_get_set_eq|]. simpl. split; [done|lia].
Qed.

Lemma echo_env_echoes stripped :
  PyStr.strip stripped = stripped -> echoes echo_env stripped.
Proof.
  intros Hs n r Hq. exists (JList [JList [JList [JStr (q r)]]]), (q r).
  split; [reflexivity|]. split; [reflexivity|]. by rewrite Hq.
Qed.

Lemma C6_echo_marked_failed_witness :
  let (r, st1) :=
    translate_subtitle echo_env (init_state default_settings ∅) sample_caption
      "Auto" "Russian" in
  r = failed_result sample_caption
  /\ let (acc', st2) :=
       collect_future "/subs/movie.ru.srt" [sample_caption]
         (index sample_caption) (FutReturned r) empty_acc st1 in
     (exists info,
        PyDict.get ("/subs/movie.ru.srt", index sample_caption)
          (untranslated_line_details st2) = Some info
        /\ original_text info = text sample_caption
        /\ 1 <= failure_count info)
     /\ untranslated acc' = untranslated empty_acc + 1
     /\ results acc' !! index sample_caption = Some (text sample_caption).
Proof.
  apply (C6_echo_marked_failed echo_env (init_state default_settings ∅)
           sample_caption "Auto" "Russian" "/subs/movie.ru.srt"
           [sample_caption] empty_acc).
  - apply echo_env_echoes. reflexivity.
  - intros t s sc tc _. apply lookup_empty.
Defined.

(* ================================================================== *)
(** * Blank lines *)
(* ================================================================== *)

(** [translate_text_direct] hands an empty or whitespace-only text back
    as it is, without touching the state. *)
Lemma translate_text_direct_blank e st text target source max_retries :
  PyStr.strip text = "" ->
  translate_text_direct e st text target source max_retries = (text, st).
Proof. intros H. unfold translate_text_direct. by rewrite H. Qed.

(** Its caller tells success from failure by comparing the trimmed texts,
    so the blank line comes back as a failure. *)
Lemma translate_subtitle_blank e st sub source target :
  PyStr.strip (text sub) = "" ->
  fst (translate_subtitle e st sub source target) = failed_result sub.
Proof.
  intros H. unfold translate_subtitle. cbn [read_flag].
  destruct (translation_in_progress e (clock st)); cbn [negb]; [|done].
  rewrite translate_text_direct_blank by done.
  by rewrite String.eqb_refl, andb_false_r.
Qed.

(** C5, on the code: a caption with empty text, in a file whose other line
    translates at once.  The task returns the text unchanged but with
    success = false; the run files a failure record for it, retries it in
    two passes and ends with it as the one unresolved line. *)
Theorem C5_blank_line_reported_failed :
  let st0 := init_state default_settings disk_with_blank in
  fst (translate_subtitle translating_env st0 blank_caption "Auto" "Russian")
  = {| r_index := 2; r_text := ""; r_success := false; r_original := "" |}
  /\ let (ending, st') :=
       translate_files_thread translating_env st0 ["/subs/movie_cleaned.srt"] in
     ending = Finalized {| files_ok := 1; files_total := 1; subs_ok := 2;
                           subs_total := 2; final_untranslated := 1;
                           cancelled := false |}
     /\ untranslated_line_details st'
        = [(("/subs/movie.ru.srt", 2%Z),
            {| original_text := ""; failure_count := 3 |})]
     /\ count_retries ("/subs/movie.ru.srt", 2%Z) (attempts st') = 2
     /\ request_count st' = 1.
Proof. vm_compute. repeat split; reflexivity. Qed.

(* ================================================================== *)
(** * The collection loop and cancellation *)
(* ================================================================== *)

Lemma pool_frame_refl st : pool_frame st st.
Proof. by repeat split. Qed.

Lemma pool_frame_trans st1 st2 st3 :
  pool_frame st1 st2 -> pool_frame st2 st3 -> pool_frame st1 st3.
Proof.
  unfold pool_frame. intros (?&?&?&?) (?&?&?&?). repeat split; congruence.
Qed.

Lemma line_frame_pool_frame st st' : line_frame st st' -> pool_frame st st'.
Proof. unfold line_frame, pool_frame. tauto. Qed.

Lemma translate_subtitle_index e st sub source target :
  r_index (fst (translate_subtitle e st sub source target)) = index sub.
Proof.
  unfold translate_subtitle. cbn [read_flag].
  destruct (negb _); [done|].
  destruct (translate_text_direct _ _ _ _ _ _) as [translated st2].
  by destruct (_ && _).
Qed.

Lemma translate_subtitle_frame e st sub source target :
  let st' := snd (translate_subtitle e st sub source target) in
  pool_frame st st'
  /\ untranslated_line_details st' = untranslated_line_details st
  /\ (attempts st' = attempts st
      \/ attempts st' = InitialAttempt (index sub) :: attempts st).
Proof.
  unfold translate_subtitle. cbn [read_flag].
  destruct (negb _); [simpl; by repeat split; auto|].
  set (st1 := record_attempt _ (tick st)).
  pose proof (translate_text_direct_frame e st1 (text sub) target source 3)
    as Hf.
  destruct (translate_text_direct e st1 (text sub) target source 3)
    as [translated st2].
  assert (Hgoal : pool_frame st st2
                  /\ untranslated_line_details st2 = untranslated_line_details st
                  /\ attempts st2 = InitialAttempt (index sub) :: attempts st).
  { destruct Hf as (?&?&?&?&?&?). simpl in *.
    unfold pool_frame. repeat split; congruence. }
  destruct Hgoal as (? & ? & ?).
  destruct (_ && _); simpl; auto.
Qed.

Lemma collect_future_frame output_path subs i o acc st :
  let st' := snd (collect_future output_path subs i o acc st) in
  pool_frame st st' /\ attempts st' = attempts st /\ clock st' = clock st.
Proof.
  destruct o as [r| |]; simpl; [|by repeat split..].
  destruct (negb (r_success r)); simpl; by repeat split.
Qed.

(** A turn of the loop never writes to disk, whether it goes on or raises. *)
Lemma as_completed_step_frame e output_path source target subs pending acc st :
  match as_completed_step e output_path source target subs pending acc st with
  | Continue _ _ st' => pool_frame st st'
  | Raise _ st' => pool_frame st st'
  end.
Proof.
  unfold as_completed_step.
  destruct (pending !! _) as [[pos sub]|]; [|by repeat split].
  pose proof (translate_subtitle_frame e (tick st) sub source target)
    as (Hf & _ & _).
  destruct (translate_subtitle e (tick st) sub source target) as [r st1].
  simpl in Hf. cbn [read_flag].
  destruct (negb _).
  - eapply pool_frame_trans; [|eapply pool_frame_trans; [exact Hf|]];
      by repeat split.
  - pose proof (collect_future_frame output_path subs (index sub)
                  (FutReturned r) acc (tick st1)) as (Hc & _ & _).
    destruct (collect_future _ _ _ _ _ _) as [acc1 st2]. simpl in Hc.
    eapply pool_frame_trans; [|exact Hc].
    eapply pool_frame_trans; [|eapply pool_frame_trans; [exact Hf|]];
      by repeat split.
Qed.

Lemma as_completed_loop_frame e output_path source target subs turns pending acc st :
  pool_frame st
    (snd (as_completed_loop e output_path source target subs turns pending acc st)).
Proof.
  revert pending acc st. induction turns as [|n IH]; intros pending acc st.
  - apply pool_frame_refl.
  - cbn [as_completed_loop].
    pose proof (as_completed_step_frame e output_path source target subs
                  pending acc st) as Hstep.
    destruct (as_completed_step _ _ _ _ _ _ _ _) as [p1 a1 s1|o s1].
    + eapply pool_frame_trans; [exact Hstep|apply IH].
    + exact Hstep.
Qed.

(** A turn that goes on takes one future off the pending ones. *)
Lemma as_completed_step_pending e output_path source target subs pending acc st
    pending1 acc1 st1 :
  as_completed_step e output_path source target subs pending acc st
  = Continue pending1 acc1 st1 ->
  List.length pending = S (List.length pending1).
Proof.
  unfold as_completed_step.
  destruct (pending !! _) as [[pos sub]|] eqn:Hlook; [|done].
  destruct (translate_subtitle _ _ _ _ _) as [r st2]. cbn [read_flag].
  destruct (negb _); [done|].
  destruct (collect_future _ _ _ _ _ _) as [acc2 st3].
  intros [= <- _ _]. rewrite length_delete by eauto.
  apply lookup_lt_Some in Hlook. lia.
Qed.

(** The loop, started with as many turns as there are pending futures, gives
    from any state it reaches what it gives from the start. *)
Lemma as_completed_loop_reaches e output_path source target subs
    pending acc st pending' acc' st' :
  loop_reaches e output_path source target subs pending acc st pending' acc' st' ->
  as_completed_loop e output_path source target subs (List.length pending)
    pending acc st
  = as_completed_loop e output_path source target subs (List.length pending')
      pending' acc' st'.
Proof.
  induction 1 as [|pending acc st p1 a1 s1 p2 a2 s2 Hstep _ IH]; [done|].
  rewrite (as_completed_step_pending _ _ _ _ _ _ _ _ _ _ _ Hstep).
  cbn [as_completed_loop]. rewrite Hstep. exact IH.
Qed.

(** C7: take any state the collection loop of a file reaches.  If the flag
    reads false at the loop's check for the future that completes next,
    [process_file_parallel] raises InterruptedError (not another
    exception, and it does not return), and the disk is as it was when the
    function was entered: the output file has not been written. *)
Theorem C7_cancel_leaves_disk (e : env) (st : state)
    (file_path output_path source target : string) (subs : list SubRipItem)
    (pending : list (nat * SubRipItem)) (acc : pool_acc)
    (st_k st_check : state) :
  disk st !! file_path = Some subs ->
  loop_reaches e output_path source target subs
    (imap pair subs) empty_acc st pending acc st_k ->
  state_at_check e source target pending st_k = Some st_check ->
  translation_in_progress e (clock st_check) = false ->
  exists st',
    process_file_parallel e st file_path output_path source target
    = (Interrupted "Translation cancelled.", st')
    /\ disk st' = disk st.
Proof.
  intros Hfile Hreach Hcheck Hflag.
  assert (Hturn : as_completed_step e output_path source target subs pending
                    acc st_k
                  = Raise (Interrupted "Translation cancelled.") (tick st_check)).
  { unfold state_at_check in Hcheck. unfold as_completed_step. cbn [clock tick set_clock].
    destruct (pending !! _) as [[pos sub]|]; [|done].
    injection Hcheck as <-.
    destruct (translate_subtitle e (tick st_k) sub source target) as [r s1].
    cbn [snd read_flag] in *. by rewrite Hflag. }
  assert (Hpending : exists n, List.length pending = S n).
  { destruct pending; [|by eexists].
    unfold state_at_check in Hcheck. by rewrite lookup_nil in Hcheck. }
  destruct Hpending as [n Hn].
  assert (Hsubs : List.length subs <> 0).
  { intros Hnil. apply nil_length_inv in Hnil. subst subs.
    inversion Hreach as [|? ? ? ? ? ? ? ? ? Hstep _]; subst; [done|].
    unfold as_completed_step in Hstep. by simpl in Hstep. }
  pose proof (as_completed_loop_reaches _ _ _ _ _ _ _ _ _ _ _ Hreach) as Hloop.
  rewrite length_imap, Hn in Hloop. cbn [as_completed_loop] in Hloop.
  rewrite Hturn in Hloop.
  pose proof (as_completed_loop_frame e output_path source target subs
                (List.length subs) (imap pair subs) empty_acc st) as Hframe.
  unfold process_file_parallel. rewrite Hfile.
  apply Nat.eqb_neq in Hsubs. rewrite Hsubs.
  rewrite Hloop in *. eexists. split; [done|].
  by destruct Hframe as (_ & _ & _ & ?).
Qed.

Lemma C7_cancel_leaves_disk_witness :
  exists st',
    process_file_parallel cancelling_env (init_state default_settings three_lines)
      "/subs/movie_cleaned.srt" "/subs/movie.ru.srt" "Auto" "Russian"
    = (Interrupted "Translation cancelled.", st')
    /\ disk st' = disk (init_state default_settings three_lines).
Proof.
  eapply (C7_cancel_leaves_disk cancelling_env
            (init_state default_settings three_lines)
            "/subs/movie_cleaned.srt" "/subs/movie.ru.srt" "Auto" "Russian"
            [sample_caption; second_caption; third_caption]).
  - vm_compute. reflexivity.
  - eapply reaches_turn; [vm_compute; reflexivity|apply reaches_here].
  - vm_compute. reflexivity.
  - vm_compute. reflexivity.
Defined.

(* ================================================================== *)
(** * Reassembly by line index *)
(* ================================================================== *)

Section Reassembly.

Variable subs : list SubRipItem.

Lemma fst_imap_pair {A} (l : list A) : fst <$> imap pair l = seq 0 (List.length l).
Proof.
  rewrite fmap_imap.
  rewrite (imap_ext _ (fun j _ => id j)) by done.
  rewrite imap_seq_0. apply list_fmap_id.
Qed.

Lemma pool_inv_start : pool_inv subs (imap pair subs) empty_acc.
Proof.
  repeat split.
  - simpl. rewrite app_nil_r, fst_imap_pair. apply NoDup_seq.
  - intros pos sub Hin.
    apply elem_of_lookup_imap in Hin as (i & y & [= -> ->] & Hy). done.
  - intros j sub Hj. left. by apply elem_of_lookup_imap_2.
  - intros j res Hin. simpl in Hin. by apply elem_of_nil in Hin.
Qed.

Lemma collect_returned_acc output_path i r acc st :
  let acc' := fst (collect_future output_path subs i (FutReturned r) acc st) in
  results acc' = <[r_index r := r_text r]> (results acc)
  /\ completed acc' = completed acc.
Proof. simpl. by destruct (negb (r_success r)). Qed.

Lemma pool_inv_step e output_path source target pending acc st p1 a1 s1 :
  pool_inv subs pending acc ->
  as_completed_step e output_path source target subs pending acc st
  = Continue p1 a1 s1 ->
  pool_inv subs p1 a1.
Proof.
  intros (Hnd & Hpend & Hall & Hdone). unfold as_completed_step.
  destruct (pending !! _) as [[pos sub]|] eqn:Hlook; [|done].
  pose proof (translate_subtitle_index e (tick st) sub source target) as Hidx.
  destruct (translate_subtitle _ _ _ _ _) as [r st2]. cbn [read_flag].
  simpl in Hidx.
  destruct (negb _); [done|].
  pose proof (collect_returned_acc output_path (index sub) r acc (tick st2))
    as [Hres Hcomp].
  destruct (collect_future _ _ _ _ _ _) as [acc2 st3]. simpl in Hres, Hcomp.
  intros [= <- <- _].
  pose proof (delete_Permutation _ _ _ Hlook) as Hperm.
  assert (Hpos : subs !! pos = Some sub).
  { apply Hpend. apply list_elem_of_lookup. eauto. }
  assert (Hnd' : NoDup ((fst <$> delete (completes_next e (clock st)
                                    mod List.length pending) pending)
                        ++ pos :: (fst <$> completed acc))%list).
  { assert (Hp : ((fst <$> delete (completes_next e (clock st)
                                    mod List.length pending) pending)
                  ++ pos :: (fst <$> completed acc))%list
                 ≡ₚ ((fst <$> pending) ++ (fst <$> completed acc))%list).
    { etrans; [|apply Permutation_app_tail, fmap_Permutation;
                 symmetry; exact Hperm].
      simpl. symmetry. apply Permutation_middle. }
    by rewrite Hp. }
  repeat split.
  - simpl. by rewrite Hcomp.
  - intros pos' sub' Hin. apply Hpend. by eapply list_elem_of_delete_inv.
  - intros j sub' Hj. simpl. rewrite Hcomp.
    destruct (Hall j sub' Hj) as [Hin|[res Hin]].
    + rewrite Hperm in Hin. apply elem_of_cons in Hin as [[= -> ->]|Hin].
      * right. exists r. by left.
      * by left.
    + right. exists res. by right.
  - intros j res Hin. simpl in Hin. rewrite Hcomp in Hin. simpl.
    apply elem_of_cons in Hin as [[= -> ->]|Hin].
    + exists sub. repeat split; try done.
      intros _. by rewrite Hres, Hidx, lookup_insert_eq.
    + destruct (Hdone j res Hin) as (sub' & Hj & Hri & Hresults).
      exists sub'. repeat split; try done.
      intros Hdistinct. rewrite Hres, Hidx.
      rewrite lookup_insert_ne; [by apply Hresults|].
      intros Heq.
      assert (Hjp : j = pos).
      { eapply (NoDup_lookup (index <$> subs)); [done| |].
        - by rewrite list_lookup_fmap, Hj.
        - rewrite list_lookup_fmap, Hpos. simpl. by rewrite Heq. }
      subst j. apply NoDup_app in Hnd' as (_ & _ & Hnd').
      apply NoDup_cons in Hnd' as [Hnotin _]. apply Hnotin.
      apply list_elem_of_fmap. by exists (pos, res).
Qed.

Lemma as_completed_step_raise e output_path source target pending acc st o s1 :
  as_completed_step e output_path source target subs pending acc st
  = Raise o s1 ->
  forall a, o <> Returned a.
Proof.
  unfold as_completed_step.
  destruct (pending !! _) as [[pos sub]|]; [|by intros [= <- _]].
  destruct (translate_subtitle _ _ _ _ _) as [r st2]. cbn [read_flag].
  destruct (negb _); [by intros [= <- _]|].
  by destruct (collect_future _ _ _ _ _ _).
Qed.

Lemma pool_inv_end e output_path source target turns pending acc st acc' st' :
  turns = List.length pending ->
  pool_inv subs pending acc ->
  as_completed_loop e output_path source target subs turns pending acc st
  = (Returned acc', st') ->
  pool_inv subs [] acc'.
Proof.
  revert pending acc st. induction turns as [|n IH]; intros pending acc st.
  - intros Hlen Hinv [= <- _].
    symmetry in Hlen. apply nil_length_inv in Hlen. by subst.
  - intros Hlen Hinv. cbn [as_completed_loop].
    destruct (as_completed_step _ _ _ _ _ _ _ _) as [p1 a1 s1|o s1] eqn:Hstep.
    + apply IH.
      * pose proof (as_completed_step_pending _ _ _ _ _ _ _ _ _ _ _ Hstep). lia.
      * by eapply pool_inv_step.
    + intros [= -> _].
      by destruct (as_completed_step_raise _ _ _ _ _ _ _ _ _ Hstep acc').
Qed.

Lemma reassemble_index results0 :
  index <$> reassemble results0 subs = index <$> subs.
Proof.
  unfold reassemble. rewrite <- list_fmap_compose.
  apply list_fmap_ext. intros _ sub _. simpl.
  by destruct (results0 !! index sub).
Qed.

End Reassembly.

Lemma save_subtitles_ok e st subs output_path :
  writes_succeed e ->
  disk (snd (save_subtitles e st subs output_path)) !! output_path = Some subs.
Proof.
  intros Hok. unfold save_subtitles. rewrite Hok. simpl.
  apply lookup_insert_eq.
Qed.

(** One more turn after a state the loop reaches is a state it reaches. *)
Lemma loop_reaches_turn e output_path source target subs
    pending acc st pending1 acc1 st1 pending2 acc2 st2 :
  loop_reaches e output_path source target subs pending acc st pending1 acc1 st1 ->
  as_completed_step e output_path source target subs pending1 acc1 st1
  = Continue pending2 acc2 st2 ->
  loop_reaches e output_path source target subs pending acc st pending2 acc2 st2.
Proof.
  induction 1 as [|pending acc st p1 a1 s1 p2 a2 s2 Hstep _ IH]; intros Hlast.
  - eapply reaches_turn; [exact Hlast | apply reaches_here].
  - eapply reaches_turn; [exact Hstep | by apply IH].
Qed.

(** A turn that goes on has collected the future that completed next, with
    what [translate_subtitle] returned for its line. *)
Lemma as_completed_step_task e output_path source target subs pending acc st
    pending1 acc1 st1 :
  as_completed_step e output_path source target subs pending acc st
  = Continue pending1 acc1 st1 ->
  exists pos sub,
    pending !! (completes_next e (clock st) mod List.length pending)
    = Some (pos, sub)
    /\ completed acc1
       = (pos, fst (translate_subtitle e (tick st) sub source target))
         :: completed acc.
Proof.
  unfold as_completed_step.
  destruct (pending !! _) as [[pos sub]|] eqn:Hlook; [|done].
  destruct (translate_subtitle e (tick st) sub source target) as [r st2] eqn:Htask.
  cbn [read_flag]. destruct (negb _); [done|].
  pose proof (collect_returned_acc subs output_path (index sub) r acc (tick st2))
    as [_ Hcomp].
  destruct (collect_future _ _ _ _ _ _) as [acc2 st3]. simpl in Hcomp.
  intros [= _ <- _]. exists pos, sub. split; [reflexivity|].
  rewrite Htask. simpl. by rewrite Hcomp.
Qed.

(** Every result in the history of the pool is the result of the task of
    the line at its place. *)
Lemma as_completed_loop_tasks e output_path source target subs st0 turns
    pending acc st acc' st' :
  loop_reaches e output_path source target subs
    (imap pair subs) empty_acc st0 pending acc st ->
  pool_inv subs pending acc ->
  (forall j res, (j, res) ∈ completed acc ->
     exists sub, subs !! j = Some sub
                 /\ task_result_of e output_path source target subs st0 j sub res) ->
  as_completed_loop e output_path source target subs turns pending acc st
  = (Returned acc', st') ->
  forall j res, (j, res) ∈ completed acc' ->
    exists sub, subs !! j = Some sub
                /\ task_result_of e output_path source target subs st0 j sub res.
Proof.
  revert pending acc st. induction turns as [|n IH];
    intros pending acc st Hreach Hinv Hdone; cbn [as_completed_loop].
  - by intros [= <- <-].
  - destruct (as_completed_step _ _ _ _ _ _ _ _) as [p1 a1 s1|o s1] eqn:Hstep;
      [|intros [= -> ->]; by eapply as_completed_step_raise in Hstep].
    apply IH.
    + by eapply loop_reaches_turn.
    + by eapply pool_inv_step.
    + destruct (as_completed_step_task _ _ _ _ _ _ _ _ _ _ _ Hstep)
        as (pos & sub & Hlook & Hcomp).
      intros j res Hin. rewrite Hcomp in Hin.
      apply elem_of_cons in Hin as [[= -> ->]|Hin]; [|by apply Hdone].
      exists sub. split.
      * destruct Hinv as (_ & Hpend & _). apply Hpend, list_elem_of_lookup. eauto.
      * exists pending, acc, st. by repeat split.
Qed.

(** What [process_file_parallel] returns as the history of its pool: an
    entry for every line of the file, each entry the result of the task of
    the line at its place. *)
Lemma process_file_parallel_history e st file_path output_path source target
    subs r st' :
  disk st !! file_path = Some subs ->
  process_file_parallel e st file_path output_path source target
  = (Returned r, st') ->
  (forall j sub, subs !! j = Some sub -> exists res, (j, res) ∈ pool_history r)
  /\ (forall j res, (j, res) ∈ pool_history r ->
        exists sub, subs !! j = Some sub
                    /\ task_result_of e output_path source target subs st j sub
                         res).
Proof.
  intros Hfile. unfold process_file_parallel. rewrite Hfile.
  destruct (List.length subs =? 0) eqn:Hlen.
  - apply Nat.eqb_eq, nil_length_inv in Hlen. subst subs.
    destruct (save_subtitles e st [] output_path) as [ok st1].
    intros [= <- <-]. split; [done|].
    intros j res Hin. by apply elem_of_nil in Hin.
  - destruct (as_completed_loop _ _ _ _ _ _ _ _ _) as [[acc| |] st1] eqn:Hloop;
      [|done..].
    pose proof (pool_inv_end subs _ _ _ _ _ _ _ _ _ _
                  (eq_sym (length_imap _ _)) (pool_inv_start subs) Hloop)
      as (_ & _ & Hall & _).
    pose proof (as_completed_loop_tasks e output_path source target subs st
                  (List.length subs) (imap pair subs) empty_acc st acc st1
                  (reaches_here _ _ _ _ _ _ _ _) (pool_inv_start subs)) as Htasks.
    destruct (save_subtitles e st1 _ output_path) as [ok st2].
    intros [= <- <-]. cbn [pool_history]. split.
    + intros j sub Hj.
      destruct (Hall j sub Hj) as [Hin|Hin]; [by apply elem_of_nil in Hin | done].
    + apply Htasks; [|done]. intros j res Hin. by apply elem_of_nil in Hin.
Qed.

(** C2: whatever the order in which the futures complete (the theorem holds
    for every environment), when [process_file_parallel] returns and the
    write succeeds, the file saved at the output path has the captions of
    the input in the input's order, index by index; and, the indices of a
    file being distinct, the caption at each position carries the text of
    the result that [translate_subtitle] returned for that very line when
    the pool ran its task (a result that is in the history of the pool,
    with the index of the line). *)
Theorem C2_reassembled_by_index (e : env) (st : state)
    (file_path output_path source target : string)
    (subs : list SubRipItem) (r : file_result) (st' : state) :
  writes_succeed e ->
  disk st !! file_path = Some subs ->
  process_file_parallel e st file_path output_path source target
  = (Returned r, st') ->
  exists saved,
    disk st' !! output_path = Some saved
    /\ index <$> saved = index <$> subs
    /\ (NoDup (index <$> subs) ->
        forall j sub, subs !! j = Some sub ->
          exists res,
            (j, res) ∈ pool_history r
            /\ task_result_of e output_path source target subs st j sub res
            /\ r_index res = index sub
            /\ saved !! j = Some (set_text (r_text res) sub)).
Proof.
  intros Hok Hfile Hrun.
  pose proof (process_file_parallel_history e st file_path output_path source
                target subs r st' Hfile Hrun) as [_ Htasks].
  revert Hrun. unfold process_file_parallel. rewrite Hfile.
  destruct (List.length subs =? 0) eqn:Hlen.
  - apply Nat.eqb_eq, nil_length_inv in Hlen. subst subs.
    pose proof (save_subtitles_ok e st [] output_path Hok) as Hsave.
    destruct (save_subtitles e st [] output_path) as [ok st1].
    intros [= <- <-]. exists []. repeat split; try done.
  - destruct (as_completed_loop _ _ _ _ _ _ _ _ _) as [[acc| |] st1] eqn:Hloop;
      [|done..].
    pose proof (pool_inv_end subs _ _ _ _ _ _ _ _ _ _
                  (eq_sym (length_imap _ _)) (pool_inv_start subs) Hloop)
      as (_ & _ & Hall & Hdone).
    pose proof (save_subtitles_ok e st1 (reassemble (results acc) subs)
                  output_path Hok) as Hsave.
    destruct (save_subtitles e st1 _ output_path) as [ok st2].
    intros [= <- <-]. exists (reassemble (results acc) subs).
    split; [done|]. split; [apply reassemble_index|].
    intros Hdistinct j sub Hj. cbn [pool_history] in *.
    destruct (Hall j sub Hj) as [Hin|[res Hin]]; [by apply elem_of_nil in Hin|].
    destruct (Hdone j res Hin) as (sub' & Hj' & Hri & Hres).
    assert (sub' = sub) by congruence. subst sub'.
    destruct (Htasks j res Hin) as (sub' & Hj'' & Htask).
    assert (sub' = sub) by congruence. subst sub'.
    exists res. split; [done|]. split; [done|]. split; [done|].
    unfold reassemble. rewrite list_lookup_fmap, Hj. simpl.
    by rewrite (Hres Hdistinct).
Qed.

Example reassembly_3_1_2 :
  let (o, st') :=
    process_file_parallel out_of_order_env
      (init_state default_settings three_lines)
      "/subs/movie_cleaned.srt" "/subs/movie.ru.srt" "Auto" "Russian" in
  (match o with
   | Returned r => rev (fst <$> pool_history r)
   | _ => []
   end) = [2; 0; 1]
  /\ (index <$> default [] (disk st' !! "/subs/movie.ru.srt")) = [1%Z; 2%Z; 3%Z]
  /\ (text <$> default [] (disk st' !! "/subs/movie.ru.srt"))
     = [colorize default_settings "[ru] Hello there";
        colorize default_settings "[ru] Good morning";
        colorize default_settings "[ru] See you"].
Proof. vm_compute. repeat split; reflexivity. Qed.

Lemma C2_reassembled_by_index_witness :
  exists r st',
    process_file_parallel out_of_order_env
      (init_state default_settings three_lines)
      "/subs/movie_cleaned.srt" "/subs/movie.ru.srt" "Auto" "Russian"
    = (Returned r, st')
    /\ exists saved,
         disk st' !! "/subs/movie.ru.srt" = Some saved
         /\ index <$> saved
            = index <$> [sample_caption; second_caption; third_caption]
         /\ (NoDup (index <$> [sample_caption; second_caption; third_caption]) ->
             forall j sub,
               [sample_caption; second_caption; third_caption] !! j = Some sub ->
               exists res,
                 (j, res) ∈ pool_history r
                 /\ task_result_of out_of_order_env "/subs/movie.ru.srt"
                      "Auto" "Russian"
                      [sample_caption; second_caption; third_caption]
                      (init_state default_settings three_lines) j sub res
                 /\ r_index res = index sub
                 /\ saved !! j = Some (set_text (r_text res) sub)).
Proof.
  eexists _, _. split; [vm_compute; reflexivity|].
  eapply (C2_reassembled_by_index out_of_order_env
            (init_state default_settings three_lines)
            "/subs/movie_cleaned.srt" "/subs/movie.ru.srt" "Auto" "Russian").
  - intros n. reflexivity.
  - vm_compute. reflexivity.
  - vm_compute. reflexivity.
Defined.

(* ================================================================== *)
(** * Retry passes: the effect of one record *)
(* ================================================================== *)

Lemma retry_item_effect e pass_number k d fa st :
  item_effect pass_number k d fa st
    (fst (retry_item e pass_number (k, d) fa st))
    (snd (retry_item e pass_number (k, d) fa st)).
Proof.
  unfold retry_item. cbn [read_flag].
  destruct (negb _).
  { by apply effect_cancelled. }
  destruct (Nat.leb_spec MAX_FAILURES_PER_LINE (failure_count d)) as [Hcap|Hlt].
  { by apply effect_capped. }
  destruct (List.find _ _) as [sub|].
  2: { by apply effect_no_line. }
  destruct (negb (String.eqb _ _)).
  { by apply effect_changed. }
  pose proof (translate_text_direct_frame e (tick st) (original_text d)
                (target_lang (config (tick st))) (source_lang (config (tick st)))
                3) as (Hcfg & Huld & Hfin & Hout & Hdisk & Hatt).
  destruct (translate_text_direct _ _ _ _ _ _) as [translated st1].
  simpl in Hcfg, Huld, Hfin, Hout, Hdisk, Hatt.
  destruct (_ && _); cbn [fst snd].
  - apply effect_success; simpl; [done| |congruence..].
    unfold pool_frame; simpl. repeat split; congruence.
  - apply effect_failure; simpl; [done| |congruence..].
    unfold pool_frame; simpl. repeat split; congruence.
Qed.

(** The loop over one file's records, read off the effects of its body. *)
Lemma retry_items_cons e pass_number k d rest fa st :
  retry_items e pass_number ((k, d) :: rest) fa st
  = match retry_item e pass_number (k, d) fa st with
    | (Returned fa', st') => retry_items e pass_number rest fa' st'
    | (Interrupted m, st') => (Interrupted m, st')
    | (Failed, st') => (Failed, st')
    end.
Proof. reflexivity. Qed.

Lemma save_subtitles_effect e st subs output_path :
  let st' := snd (save_subtitles e st subs output_path) in
  attempts st' = attempts st
  /\ untranslated_line_details st' = untranslated_line_details st
  /\ config st' = config st
  /\ translation_cache st' = translation_cache st
  /\ (disk st' = disk st \/ disk st' = <[output_path := subs]> (disk st)).
Proof.
  unfold save_subtitles. destruct (write_ok e (clock st)); simpl;
    repeat split; auto.
Qed.

Lemma cap_items_effect items next st :
  let st' := snd (cap_items items next st) in
  pool_frame st st' /\ attempts st' = attempts st.
Proof.
  revert next st. induction items as [|[k d] rest IH]; intros next st; simpl.
  - split; [by repeat split|done].
  - destruct (IH (PyDict.set k (with_failure_count MAX_FAILURES_PER_LINE d) next)
                (mutate_failure_count k d MAX_FAILURES_PER_LINE st))
      as ((?&?&?&?) & ?).
    simpl in *. unfold pool_frame. repeat split; congruence.
Qed.

(* ================================================================== *)
(** * A retry pass rewrites a file only after a success *)
(* ================================================================== *)

Lemma retry_items_modified e pass_number items fa st :
  let o := fst (retry_items e pass_number items fa st) in
  let st' := snd (retry_items e pass_number items fa st) in
  pool_frame st st'
  /\ exists new,
       attempts st' = (new ++ attempts st)%list
       /\ forall fa', o = Returned fa' -> fa_modified fa' = true ->
            fa_modified fa = true
            \/ exists k d, (k, d) ∈ items /\ RetryAttempt pass_number k true ∈ new.
Proof.
  revert fa st. induction items as [|[k d] rest IH]; intros fa st.
  - simpl. split; [by repeat split|]. exists []. split; [done|].
    intros fa' [= <-] ?. by left.
  - rewrite retry_items_cons.
    pose proof (retry_item_effect e pass_number k d fa st) as Heff.
    destruct (retry_item e pass_number (k, d) fa st) as [o1 st1].
    cbn [fst snd] in Heff.
    destruct Heff as [s Hf Ha Hu|s Hc Hf Ha Hu|s Hc Hf Ha Hu|s Hc Hf Ha Hu
                      |s subs' Hc Hf Ha Hu|s Hc Hf Ha Hu];
      try (match goal with
           | |- context [retry_items e pass_number rest ?f ?t] =>
               destruct (IH f t) as (Hf2 & new & Hnew & Hmod)
           end;
           split; [by eapply pool_frame_trans|]).
    + cbn [fst snd]. split; [done|]. exists []. by split.
    + exists new. split; [by rewrite Hnew, Ha|].
      intros fa' Ho Hm. destruct (Hmod fa' Ho Hm) as [?|(k' & d' & Hin & Hs)];
        [by left|right]. exists k', d'. split; [by right|done].
    + exists new. split; [by rewrite Hnew, Ha|].
      intros fa' Ho Hm. destruct (Hmod fa' Ho Hm) as [?|(k' & d' & Hin & Hs)];
        [by left|right]. exists k', d'. split; [by right|done].
    + exists new. split; [by rewrite Hnew, Ha|].
      intros fa' Ho Hm. destruct (Hmod fa' Ho Hm) as [?|(k' & d' & Hin & Hs)];
        [by left|right]. exists k', d'. split; [by right|done].
    + exists (new ++ [RetryAttempt pass_number k true])%list.
      split; [by rewrite Hnew, Ha, <- app_assoc|].
      intros fa' Ho Hm. right. exists k, d. split; [by left|].
      apply elem_of_app. right. by left.
    + exists (new ++ [RetryAttempt pass_number k false])%list.
      split; [by rewrite Hnew, Ha, <- app_assoc|].
      intros fa' Ho Hm. destruct (Hmod fa' Ho Hm) as [?|(k' & d' & Hin & Hs)];
        [by left|right]. exists k', d'. split; [by right|].
      apply elem_of_app. by left.
Qed.

Lemma PyDict_set_elem {K V} `{EqDecision K} (k k' : K) (v v' : V) d :
  (k', v') ∈ PyDict.set k v d -> (k', v') = (k, v) \/ (k', v') ∈ d.
Proof.
  induction d as [|[k0 v0] d IH]; simpl.
  - intros Hin. apply list_elem_of_singleton in Hin. by left.
  - destruct (decide (k = k0)) as [->|Hne]; intros Hin;
      apply elem_of_cons in Hin as [Hin|Hin].
    + by left.
    + right. by right.
    + right. rewrite Hin. by left.
    + destruct (IH Hin); [by left|right; by right].
Qed.

Lemma PyDict_get_elem {K V} `{EqDecision K} (k : K) (v : V) d :
  PyDict.get k d = Some v -> (k, v) ∈ d.
Proof. intros H. apply list_elem_of_In. by apply PyDict_get_In. Qed.


Lemma group_append_well_grouped item grouped :
  well_grouped grouped -> well_grouped (group_append item grouped).
Proof.
  intros Hwg p items k d Hin Hk. unfold group_append in Hin.
  destruct (PyDict.get (fst (fst item)) grouped) as [old|] eqn:Hget.
  - apply PyDict_set_elem in Hin as [[= -> ->]|Hin]; [|by eapply Hwg].
    apply elem_of_app in Hk as [Hk|Hk].
    + eapply Hwg; [by apply PyDict_get_elem|done].
    + apply list_elem_of_singleton in Hk. by subst item.
  - apply PyDict_set_elem in Hin as [[= -> ->]|Hin]; [|by eapply Hwg].
    apply list_elem_of_singleton in Hk. by subst item.
Qed.

Lemma group_by_path_well_grouped d : well_grouped (group_by_path d).
Proof.
  unfold group_by_path.
  assert (Hgen : forall g, well_grouped g ->
            well_grouped (fold_left (fun grouped item => group_append item grouped) d g)).
  { induction d as [|item d IH]; intros g Hg; simpl; [done|].
    apply IH. by apply group_append_well_grouped. }
  apply Hgen. intros p items k x Hin. by apply elem_of_nil in Hin.
Qed.

Lemma retry_groups_rewrites e pass_number grouped acc st path :
  well_grouped grouped ->
  let st' := snd (retry_groups e pass_number grouped acc st) in
  config st' = config st
  /\ exists new,
       attempts st' = (new ++ attempts st)%list
       /\ (disk st' !! path = disk st !! path
           \/ exists i, RetryAttempt pass_number (path, i) true ∈ new).
Proof.
  revert acc st. induction grouped as [|[p items] rest IH]; intros acc st Hwg.
  - simpl. split; [done|]. exists []. split; [done|by left].
  - assert (Hwg' : well_grouped rest).
    { intros p' items' k d Hin. apply Hwg. by right. }
    cbn [retry_groups].
    destruct (disk st !! p) as [subs|] eqn:Hfile.
    + pose proof (retry_items_modified e pass_number items
                    {| fa_subs := subs; fa_modified := false; fa_pass := acc |} st)
        as (Hf & new1 & Hnew1 & Hmod).
      destruct (retry_items _ _ _ _ _) as [[fa| |] st1]; cbn [fst snd] in *.
      * set (st2 := if fa_modified fa
                    then snd (save_subtitles e st1 (fa_subs fa) p) else st1).
        destruct (IH (fa_pass fa) st2 Hwg') as (Hcfg & new2 & Hnew2 & Hdisk2).
        assert (Hst2 : attempts st2 = attempts st1 /\ config st2 = config st1
                       /\ (disk st2 !! path = disk st1 !! path
                           \/ (fa_modified fa = true /\ path = p))).
        { subst st2. destruct (fa_modified fa); [|by repeat split; auto].
          pose proof (save_subtitles_effect e st1 (fa_subs fa) p)
            as (Ha & _ & Hc & _ & [Hd|Hd]); simpl in *.
          - repeat split; auto. left. by rewrite Hd.
          - repeat split; auto. destruct (decide (path = p)) as [->|Hne];
              [by right|left]. rewrite Hd. by apply lookup_insert_ne. }
        destruct Hst2 as (Ha2 & Hc2 & Hd2). destruct Hf as (Hc1 & _ & _ & Hd1).
        split; [congruence|].
        exists (new2 ++ new1)%list.
        split; [by rewrite Hnew2, Ha2, Hnew1, app_assoc|].
        destruct Hdisk2 as [Hsame|[i Hi]];
          [|right; exists i; apply elem_of_app; by left].
        destruct Hd2 as [Hd2|[Hm ->]]; [left; congruence|].
        right. destruct (Hmod fa eq_refl Hm) as [?|(k & d & Hin & Hs)]; [done|].
        exists (snd k). apply elem_of_app. right.
        assert (Hk : fst k = p) by (eapply Hwg; [by left|done]).
        destruct k as [kp ki]. simpl in *. by subst kp.
      * destruct Hf as (Hc1 & _ & _ & Hd1). split; [done|].
        exists new1. split; [done|left; by rewrite Hd1].
      * destruct Hf as (Hc1 & _ & _ & Hd1). split; [done|].
        exists new1. split; [done|left; by rewrite Hd1].
    + pose proof (cap_items_effect items (next_untranslated acc) st)
        as ((Hc1 & _ & _ & Hd1) & Ha1).
      destruct (cap_items items (next_untranslated acc) st) as [next st1].
      cbn [snd] in *.
      destruct (IH {| next_untranslated := next; successes := successes acc |}
                  st1 Hwg') as (Hcfg & new2 & Hnew2 & Hdisk2).
      split; [congruence|]. exists new2. split; [by rewrite Hnew2, Ha1|].
      destruct Hdisk2 as [Hsame|?]; [left; congruence|by right].
Qed.

(** The history grows by the attempts of the pass, and a path whose
    contents changed has a successful attempt among them. *)
Lemma retry_pass_rewrites e st pass_number path :
  let st' := snd (retry_untranslated_lines_sequential e st pass_number) in
  exists new,
    attempts st' = (new ++ attempts st)%list
    /\ (disk st' !! path = disk st !! path
        \/ exists i, RetryAttempt pass_number (path, i) true ∈ new).
Proof.
  unfold retry_untranslated_lines_sequential.
  destruct (untranslated_line_details st) as [|item rest] eqn:Hd.
  - exists []. split; [done|by left].
  - rewrite <- Hd.
    pose proof (retry_groups_rewrites e pass_number
                  (group_by_path (untranslated_line_details st))
                  {| next_untranslated := []; successes := 0 |} st path
                  (group_by_path_well_grouped _)) as (_ & new & Hnew & Hdisk).
    destruct (retry_groups _ _ _ _ _) as [[acc| |] st1]; cbn [snd] in *;
      exists new; by split.
Qed.

(** C10: in one retry pass, however it ends, the contents on disk at a path
    differ from what they were only if the pass retranslated a line of
    that file with success; when every record of the file failed, was
    carried at the cap, or was dropped, the file on disk is as before. *)
Theorem C10_rewrite_only_after_success (e : env) (st : state)
    (pass_number : nat) (path : string) :
  let st' := snd (retry_untranslated_lines_sequential e st pass_number) in
  exists new,
    attempts st' = (new ++ attempts st)%list
    /\ ((forall i, RetryAttempt pass_number (path, i) true ∉ new) ->
        disk st' !! path = disk st !! path)
    /\ (disk st' !! path <> disk st !! path ->
        exists i, RetryAttempt pass_number (path, i) true ∈ new).
Proof.
  destruct (retry_pass_rewrites e st pass_number path) as (new & Hnew & Hdisk).
  exists new. split; [done|]. split.
  - intros Hnone. destruct Hdisk as [?|[i Hi]]; [done|]. by destruct (Hnone i).
  - intros Hdiff. by destruct Hdisk as [?|?].
Qed.

(* ================================================================== *)
(** * Retry passes spend a bounded budget *)
(* ================================================================== *)

Section Budget.

Variable k0 : key.





Lemma count_retries_cons a h :
  count_retries k0 (a :: h)
  = (if is_retry_of k0 a then 1 else 0) + count_retries k0 h.
Proof. unfold count_retries. simpl. by destruct (is_retry_of k0 a). Qed.

Lemma count_retries_app h1 h2 :
  count_retries k0 (h1 ++ h2) = count_retries k0 h1 + count_retries k0 h2.
Proof.
  induction h1 as [|a h1 IH]; [done|].
  cbn [app]. rewrite !count_retries_cons, IH. lia.
Qed.




End Budget.

(* ================================================================== *)
(** * Grouping keeps the records *)
(* ================================================================== *)

Lemma group_items_set_old p item old grouped :
  PyDict.get p grouped = Some old ->
  group_items (PyDict.set p (old ++ [item])%list grouped)
  ≡ₚ (group_items grouped ++ [item])%list.
Proof.
  induction grouped as [|[p' l'] grouped IH]; cbn [PyDict.get PyDict.set]; [done|].
  destruct (decide (p = p')) as [->|Hne].
  - intros [= ->]. cbn [group_items foldr snd]. fold (group_items grouped).
    rewrite <- !app_assoc. apply Permutation_app_head, Permutation_app_comm.
  - intros Hget. cbn [group_items foldr snd].
    fold (group_items grouped)
         (group_items (PyDict.set p (old ++ [item])%list grouped)).
    rewrite (IH Hget). by rewrite app_assoc.
Qed.

Lemma group_items_set_new p item grouped :
  PyDict.get p grouped = None ->
  group_items (PyDict.set p [item] grouped) = (group_items grouped ++ [item])%list.
Proof.
  induction grouped as [|[p' l'] grouped IH]; cbn [PyDict.get PyDict.set]; [done|].
  destruct (decide (p = p')) as [->|Hne]; [done|].
  intros Hget. cbn [group_items foldr snd].
  fold (group_items grouped) (group_items (PyDict.set p [item] grouped)).
  rewrite (IH Hget). by rewrite app_assoc.
Qed.

Lemma group_items_append item grouped :
  group_items (group_append item grouped) ≡ₚ (group_items grouped ++ [item])%list.
Proof.
  unfold group_append.
  destruct (PyDict.get (fst (fst item)) grouped) as [old|] eqn:Hget.
  - by apply group_items_set_old.
  - by rewrite group_items_set_new.
Qed.

Lemma group_by_path_Permutation d : group_items (group_by_path d) ≡ₚ d.
Proof.
  unfold group_by_path.
  assert (Hgen : forall g,
            group_items (fold_left (fun grouped item => group_append item grouped) d g)
            ≡ₚ (group_items g ++ d)%list).
  { induction d as [|item d IH]; intros g; simpl.
    - by rewrite app_nil_r.
    - rewrite IH, group_items_append, <- app_assoc. done. }
  apply Hgen.
Qed.

(* ================================================================== *)
(** * The cap on retries *)
(* ================================================================== *)





(* ================================================================== *)
(** * Records at the cap are carried over *)
(* ================================================================== *)

Section Carried.

Variables (k : key) (d : details).
Hypothesis Hcap : failure_count d = MAX_FAILURES_PER_LINE.







End Carried.

(* ================================================================== *)
(** * The table of failure records stays a dictionary *)
(* ================================================================== *)

Lemma PyDict_set_keys {K V} `{EqDecision K} (k x : K) (v : V) d :
  x ∈ PyDict.keys (PyDict.set k v d) -> x = k \/ x ∈ PyDict.keys d.
Proof.
  unfold PyDict.keys. intros Hin.
  apply list_elem_of_fmap in Hin as ([k' v'] & Hx & Hin).
  simpl in Hx. subst x.
  apply PyDict_set_elem in Hin as [[= -> ->]|Hin]; [by left|right].
  apply list_elem_of_fmap. by exists (k', v').
Qed.

Lemma PyDict_set_NoDup {K V} `{EqDecision K} (k : K) (v : V) d :
  NoDup (PyDict.keys d) -> NoDup (PyDict.keys (PyDict.set k v d)).
Proof.
  unfold PyDict.keys.
  induction d as [|[k' v'] d IH]; cbn [PyDict.set].
  - intros _. apply NoDup_singleton.
  - rewrite fmap_cons, NoDup_cons. cbn [fst]. intros [Hnotin Hnd].
    destruct (decide (k = k')) as [->|Hne]; rewrite fmap_cons, NoDup_cons;
      cbn [fst].
    + done.
    + split; [|by apply IH].
      intros Hin. apply PyDict_set_keys in Hin as [Heq|Hin]; [|done].
      by subst k'.
Qed.

Lemma PyDict_del_keys {K V} `{EqDecision K} (k x : K) (d : list (K * V)) :
  x ∈ PyDict.keys (PyDict.del k d) -> x ∈ PyDict.keys d.
Proof.
  unfold PyDict.keys.
  induction d as [|[k' v'] d IH]; cbn [PyDict.del]; [done|].
  destruct (decide (k = k')) as [->|Hne]; rewrite !fmap_cons; cbn [fst].
  - intros Hin. by right.
  - intros Hin. apply elem_of_cons in Hin as [->|Hin]; [by left|right; by apply IH].
Qed.

Lemma PyDict_del_NoDup {K V} `{EqDecision K} (k : K) (d : list (K * V)) :
  NoDup (PyDict.keys d) -> NoDup (PyDict.keys (PyDict.del k d)).
Proof.
  unfold PyDict.keys.
  induction d as [|[k' v'] d IH]; cbn [PyDict.del]; [done|].
  rewrite fmap_cons, NoDup_cons. cbn [fst]. intros [Hnotin Hnd].
  destruct (decide (k = k')) as [->|Hne]; [done|].
  rewrite fmap_cons, NoDup_cons. cbn [fst]. split; [|by apply IH].
  intros Hin. by apply PyDict_del_keys in Hin.
Qed.

Lemma PyDict_set_Forall {K V} `{EqDecision K} (P : K * V -> Prop) k v d :
  Forall P d -> P (k, v) -> Forall P (PyDict.set k v d).
Proof.
  intros Hd Hkv. induction Hd as [|[k' v'] d Hx Hd IH]; cbn [PyDict.set].
  - by constructor.
  - destruct (decide (k = k')); by constructor.
Qed.

Lemma PyDict_del_Forall {K V} `{EqDecision K} (P : K * V -> Prop) k d :
  Forall P d -> Forall P (PyDict.del k d).
Proof.
  intros Hd. induction Hd as [|[k' v'] d Hx Hd IH]; cbn [PyDict.del]; [done|].
  destruct (decide (k = k')); [done|by constructor].
Qed.





















(* ================================================================== *)
(** * One attempt per line in the parallel pass *)
(* ================================================================== *)

















(* ================================================================== *)
(** * A line that is only ever echoed, from start to end of a run *)
(* ================================================================== *)

Section EchoedLine.

Variable e : env.
Hypothesis Hrunning : never_cancelled e.
Hypothesis Hwrites : writes_succeed e.

Lemma same_store_refl st : same_store st st.
Proof. by repeat split. Qed.

Lemma same_store_trans st1 st2 st3 :
  same_store st1 st2 -> same_store st2 st3 -> same_store st1 st3.
Proof.
  unfold same_store. intros (?&?&?&?) (?&?&?&?). repeat split; congruence.
Qed.

Lemma translate_text_direct_echo_run st text target source max_retries :
  echoes e (PyStr.strip text) ->
  uncached st (PyStr.strip text) ->
  exists st',
    translate_text_direct e st text target source max_retries = (text, st')
    /\ same_store st st'
    /\ untranslated_line_details st' = untranslated_line_details st
    /\ attempts st' = attempts st.
Proof.
  intros Hecho Hmiss.
  pose proof (translate_text_direct_echo e st text target source max_retries
                Hecho Hmiss) as [Hres Hcache].
  pose proof (translate_text_direct_frame e st text target source max_retries)
    as (Hcfg & Huld & _ & Hout & Hdisk & Hatt).
  destruct (translate_text_direct e st text target source max_retries)
    as [result st']. simpl in *. subst result.
  exists st'. by repeat split.
Qed.

Lemma translate_subtitle_echo_run st sub source target :
  echoes e (PyStr.strip (text sub)) ->
  uncached st (PyStr.strip (text sub)) ->
  exists st',
    translate_subtitle e st sub source target = (failed_result sub, st')
    /\ same_store st st'
    /\ untranslated_line_details st' = untranslated_line_details st
    /\ attempts st' = InitialAttempt (index sub) :: attempts st.
Proof.
  intros Hecho Hmiss. unfold translate_subtitle. cbn [read_flag].
  rewrite Hrunning. cbn [negb].
  destruct (translate_text_direct_echo_run
              (record_attempt (InitialAttempt (index sub)) (tick st))
              (text sub) target source 3 Hecho Hmiss)
    as (st' & -> & (Hcfg & Hdisk & Hcache & Hout) & Huld & Hatt).
  rewrite String.eqb_refl, andb_false_r.
  exists st'. simpl in *. by repeat split.
Qed.

(** The parallel pass over a file of one line that is only echoed. *)
Lemma process_file_parallel_echo_run st file_path output_path source target line :
  echoes e (PyStr.strip (text line)) ->
  uncached st (PyStr.strip (text line)) ->
  disk st !! file_path = Some [line] ->
  untranslated_line_details st = [] ->
  exists r st',
    process_file_parallel e st file_path output_path source target
    = (Returned r, st')
    /\ lines_processed r = 1
    /\ config st' = config st
    /\ translation_cache st' = translation_cache st
    /\ output_files st' = output_files st
    /\ disk st' = <[output_path := [line]]> (disk st)
    /\ untranslated_line_details st'
       = [((output_path, index line),
           {| original_text := text line; failure_count := 1 |})]
    /\ attempts st' = InitialAttempt (index line) :: attempts st.
Proof.
  intros Hecho Hmiss Hfile Huld.
  unfold process_file_parallel. rewrite Hfile.
  cbn [List.length Nat.eqb imap as_completed_loop].
  unfold as_completed_step. cbn [List.length]. rewrite Nat.mod_1_r.
  cbn [lookup list_lookup].
  destruct (translate_subtitle_echo_run (tick st) line source target Hecho Hmiss)
    as (st1 & -> & (Hcfg & Hdisk & Hcache & Hout) & Huld1 & Hatt).
  cbn [read_flag]. rewrite Hrunning. cbn [negb].
  cbn [collect_future failed_result r_success r_index r_text r_original negb].
  unfold record_failure, save_subtitles. simpl in Huld1.
  cbn [untranslated_line_details tick set_clock]. rewrite Huld1, Huld.
  cbn [PyDict.get PyDict.set]. rewrite Hwrites.
  eexists _, _. split; [reflexivity|]. simpl in *.
  unfold reassemble. simpl. rewrite lookup_insert_eq.
  destruct line as [i s0 s1 t]. simpl. rewrite Hdisk.
  by repeat split.
Qed.

(** A retry pass over the single record of such a line, below the cap: one
    more failed attempt, and the count goes up by one. *)
Lemma retry_pass_echo_fails st pass_number output_path line d :
  echoes e (PyStr.strip (text line)) ->
  uncached st (PyStr.strip (text line)) ->
  disk st !! output_path = Some [line] ->
  original_text d = text line ->
  failure_count d < MAX_FAILURES_PER_LINE ->
  untranslated_line_details st = [((output_path, index line), d)] ->
  exists st',
    retry_untranslated_lines_sequential e st pass_number = (Returned (0, 1), st')
    /\ same_store st st'
    /\ untranslated_line_details st'
       = [((output_path, index line),
           with_failure_count (failure_count d + 1) d)]
    /\ attempts st'
       = RetryAttempt pass_number (output_path, index line) false :: attempts st.
Proof.
  intros Hecho Hmiss Hfile Horig Hlt Huld.
  unfold retry_untranslated_lines_sequential. rewrite Huld.
  cbn [group_by_path fold_left group_append fst PyDict.get PyDict.set].
  cbn [retry_groups]. rewrite Hfile. cbn [retry_items].
  unfold retry_item. cbn [read_flag]. rewrite Hrunning. cbn [negb].
  apply Nat.leb_gt in Hlt. rewrite Hlt.
  cbn [fa_subs snd List.find]. rewrite bool_decide_eq_true_2 by done.
  rewrite Horig, String.eqb_refl. cbn [negb].
  destruct (translate_text_direct_echo_run (tick st) (text line)
              (target_lang (config (tick st))) (source_lang (config (tick st)))
              3 Hecho Hmiss)
    as (st1 & -> & (Hcfg & Hdisk & Hcache & Hout) & Huld1 & Hatt).
  rewrite String.eqb_refl, andb_false_r.
  cbn [retry_groups fa_modified keep_record fa_pass next_untranslated successes
       PyDict.set List.length].
  eexists. split; [reflexivity|]. simpl in *.
  by repeat split; try congruence.
Qed.

(** A retry pass over a single record at the cap: nothing is attempted. *)
Lemma retry_pass_capped st pass_number output_path i subs d :
  disk st !! output_path = Some subs ->
  MAX_FAILURES_PER_LINE <= failure_count d ->
  untranslated_line_details st = [((output_path, i), d)] ->
  exists st',
    retry_untranslated_lines_sequential e st pass_number = (Returned (0, 1), st')
    /\ same_store st st'
    /\ untranslated_line_details st' = untranslated_line_details st
    /\ attempts st' = attempts st.
Proof.
  intros Hfile Hcap Huld.
  unfold retry_untranslated_lines_sequential. rewrite Huld.
  cbn [group_by_path fold_left group_append fst PyDict.get PyDict.set].
  cbn [retry_groups]. rewrite Hfile. cbn [retry_items].
  unfold retry_item. cbn [read_flag]. rewrite Hrunning. cbn [negb].
  apply Nat.leb_le in Hcap. rewrite Hcap.
  cbn [retry_groups fa_modified keep_record fa_pass next_untranslated successes
       PyDict.set List.length].
  eexists. split; [reflexivity|]. simpl. by repeat split.
Qed.

(** Once the single record is at the cap, further passes change nothing. *)
Lemma retry_loop_capped passes current_pass st output_path i subs d :
  disk st !! output_path = Some subs ->
  MAX_FAILURES_PER_LINE <= failure_count d ->
  untranslated_line_details st = [((output_path, i), d)] ->
  exists st',
    retry_loop e passes current_pass st = (Returned tt, st')
    /\ same_store st st'
    /\ untranslated_line_details st' = untranslated_line_details st
    /\ attempts st' = attempts st.
Proof.
  revert current_pass st.
  induction passes as [|n IH]; intros current_pass st Hfile Hcap Huld.
  - exists st. split; [done|]. split; [apply same_store_refl|done].
  - cbn [retry_loop]. rewrite Huld. cbn [read_flag]. rewrite Hrunning.
    cbn [negb].
    destruct (retry_pass_capped (tick st) (current_pass + 1) output_path i subs d
                Hfile Hcap Huld)
      as (st1 & -> & Hsame1 & Huld1 & Hatt1).
    cbn [Nat.eqb].
    destruct (IH (current_pass + 1) st1) as (st2 & -> & Hsame2 & Huld2 & Hatt2).
    + destruct Hsame1 as (_ & -> & _). done.
    + done.
    + by rewrite Huld1.
    + exists st2. split; [done|]. split.
      * eapply same_store_trans; [|exact Hsame2].
        eapply same_store_trans; [|exact Hsame1]. by repeat split.
      * simpl in *. split; congruence.
Qed.

(** The retry passes for such a line, from its first failure: two passes
    retry it, every later pass finds it at the cap. *)
Lemma retry_loop_echo_run n st output_path line :
  echoes e (PyStr.strip (text line)) ->
  uncached st (PyStr.strip (text line)) ->
  disk st !! output_path = Some [line] ->
  untranslated_line_details st
  = [((output_path, index line),
      {| original_text := text line; failure_count := 1 |})] ->
  exists st',
    retry_loop e (S (S n)) 0 st = (Returned tt, st')
    /\ same_store st st'
    /\ untranslated_line_details st'
       = [((output_path, index line),
           {| original_text := text line; failure_count := 3 |})]
    /\ attempts st'
       = RetryAttempt 2 (output_path, index line) false
         :: RetryAttempt 1 (output_path, index line) false :: attempts st.
Proof.
  intros Hecho Hmiss Hfile Huld.
  cbn [retry_loop]. rewrite Huld. cbn [read_flag]. rewrite Hrunning. cbn [negb].
  destruct (retry_pass_echo_fails (tick st) (0 + 1) output_path line
              {| original_text := text line; failure_count := 1 |}
              Hecho Hmiss Hfile eq_refl) as (st1 & -> & Hs1 & Hu1 & Ha1).
  { unfold MAX_FAILURES_PER_LINE. simpl. lia. }
  { exact Huld. }
  cbn [Nat.eqb]. rewrite Hu1. cbn [read_flag]. rewrite Hrunning. cbn [negb].
  assert (Hmiss1 : uncached st1 (PyStr.strip (text line))).
  { intros t s sc tc Hcodes. destruct Hs1 as (_ & _ & Hc & _). rewrite Hc.
    by eapply Hmiss. }
  assert (Hfile1 : disk st1 !! output_path = Some [line]).
  { destruct Hs1 as (_ & Hd & _). by rewrite Hd. }
  destruct (retry_pass_echo_fails (tick st1) (0 + 1 + 1) output_path line
              (with_failure_count (1 + 1)
                 {| original_text := text line; failure_count := 1 |})
              Hecho Hmiss1 Hfile1 eq_refl) as (st2 & -> & Hs2 & Hu2 & Ha2).
  { unfold MAX_FAILURES_PER_LINE. simpl. lia. }
  { exact Hu1. }
  cbn [Nat.eqb].
  assert (Hfile2 : disk st2 !! output_path = Some [line]).
  { destruct Hs2 as (_ & Hd & _). by rewrite Hd. }
  simpl in Hu2.
  assert (Hcap : MAX_FAILURES_PER_LINE
                 <= failure_count
                      {| original_text := text line; failure_count := 3 |}).
  { unfold MAX_FAILURES_PER_LINE. simpl. lia. }
  destruct (retry_loop_capped n (0 + 1 + 1) st2 output_path (index line) [line]
              _ Hfile2 Hcap Hu2) as (st3 & -> & Hs3 & Hu3 & Ha3).
  exists st3. split; [done|]. split.
  - eapply same_store_trans; [|exact Hs3].
    eapply same_store_trans; [|exact Hs2].
    eapply same_store_trans; [|exact Hs1]. by repeat split.
  - unfold with_failure_count in *. simpl in *. split; congruence.
Qed.

End EchoedLine.

(** C4, as stated, fails: with the cap at 3 and 3 retry passes configured, a
    line that is only ever echoed ends unresolved, but after 1 attempt of
    the parallel pass and 2 retries, not 3: its count is 1 after the
    parallel pass, and the third pass finds it at the cap. *)
Lemma C4_three_retries_refuted :
  let (ending, st') :=
    translate_files_thread echo_env (init_state default_settings one_line_disk)
      ["/subs/movie_cleaned.srt"] in
  ~ (final_untranslated_count st' = 1
     /\ count_initial 1 (attempts st') = 1
     /\ count_retries ("/subs/movie.ru.srt", 1%Z) (attempts st') = 3).
Proof. vm_compute. intros (_ & _ & H). discriminate H. Qed.

(** C4, amended: for a file of one line that the service only ever echoes,
    with no cancellation, writes that succeed and at least 3 retry passes
    configured, the run ends with that line as the one unresolved line,
    after exactly 1 attempt in the parallel pass and exactly 2 retries (by
    passes 1 and 2), which is [MAX_FAILURES_PER_LINE] attempts in all. *)
Theorem C4_echoed_line_run (e : env) (st : state) (file_path : string)
    (line : SubRipItem) :
  never_cancelled e ->
  writes_succeed e ->
  echoes e (PyStr.strip (text line)) ->
  uncached st (PyStr.strip (text line)) ->
  disk st !! file_path = Some [line] ->
  3 <= configured_passes (config st) ->
  let k := (get_output_path st file_path (target_lang (config st)), index line) in
  exists s st',
    translate_files_thread e st [file_path] = (Finalized s, st')
    /\ cancelled s = false
    /\ final_untranslated s = 1
    /\ final_untranslated_count st' = 1
    /\ untranslated_line_details st'
       = [(k, {| original_text := text line;
                 failure_count := MAX_FAILURES_PER_LINE |})]
    /\ attempts st'
       = RetryAttempt 2 k false :: RetryAttempt 1 k false
         :: InitialAttempt (index line) :: attempts st.
Proof.
  intros Hrunning Hwrites Hecho Hmiss Hfile Hpasses k.
  unfold translate_files_thread.
  cbn [analyze_files read_flag]. rewrite !Hrunning. cbn [negb].
  cbn [disk set_final_untranslated_count set_untranslated_line_details
       set_output_files tick set_clock].
  rewrite Hfile. cbn [List.length Nat.ltb Nat.leb app].
  cbn [translate_valid_files read_flag]. rewrite !Hrunning. cbn [negb].
  set (st3 := tick (tick (tick _))).
  set (out := get_output_path st3 file_path (target_lang (config st3))).
  assert (Hout : out = get_output_path st file_path (target_lang (config st))).
  { subst out. by apply get_output_path_naming. }
  destruct (process_file_parallel_echo_run e Hrunning Hwrites st3 file_path out
              (source_lang (config st3)) (target_lang (config st3)) line
              Hecho Hmiss Hfile eq_refl)
    as (r & st4 & -> & Hproc & Hcfg4 & Hcache4 & Hfiles4 & Hdisk4 & Huld4 & Hatt4).
  unfold note_output_file, path_exists.
  rewrite Hdisk4, lookup_insert_eq, bool_decide_eq_true_2 by eauto.
  rewrite Hfiles4. change (output_files st3) with (@nil string).
  rewrite bool_decide_eq_false_2 by apply not_elem_of_nil.
  cbn [translate_valid_files read_flag app]. rewrite Hrunning. cbn [negb].
  set (st5 := tick (set_output_files [out] st4)).
  assert (Hpasses5 : exists n, configured_passes (config st5) = S (S n)).
  { subst st5. cbn [config tick set_clock set_output_files]. rewrite Hcfg4.
    change (config st3) with (config st).
    destruct (configured_passes (config st)) as [|[|n]]; [lia..|by exists n]. }
  destruct Hpasses5 as [n ->].
  destruct (retry_loop_echo_run e Hrunning n st5 out line Hecho)
    as (st6 & -> & (Hcfg6 & Hdisk6 & Hcache6 & Hfiles6) & Huld6 & Hatt6).
  { intros t s sc tc Hcodes. subst st5.
    cbn [translation_cache tick set_clock set_output_files].
    rewrite Hcache4. by eapply Hmiss. }
  { subst st5. cbn [disk tick set_clock set_output_files].
    by rewrite Hdisk4, lookup_insert_eq. }
  { subst st5. by cbn [untranslated_line_details tick set_clock set_output_files]. }
  eexists _, _. split; [reflexivity|].
  cbn [cancelled final_untranslated final_untranslated_count
       set_final_untranslated_count untranslated_line_details attempts].
  rewrite Huld6, Hatt6. subst st5 k. rewrite <- Hout.
  cbn [attempts tick set_clock set_output_files List.length]. rewrite Hatt4.
  by repeat split.
Qed.

Lemma C4_echoed_line_run_witness :
  let k := (get_output_path (init_state default_settings one_line_disk)
              "/subs/movie_cleaned.srt" "Russian", 1%Z) in
  exists s st',
    translate_files_thread echo_env (init_state default_settings one_line_disk)
      ["/subs/movie_cleaned.srt"] = (Finalized s, st')
    /\ cancelled s = false
    /\ final_untranslated s = 1
    /\ final_untranslated_count st' = 1
    /\ untranslated_line_details st'
       = [(k, {| original_text := "Hello there";
                 failure_count := MAX_FAILURES_PER_LINE |})]
    /\ attempts st'
       = RetryAttempt 2 k false :: RetryAttempt 1 k false
         :: InitialAttempt 1 :: [].
Proof.
  apply (C4_echoed_line_run echo_env (init_state default_settings one_line_disk)
           "/subs/movie_cleaned.srt" sample_caption).
  - intros n. reflexivity.
  - intros n. reflexivity.
  - apply echo_env_echoes. reflexivity.
  - intros t s sc tc _. apply lookup_empty.
  - vm_compute. reflexivity.
  - vm_compute. lia.
Defined.
(* ================================================================== *)
(** * Requests of one call: how many, and what they leave behind *)
(* ================================================================== *)

(** Each iteration of the request loop that gets past the cancel flag
    counts one request and moves the rotation by one place; nothing else
    moves either of them. *)
Lemma request_loop_requests e remaining sc tc stripped st :
  current_endpoint_index st < List.length api_endpoints ->
  let st' := snd (request_loop e remaining sc tc stripped st) in
  exists d,
    d <= remaining
    /\ request_count st' = request_count st + d
    /\ current_endpoint_index st'
       = (current_endpoint_index st + d) mod List.length api_endpoints.
Proof.
  revert st. induction remaining as [|n IH]; intros st Hidx; cbn [request_loop].
  - exists 0. rewrite !Nat.add_0_r, Nat.mod_small by done.
    simpl. repeat split; lia.
  - unfold read_flag.
    destruct (translation_in_progress e (clock st)); cbn [negb].
    2:{ exists 0. rewrite !Nat.add_0_r, Nat.mod_small by done.
        simpl. repeat split; lia. }
    unfold get_next_endpoint. cbn [current_endpoint_index set_request_count tick
                                    set_clock].
    destruct (api_endpoints !! current_endpoint_index st) as [ep|] eqn:Hep.
    2:{ apply lookup_ge_None in Hep. lia. }
    unfold ask_net.
    assert (Hone :
      forall s,
        request_count s = request_count st + 1 ->
        current_endpoint_index s
        = (current_endpoint_index st + 1) mod List.length api_endpoints ->
        exists d, d <= S n /\ request_count s = request_count st + d
          /\ current_endpoint_index s
             = (current_endpoint_index st + d) mod List.length api_endpoints).
    { intros s Hr Hi. exists 1. repeat split; [lia | done | done]. }
    assert (Hmore :
      forall s,
        request_count s = request_count st + 1 ->
        current_endpoint_index s
        = (current_endpoint_index st + 1) mod List.length api_endpoints ->
        let s' := snd (request_loop e n sc tc stripped s) in
        exists d, d <= S n /\ request_count s' = request_count st + d
          /\ current_endpoint_index s'
             = (current_endpoint_index st + d) mod List.length api_endpoints).
    { intros s Hr Hi.
      destruct (IH s) as (d & Hd & Hrd & Hid).
      { rewrite Hi. apply Nat.mod_upper_bound. done. }
      cbv zeta in Hrd, Hid |- *.
      exists (S d). split; [lia|]. split; [lia|].
      rewrite Hid, Hi.
      rewrite Nat.Div0.add_mod_idemp_l. f_equal. lia. }
    destruct (net e _ _) as [code body| |]; cbn [fst snd].
    + destruct (code =? 200).
      * destruct (body ≫= extract_translation) as [t|]; [|by apply Hone].
        destruct (accepted t stripped); [by apply Hone | by apply Hmore].
      * destruct (transient_status code); [by apply Hmore | by apply Hone].
    + by apply Hmore.
    + by apply Hone.
Qed.

Lemma request_loop_errors e remaining sc tc stripped st :
  let r := request_loop e remaining sc tc stripped st in
  error_count st <= error_count (snd r) <= error_count st + 1
  /\ (is_Some (fst r) -> error_count (snd r) = error_count st).
Proof.
  revert st. induction remaining as [|n IH]; intros st; cbn [request_loop].
  - simpl. split; [lia | done].
  - unfold read_flag.
    destruct (translation_in_progress e (clock st)); cbn [negb];
      [|simpl; split; [lia | done]].
    unfold get_next_endpoint. cbn [current_endpoint_index set_request_count tick
                                    set_clock].
    destruct (api_endpoints !! current_endpoint_index st) as [ep|];
      [|simpl; split; [lia | by intros [? ?]]].
    unfold ask_net.
    match goal with
    | |- context [request_loop e n sc tc stripped ?s] =>
        specialize (IH s); cbn [error_count set_current_endpoint_index tick
                                set_clock set_request_count] in IH
    end.
    destruct (net e _ _) as [code body| |]; cbn [fst snd].
    + destruct (code =? 200).
      * destruct (body ≫= extract_translation) as [t|];
          [|simpl; split; [lia | by intros [? ?]]].
        destruct (accepted t stripped); [simpl; split; [lia | done] | exact IH].
      * destruct (transient_status code);
          [exact IH | simpl; split; [lia | by intros [? ?]]].
    + exact IH.
    + simpl; split; [lia | by intros [? ?]].
Qed.

(** X1: one call of [translate_text_direct] issues at most
    [max_retries + 1] requests; the rotation moves by exactly the number of
    requests issued; the error counter grows by at most two and the hit
    counter by at most one. *)
Theorem translate_text_direct_bounded e st text target source max_retries :
  current_endpoint_index st < List.length api_endpoints ->
  let st' := snd (translate_text_direct e st text target source max_retries) in
  (exists d,
     d <= max_retries + 1
     /\ request_count st' = request_count st + d
     /\ current_endpoint_index st'
        = (current_endpoint_index st + d) mod List.length api_endpoints)
  /\ error_count st <= error_count st' <= error_count st + 2
  /\ cache_hits st <= cache_hits st' <= cache_hits st + 1.
Proof.
  intros Hidx. unfold translate_text_direct.
  assert (Hnone :
    (exists d, d <= max_retries + 1 /\ request_count st = request_count st + d
       /\ current_endpoint_index st
          = (current_endpoint_index st + d) mod List.length api_endpoints)).
  { exists 0. rewrite !Nat.add_0_r, Nat.mod_small by done.
    repeat split; lia. }
  destruct (negb (PyStr.truthy (PyStr.strip text))); [simpl; split; [done | lia]|].
  destruct (language_codes target source) as [[sc tc]|];
    [|simpl; split; [done | lia]].
  destruct (translation_cache st !! _); [simpl; split; [done | lia]|].
  pose proof (request_loop_requests e (S max_retries) sc tc (PyStr.strip text)
                st Hidx) as (d & Hd & Hr & Hi).
  pose proof (request_loop_errors e (S max_retries) sc tc (PyStr.strip text) st)
    as (Herr & _).
  pose proof (request_loop_frame e (S max_retries) sc tc (PyStr.strip text) st)
    as (_ & _ & Hhits).
  destruct (request_loop e (S max_retries) sc tc (PyStr.strip text) st)
    as [[result|] st1]; cbn [fst snd] in *.
  - split; [exists d; simpl; repeat split; [lia | done | done]|].
    simpl. lia.
  - split; [exists d; simpl; repeat split; [lia | done | done]|].
    simpl. lia.
Qed.

Lemma translate_text_direct_bounded_witness :
  let st' := snd (translate_text_direct echo_env
                    (init_state default_settings one_line_disk)
                    "Hello there" "Russian" "Auto" 3) in
  (exists d,
     d <= 3 + 1
     /\ request_count st'
        = request_count (init_state default_settings one_line_disk) + d
     /\ current_endpoint_index st'
        = (current_endpoint_index (init_state default_settings one_line_disk) + d)
          mod List.length api_endpoints)
  /\ error_count (init_state default_settings one_line_disk) <= error_count st'
     <= error_count (init_state default_settings one_line_disk) + 2
  /\ cache_hits (init_state default_settings one_line_disk) <= cache_hits st'
     <= cache_hits (init_state default_settings one_line_disk) + 1.
Proof.
  apply (translate_text_direct_bounded echo_env
           (init_state default_settings one_line_disk)
           "Hello there" "Russian" "Auto" 3).
  vm_compute. lia.
Defined.

(* ================================================================== *)
(** * The cache as a round trip *)
(* ================================================================== *)

(** X2: when a call returns something other than the text it was given,
    that result is in the cache: a later call for any text that is the same
    after trimming, with the same pair of languages, returns it again,
    counts one hit and asks neither the service nor the cancel flag. *)
Theorem translate_text_direct_cached_again
    e e' st text text' target source max_retries max_retries' :
  let r := translate_text_direct e st text target source max_retries in
  fst r <> text ->
  PyStr.strip text' = PyStr.strip text ->
  translate_text_direct e' (snd r) text' target source max_retries'
  = (fst r, set_cache_hits (cache_hits (snd r) + 1) (snd r)).
Proof.
  intros r Hchanged Hsame. subst r.
  destruct (translate_text_direct e st text target source max_retries)
    as [r st1] eqn:Hcall.
  cbn [fst snd] in *. unfold translate_text_direct in Hcall |- *.
  rewrite Hsame.
  destruct (negb (PyStr.truthy (PyStr.strip text))) eqn:Hblank; [congruence|].
  destruct (language_codes target source) as [[sc tc]|] eqn:Hcodes;
    [|congruence].
  destruct (translation_cache st !! _) as [cached|] eqn:Hhit.
  - injection Hcall as <- <-. cbn [translation_cache set_cache_hits].
    by rewrite Hhit.
  - destruct (request_loop e (S max_retries) sc tc (PyStr.strip text) st)
      as [[result|] st2]; [|congruence].
    injection Hcall as <- <-. cbn [translation_cache set_translation_cache].
    by rewrite lookup_insert_eq.
Qed.

Lemma translate_text_direct_cached_again_witness :
  let r := translate_text_direct translating_env
             (init_state default_settings one_line_disk)
             "Hello there" "Russian" "Auto" 3 in
  translate_text_direct cancelling_env (snd r) "  Hello there " "Russian" "Auto" 0
  = (fst r, set_cache_hits (cache_hits (snd r) + 1) (snd r)).
Proof.
  apply (translate_text_direct_cached_again translating_env cancelling_env
           (init_state default_settings one_line_disk)
           "Hello there" "  Hello there " "Russian" "Auto" 3 0).
  - vm_compute. discriminate.
  - vm_compute. reflexivity.
Defined.

(* ================================================================== *)
(** * The retry policy of one call *)
(* ================================================================== *)

(** X3: a call made while the cancel flag is down issues no request: the
    request counter, the rotation and the cache are as before, and the
    result is the text itself or a value that was already cached. *)
Theorem translate_text_direct_cancelled e st text target source max_retries :
  translation_in_progress e (clock st) = false ->
  let r := translate_text_direct e st text target source max_retries in
  request_count (snd r) = request_count st
  /\ current_endpoint_index (snd r) = current_endpoint_index st
  /\ translation_cache (snd r) = translation_cache st
  /\ (fst r = text \/ exists k, translation_cache st !! k = Some (fst r)).
Proof.
  intros Hflag. unfold translate_text_direct.
  destruct (negb (PyStr.truthy (PyStr.strip text))); [simpl; by auto|].
  destruct (language_codes target source) as [[sc tc]|]; [|simpl; by auto].
  destruct (translation_cache st !! _) as [cached|] eqn:Hhit.
  - simpl. repeat split; try done. right. eauto.
  - cbn [request_loop]. unfold read_flag. rewrite Hflag. simpl. by auto.
Qed.

Lemma translate_text_direct_cancelled_witness :
  let r := translate_text_direct cancelling_env
             (set_clock 9 (init_state default_settings one_line_disk))
             "Hello there" "Russian" "Auto" 3 in
  request_count (snd r)
  = request_count (set_clock 9 (init_state default_settings one_line_disk))
  /\ current_endpoint_index (snd r)
     = current_endpoint_index (set_clock 9 (init_state default_settings one_line_disk))
  /\ translation_cache (snd r)
     = translation_cache (set_clock 9 (init_state default_settings one_line_disk))
  /\ (fst r = "Hello there"
      \/ exists k,
           translation_cache (set_clock 9 (init_state default_settings one_line_disk))
             !! k = Some (fst r)).
Proof.
  apply (translate_text_direct_cancelled cancelling_env
           (set_clock 9 (init_state default_settings one_line_disk))
           "Hello there" "Russian" "Auto" 3).
  vm_compute. reflexivity.
Defined.

Lemma request_loop_exhausted e remaining sc tc stripped st :
  never_cancelled e ->
  always_transient e ->
  current_endpoint_index st < List.length api_endpoints ->
  let r := request_loop e remaining sc tc stripped st in
  fst r = None
  /\ request_count (snd r) = request_count st + remaining
  /\ error_count (snd r) = error_count st.
Proof.
  intros Hrun Hbusy. revert st.
  induction remaining as [|n IH]; intros st Hidx; cbn [request_loop].
  - simpl. repeat split; lia.
  - unfold read_flag. rewrite Hrun. cbn [negb].
    unfold get_next_endpoint. cbn [current_endpoint_index set_request_count tick
                                    set_clock].
    destruct (api_endpoints !! current_endpoint_index st) as [ep|] eqn:Hep.
    2:{ apply lookup_ge_None in Hep. lia. }
    unfold ask_net.
    match goal with
    | |- context [request_loop e n sc tc stripped ?s] =>
        destruct (IH s) as (IHr & IHc & IHe);
          [cbn [current_endpoint_index set_current_endpoint_index tick set_clock
                set_request_count]; by apply Nat.mod_upper_bound|]
    end.
    match goal with
    | |- context [net e ?n ?r] =>
        destruct (Hbusy n r) as [-> | (code & body & -> & -> & ->)]
    end; cbn [fst snd];
    (split; [exact IHr | split; [rewrite IHc; simpl; lia | by rewrite IHe]]).
Qed.

(** X4: while the service only answers with timeouts and with the statuses
    429, 500, 502, 503 and 504, a call for a text that is not cached tries
    exactly [max_retries + 1] times, then gives the text back unchanged,
    counts one error and caches nothing. *)
Theorem translate_text_direct_exhausted e st text target source max_retries :
  never_cancelled e ->
  always_transient e ->
  current_endpoint_index st < List.length api_endpoints ->
  PyStr.truthy (PyStr.strip text) = true ->
  is_Some (language_codes target source) ->
  uncached st (PyStr.strip text) ->
  let r := translate_text_direct e st text target source max_retries in
  fst r = text
  /\ request_count (snd r) = request_count st + (max_retries + 1)
  /\ error_count (snd r) = error_count st + 1
  /\ translation_cache (snd r) = translation_cache st.
Proof.
  intros Hrun Hbusy Hidx Htext [[sc tc] Hcodes] Hmiss.
  unfold translate_text_direct. rewrite Htext, Hcodes. cbn [negb].
  rewrite (Hmiss _ _ _ _ Hcodes).
  pose proof (request_loop_exhausted e (S max_retries) sc tc (PyStr.strip text)
                st Hrun Hbusy Hidx) as (Hr & Hc & He).
  pose proof (request_loop_frame e (S max_retries) sc tc (PyStr.strip text) st)
    as (_ & Hcache & _).
  destruct (request_loop e (S max_retries) sc tc (PyStr.strip text) st)
    as [[result|] st1]; cbn [fst snd] in *; [done|].
  simpl. repeat split; [lia | lia | done].
Qed.

Lemma translate_text_direct_exhausted_witness :
  let r := translate_text_direct busy_env
             (init_state default_settings one_line_disk)
             "Hello there" "Russian" "Auto" 3 in
  fst r = "Hello there"
  /\ request_count (snd r)
     = request_count (init_state default_settings one_line_disk) + (3 + 1)
  /\ error_count (snd r)
     = error_count (init_state default_settings one_line_disk) + 1
  /\ translation_cache (snd r)
     = translation_cache (init_state default_settings one_line_disk).
Proof.
  apply (translate_text_direct_exhausted busy_env
           (init_state default_settings one_line_disk)
           "Hello there" "Russian" "Auto" 3).
  - intros n. reflexivity.
  - intros n r. right. exists 429, None. by repeat split.
  - vm_compute. lia.
  - vm_compute. reflexivity.
  - vm_compute. eauto.
  - intros t s sc tc _. apply lookup_empty.
Defined.

(** X5: when the first answer is a status that is neither 200 nor one of
    the retried ones, or an exception other than a timeout, the call stops
    at once, whatever [max_retries] is: one request, the text given back
    unchanged, the error counter raised twice (once in the loop, once
    after it), nothing cached. *)
Theorem translate_text_direct_terminal e st text target source max_retries :
  translation_in_progress e (clock st) = true ->
  (forall r, terminal_answer (net e (S (clock st)) r)) ->
  current_endpoint_index st < List.length api_endpoints ->
  PyStr.truthy (PyStr.strip text) = true ->
  is_Some (language_codes target source) ->
  uncached st (PyStr.strip text) ->
  let r := translate_text_direct e st text target source max_retries in
  fst r = text
  /\ request_count (snd r) = request_count st + 1
  /\ error_count (snd r) = error_count st + 2
  /\ translation_cache (snd r) = translation_cache st.
Proof.
  intros Hrun Hterm Hidx Htext [[sc tc] Hcodes] Hmiss.
  unfold translate_text_direct. rewrite Htext, Hcodes. cbn [negb].
  rewrite (Hmiss _ _ _ _ Hcodes).
  cbn [request_loop]. unfold read_flag. rewrite Hrun. cbn [negb].
  unfold get_next_endpoint. cbn [current_endpoint_index set_request_count tick
                                  set_clock].
  destruct (api_endpoints !! current_endpoint_index st) as [ep|] eqn:Hep.
  2:{ apply lookup_ge_None in Hep. lia. }
  unfold ask_net. cbn [clock set_current_endpoint_index set_request_count tick
                       set_clock].
  match goal with
  | |- context [net e (S (clock st)) ?r] =>
      destruct (Hterm r) as [-> | (code & body & -> & -> & ->)]
  end; simpl; repeat split; lia.
Qed.

Lemma translate_text_direct_terminal_witness :
  let r := translate_text_direct refusing_env
             (init_state default_settings one_line_disk)
             "Hello there" "Russian" "Auto" 3 in
  fst r = "Hello there"
  /\ request_count (snd r)
     = request_count (init_state default_settings one_line_disk) + 1
  /\ error_count (snd r)
     = error_count (init_state default_settings one_line_disk) + 2
  /\ translation_cache (snd r)
     = translation_cache (init_state default_settings one_line_disk).
Proof.
  apply (translate_text_direct_terminal refusing_env
           (init_state default_settings one_line_disk)
           "Hello there" "Russian" "Auto" 3).
  - reflexivity.
  - intros r. right. exists 404, None. by repeat split.
  - vm_compute. lia.
  - vm_compute. reflexivity.
  - vm_compute. eauto.
  - intros t s sc tc _. apply lookup_empty.
Defined.

(** X6: when the first answer is a 200 whose text is accepted (not empty,
    not blank, and different from the trimmed text after trimming), the
    call returns that text after one request, counts no error and stores
    it under the key made of the two codes and the trimmed text. *)
Theorem translate_text_direct_first_answer
    e st text target source max_retries sc tc data translated :
  translation_in_progress e (clock st) = true ->
  current_endpoint_index st < List.length api_endpoints ->
  PyStr.truthy (PyStr.strip text) = true ->
  language_codes target source = Some (sc, tc) ->
  uncached st (PyStr.strip text) ->
  (forall ep,
     net e (S (clock st))
       {| endpoint := ep; sl := sc; tl := tc; q := PyStr.strip text |}
     = HttpResponse 200 (Some data)) ->
  extract_translation data = Some translated ->
  accepted translated (PyStr.strip text) = true ->
  let r := translate_text_direct e st text target source max_retries in
  fst r = translated
  /\ request_count (snd r) = request_count st + 1
  /\ error_count (snd r) = error_count st
  /\ translation_cache (snd r)
     = <[cache_key sc tc (PyStr.strip text) := translated]> (translation_cache st).
Proof.
  intros Hrun Hidx Htext Hcodes Hmiss Hnet Hdata Hacc.
  unfold translate_text_direct. rewrite Htext, Hcodes. cbn [negb].
  rewrite (Hmiss _ _ _ _ Hcodes).
  cbn [request_loop]. unfold read_flag. rewrite Hrun. cbn [negb].
  unfold get_next_endpoint. cbn [current_endpoint_index set_request_count tick
                                  set_clock].
  destruct (api_endpoints !! current_endpoint_index st) as [ep|] eqn:Hep.
  2:{ apply lookup_ge_None in Hep. lia. }
  unfold ask_net. cbn [clock set_current_endpoint_index set_request_count tick
                       set_clock].
  rewrite Hnet. cbn [Nat.eqb mbind option_bind]. rewrite Hdata, Hacc.
  simpl. by repeat split.
Qed.

Lemma translate_text_direct_first_answer_witness :
  let r := translate_text_direct translating_env
             (init_state default_settings one_line_disk)
             "Hello there" "Russian" "Auto" 3 in
  fst r = "[ru] Hello there"
  /\ request_count (snd r)
     = request_count (init_state default_settings one_line_disk) + 1
  /\ error_count (snd r)
     = error_count (init_state default_settings one_line_disk)
  /\ translation_cache (snd r)
     = <[cache_key "auto" "ru" (PyStr.strip "Hello there") := "[ru] Hello there"]>
         (translation_cache (init_state default_settings one_line_disk)).
Proof.
  apply (translate_text_direct_first_answer translating_env
           (init_state default_settings one_line_disk)
           "Hello there" "Russian" "Auto" 3 "auto" "ru"
           (JList [JList [JList [JStr "[ru] Hello there"]]]) "[ru] Hello there").
  - reflexivity.
  - vm_compute. lia.
  - vm_compute. reflexivity.
  - vm_compute. reflexivity.
  - intros t s sc tc _. apply lookup_empty.
  - intros ep. reflexivity.
  - vm_compute. reflexivity.
  - vm_compute. reflexivity.
Defined.

(* ================================================================== *)
(** * Reading the answer of the service *)
(* ================================================================== *)

Lemma omap_segment_text (segs : list (string * list json)) :
  omap segment_text ((fun seg => JList (JStr (fst seg) :: snd seg)) <$> segs)
  = fst <$> segs.
Proof.
  induction segs as [|[s more] segs IH]; [done|].
  cbn [fmap list_fmap omap list_omap segment_text fst snd].
  f_equal. exact IH.
Qed.

Lemma mapM_sentence_trans (segs : list string) :
  mapM sentence_trans ((fun s => JDict [("trans", JStr s)]) <$> segs)
  = Some segs.
Proof.
  induction segs as [|s segs IH]; [done|].
  rewrite fmap_cons. cbn [mapM]. rewrite IH. reflexivity.
Qed.

(** X7: the two shapes of a 200 answer carry the same text: the nested
    array (whatever follows the text inside a segment, and whatever follows
    the list of segments) and the object with sentences (whatever its other
    members) both give the segments joined in order, with nothing between
    them. *)
Theorem extract_translation_shapes
    (segs : list (string * list json)) (rest : list json)
    (others : list (string * json)) :
  extract_translation (nested_shape segs rest)
  = Some (String.concat "" (fst <$> segs))
  /\ extract_translation (sentences_shape (fst <$> segs) others)
     = Some (String.concat "" (fst <$> segs)).
Proof.
  split.
  - unfold nested_shape. cbn [extract_translation].
    by rewrite omap_segment_text.
  - unfold sentences_shape. cbn [extract_translation PyDict.get].
    destruct (decide ("sentences" = "sentences")) as [_|Hne]; [|done].
    cbn [sentences_text]. by rewrite mapM_sentence_trans.
Qed.

(* ================================================================== *)
(** * The colour envelope and the result of a task *)
(* ================================================================== *)

(** X8: in the ASS/SSA format a colour [#RRGGBB] other than white is written
    with its three bytes in the opposite order, [&HBBGGRR&], before the
    text, and the text is followed by the tag that restores white. *)
Theorem colorize_ass_byte_order (cfg : settings) (r1 r2 g1 g2 b1 b2 : ascii)
    (translated : string) :
  let rgb (c1 c2 : ascii) := String c1 (String c2 EmptyString) in
  subtitle_color cfg = "#" ++ rgb r1 r2 ++ rgb g1 g2 ++ rgb b1 b2 ->
  PyStr.upper (subtitle_color cfg) <> "#FFFFFF" ->
  format_var cfg = "ASS/SSA Compatible" ->
  colorize cfg translated
  = "{\c&H" ++ rgb b1 b2 ++ rgb g1 g2 ++ rgb r1 r2 ++ "&}" ++ translated
    ++ "{\c&HFFFFFF&}".
Proof.
  intros rgb Hcolor Hwhite Hformat. unfold colorize.
  apply String.eqb_neq in Hwhite. rewrite Hwhite, Hformat, Hcolor.
  reflexivity.
Qed.

Lemma colorize_ass_byte_order_witness :
  colorize {| subtitle_color := "#12AB9f"; format_var := "ASS/SSA Compatible";
              naming_var := "Append language code"; source_lang := "Auto";
              target_lang := "Russian"; retry_passes_var := Some 2%Z |}
    "Privet"
  = "{\c&H" ++ "9f" ++ "AB" ++ "12" ++ "&}" ++ "Privet" ++ "{\c&HFFFFFF&}".
Proof.
  apply (colorize_ass_byte_order
           {| subtitle_color := "#12AB9f"; format_var := "ASS/SSA Compatible";
              naming_var := "Append language code"; source_lang := "Auto";
              target_lang := "Russian"; retry_passes_var := Some 2%Z |}
           "1" "2" "A" "B" "9" "f" "Privet")%char.
  - reflexivity.
  - vm_compute. discriminate.
  - reflexivity.
Defined.

(** X9: what a task returns always carries the line's own index and its
    text before translation.  A failure carries that text again as the
    result, never inside a colour tag; a success carries the colour
    envelope around a text that is not empty and differs from the original
    after trimming. *)
Theorem translate_subtitle_result e st sub source target :
  let r := fst (translate_subtitle e st sub source target) in
  r_index r = index sub
  /\ r_original r = text sub
  /\ (r_success r = false -> r_text r = text sub)
  /\ (r_success r = true ->
      exists translated,
        r_text r = colorize (config st) translated
        /\ translated <> ""
        /\ PyStr.strip translated <> PyStr.strip (text sub)).
Proof.
  unfold translate_subtitle, read_flag.
  destruct (translation_in_progress e (clock st)); cbn [negb];
    [|simpl; by repeat split].
  pose proof (translate_text_direct_frame e
                (record_attempt (InitialAttempt (index sub)) (tick st))
                (text sub) target source 3) as Hframe.
  destruct (translate_text_direct e _ (text sub) target source 3)
    as [translated st1]. cbn [snd] in Hframe.
  destruct (PyStr.truthy translated
            && negb (String.eqb (PyStr.strip translated) (PyStr.strip (text sub))))
    eqn:Hok; cbn [fst r_index r_original r_success r_text];
    [|by repeat split].
  repeat split; [done|]. intros _. exists translated.
  apply andb_true_iff in Hok as [Htruthy Hdiff].
  apply negb_true_iff, String.eqb_neq in Hdiff.
  split; [|split; [|done]].
  - destruct Hframe as (Hcfg & _). simpl in Hcfg. by rewrite Hcfg.
  - intros ->. done.
Qed.

(* ================================================================== *)
(** * The parallel pass: counts, timing and the table of failures *)
(* ================================================================== *)

Lemma translate_subtitle_original e st sub source target :
  r_original (fst (translate_subtitle e st sub source target)) = text sub.
Proof.
  unfold translate_subtitle, read_flag.
  destruct (translation_in_progress e (clock st)); cbn [negb]; [|done].
  destruct (translate_text_direct e _ (text sub) target source 3) as [t st1].
  by destruct (_ && _).
Qed.

(** One turn of the pool that goes on: the future of a pending line was
    collected, with the result of that line's task. *)
Lemma as_completed_step_continue e output_path source target subs pending acc st
    p1 a1 s1 :
  as_completed_step e output_path source target subs pending acc st
  = Continue p1 a1 s1 ->
  exists choice pos sub res,
    pending !! choice = Some (pos, sub)
    /\ p1 = delete choice pending
    /\ r_index res = index sub
    /\ r_original res = text sub
    /\ completed a1 = (pos, res) :: completed acc
    /\ processed a1 = processed acc + 1
    /\ untranslated a1 = untranslated acc + (if r_success res then 0 else 1)
    /\ results a1 = <[r_index res := r_text res]> (results acc)
    /\ untranslated_line_details s1
       = if r_success res
         then PyDict.del (output_path, r_index res) (untranslated_line_details st)
         else PyDict.set (output_path, r_index res)
                {| original_text := r_original res;
                   failure_count := earlier_failures (output_path, r_index res) st
                                    + 1 |}
                (untranslated_line_details st).
Proof.
  unfold as_completed_step.
  destruct (pending !! _) as [[pos sub]|] eqn:Hlook; [|done].
  pose proof (translate_subtitle_index e (tick st) sub source target) as Hidx.
  pose proof (translate_subtitle_original e (tick st) sub source target) as Horig.
  pose proof (translate_subtitle_frame e (tick st) sub source target)
    as (_ & Huld & _).
  destruct (translate_subtitle _ _ _ _ _) as [r st2]. cbn [read_flag].
  cbn [fst snd] in Hidx, Horig, Huld.
  destruct (negb _); [done|].
  unfold collect_future, record_failure, earlier_failures.
  cbn [untranslated_line_details tick set_clock] in *.
  rewrite Huld.
  destruct (r_success r) eqn:Hs; cbn [negb]; intros [= <- <- <-];
    exists (completes_next e (clock st) mod List.length pending), pos, sub, r;
    rewrite Hs; cbn; repeat split; try done; lia.
Qed.

Lemma as_completed_loop_counts e output_path source target subs turns pending
    acc st acc' st' :
  processed acc = List.length (completed acc) ->
  untranslated acc = failed_results (completed acc) ->
  as_completed_loop e output_path source target subs turns pending acc st
  = (Returned acc', st') ->
  processed acc' = List.length (completed acc')
  /\ untranslated acc' = failed_results (completed acc')
  /\ List.length (completed acc') = List.length (completed acc) + turns.
Proof.
  revert pending acc st. induction turns as [|n IH]; intros pending acc st Hp Hu;
    cbn [as_completed_loop].
  - intros [= <- <-]. repeat split; [done | done | lia].
  - destruct (as_completed_step _ _ _ _ _ _ _ _) as [p1 a1 s1|o s1] eqn:Hstep.
    + apply as_completed_step_continue in Hstep
        as (choice & pos & sub & res & _ & _ & _ & _ & Hc & Hpr & Hun & _).
      intros Hloop. apply IH in Hloop as (H1 & H2 & H3).
      * repeat split; [done | done|]. rewrite H3, Hc. simpl. lia.
      * rewrite Hpr, Hc, Hp. simpl. lia.
      * rewrite Hun, Hc, Hu. unfold failed_results.
        rewrite filter_cons. cbn [snd].
        destruct (r_success res); simpl; lia.
    + intros [= -> ->].
      by eapply as_completed_step_raise in Hstep.
Qed.

(** X10: when the parallel pass over a file returns, every line was
    collected once: the number of lines processed is the number of captions
    of the file, and the number reported as untranslated is the number of
    tasks that returned a failure, the history of the pool holding, place
    by place, what [translate_subtitle] returned for the line there. *)
Theorem process_file_parallel_counts e st file_path output_path source target
    subs r st' :
  disk st !! file_path = Some subs ->
  process_file_parallel e st file_path output_path source target
  = (Returned r, st') ->
  lines_processed r = List.length subs
  /\ List.length (pool_history r) = List.length subs
  /\ lines_untranslated r = failed_results (pool_history r)
  /\ lines_untranslated r <= lines_processed r
  /\ (forall j res, (j, res) ∈ pool_history r ->
        exists sub, subs !! j = Some sub
                    /\ task_result_of e output_path source target subs st j sub
                         res).
Proof.
  intros Hfile Hrun.
  pose proof (process_file_parallel_history e st file_path output_path source
                target subs r st' Hfile Hrun) as [_ Htasks].
  revert Hrun. unfold process_file_parallel. rewrite Hfile.
  destruct (List.length subs =? 0) eqn:Hlen.
  - apply Nat.eqb_eq in Hlen.
    destruct (save_subtitles e st [] output_path) as [ok st1].
    intros [= <- <-]. cbn [lines_processed lines_untranslated pool_history] in *.
    rewrite Hlen. simpl. split; [lia|]. split; [lia|]. split; [done|].
    split; [lia | exact Htasks].
  - destruct (as_completed_loop _ _ _ _ _ _ _ _ _) as [[acc| |] st1] eqn:Hloop;
      [|done..].
    apply as_completed_loop_counts in Hloop as (Hp & Hu & Hn); [|done..].
    destruct (save_subtitles e st1 _ output_path) as [ok st2].
    intros [= <- <-]. cbn [lines_processed lines_untranslated pool_history] in *.
    simpl in Hn. rewrite Hp, Hu, Hn.
    split; [done|]. split; [done|]. split; [done|]. split; [|exact Htasks].
    unfold failed_results. rewrite <- Hn. apply length_filter.
Qed.

Lemma process_file_parallel_counts_witness :
  exists r st',
    process_file_parallel echo_env (init_state default_settings disk_with_blank)
      "/subs/movie_cleaned.srt" "/subs/movie_ru.srt" "Auto" "Russian"
    = (Returned r, st')
    /\ lines_processed r = 2
    /\ List.length (pool_history r) = 2
    /\ lines_untranslated r = failed_results (pool_history r)
    /\ lines_untranslated r <= lines_processed r
    /\ (forall j res, (j, res) ∈ pool_history r ->
          exists sub,
            [sample_caption; blank_caption] !! j = Some sub
            /\ task_result_of echo_env "/subs/movie_ru.srt" "Auto" "Russian"
                 [sample_caption; blank_caption]
                 (init_state default_settings disk_with_blank) j sub res).
Proof.
  eexists _, _. split; [vm_compute; reflexivity|].
  eapply (process_file_parallel_counts echo_env
            (init_state default_settings disk_with_blank)
            "/subs/movie_cleaned.srt" "/subs/movie_ru.srt" "Auto" "Russian"
            [sample_caption; blank_caption]).
  - vm_compute. reflexivity.
  - vm_compute. reflexivity.
Defined.

Lemma as_completed_loop_results e output_path source target subs turns pending
    acc st acc' st' :
  (forall i t, results acc !! i = Some t ->
     exists j res, (j, res) ∈ completed acc /\ r_index res = i /\ r_text res = t) ->
  as_completed_loop e output_path source target subs turns pending acc st
  = (Returned acc', st') ->
  forall i t, results acc' !! i = Some t ->
    exists j res, (j, res) ∈ completed acc' /\ r_index res = i /\ r_text res = t.
Proof.
  revert pending acc st. induction turns as [|n IH]; intros pending acc st Hinv;
    cbn [as_completed_loop].
  - by intros [= <- <-].
  - destruct (as_completed_step _ _ _ _ _ _ _ _) as [p1 a1 s1|o s1] eqn:Hstep.
    + apply as_completed_step_continue in Hstep
        as (choice & pos & sub & res & _ & _ & _ & _ & Hc & _ & _ & Hres & _).
      apply IH. intros i t. rewrite Hres, Hc.
      destruct (decide (i = r_index res)) as [->|Hne].
      * rewrite lookup_insert_eq. intros [= <-].
        exists pos, res. split; [by left | done].
      * rewrite lookup_insert_ne by done. intros Hi.
        destruct (Hinv i t Hi) as (j & res' & Hin & Hri & Hrt).
        exists j, res'. split; [by right | done].
    + intros [= -> ->]. by eapply as_completed_step_raise in Hstep.
Qed.

(** X11: the file that the parallel pass saves has, place by place, the
    index and the timing of the input's captions, also when indices repeat;
    the text at a place is the input's or the text returned by a task for a
    line with that index. *)
Theorem process_file_parallel_keeps_timing e st file_path output_path source
    target subs r st' :
  writes_succeed e ->
  disk st !! file_path = Some subs ->
  process_file_parallel e st file_path output_path source target
  = (Returned r, st') ->
  exists saved,
    disk st' !! output_path = Some saved
    /\ Forall2 (retimed (pool_history r)) subs saved.
Proof.
  intros Hok Hfile. unfold process_file_parallel. rewrite Hfile.
  destruct (List.length subs =? 0) eqn:Hlen.
  - apply Nat.eqb_eq, nil_length_inv in Hlen. subst subs.
    pose proof (save_subtitles_ok e st [] output_path Hok) as Hsave.
    destruct (save_subtitles e st [] output_path) as [ok st1].
    intros [= <- <-]. exists []. split; [done | constructor].
  - destruct (as_completed_loop _ _ _ _ _ _ _ _ _) as [[acc| |] st1] eqn:Hloop;
      [|done..].
    assert (Hres : forall i t, results acc !! i = Some t ->
              exists j res, (j, res) ∈ completed acc /\ r_index res = i
                            /\ r_text res = t).
    { eapply as_completed_loop_results; [|exact Hloop].
      intros i t Hi. simpl in Hi. by rewrite lookup_empty in Hi. }
    pose proof (save_subtitles_ok e st1 (reassemble (results acc) subs)
                  output_path Hok) as Hsave.
    destruct (save_subtitles e st1 _ output_path) as [ok st2].
    intros [= <- <-]. eexists. split; [exact Hsave|].
    unfold reassemble. apply Forall2_fmap_r, Forall_Forall2_diag, Forall_forall.
    intros sub _. cbn [pool_history]. unfold compose.
    destruct (results acc !! index sub) as [t|] eqn:Ht.
    + destruct (Hres _ _ Ht) as (j & res & Hin & Hri & Hrt).
      repeat split; try done. right. exists j, res. by repeat split.
    + repeat split; try done. by left.
Qed.

Lemma process_file_parallel_keeps_timing_witness :
  exists r st' saved,
    process_file_parallel out_of_order_env (init_state default_settings three_lines)
      "/subs/movie_cleaned.srt" "/subs/movie_ru.srt" "Auto" "Russian"
    = (Returned r, st')
    /\ disk st' !! "/subs/movie_ru.srt" = Some saved
    /\ Forall2 (retimed (pool_history r))
         [sample_caption; second_caption; third_caption] saved.
Proof.
  eexists _, _.
  assert (Hrun :
    process_file_parallel out_of_order_env
      (init_state default_settings three_lines)
      "/subs/movie_cleaned.srt" "/subs/movie_ru.srt" "Auto" "Russian"
    = (Returned _, _)) by (vm_compute; reflexivity).
  destruct (process_file_parallel_keeps_timing out_of_order_env
              (init_state default_settings three_lines)
              "/subs/movie_cleaned.srt" "/subs/movie_ru.srt" "Auto" "Russian"
              [sample_caption; second_caption; third_caption] _ _
              (fun n => eq_refl) eq_refl Hrun) as (saved & Hdisk & Hall).
  exists saved. split; [exact Hrun | split; [exact Hdisk | exact Hall]].
Defined.

Lemma PyDict_get_del_ne {K V} `{EqDecision K} (k k' : K) (d : list (K * V)) :
  k <> k' -> PyDict.get k (PyDict.del k' d) = PyDict.get k d.
Proof.
  intros Hne. induction d as [|[k1 v1] d IH]; [done|].
  cbn [PyDict.del PyDict.get].
  destruct (decide (k' = k1)) as [->|Hk1].
  - by rewrite decide_False.
  - cbn [PyDict.get]. by rewrite IH.
Qed.

Lemma PyDict_get_None {K V} `{EqDecision K} (k : K) (d : list (K * V)) :
  k ∉ PyDict.keys d -> PyDict.get k d = None.
Proof.
  induction d as [|[k1 v1] d IH]; [done|].
  unfold PyDict.keys. rewrite fmap_cons, not_elem_of_cons. cbn [fst].
  intros [Hne Hnotin]. cbn [PyDict.get]. rewrite decide_False by done.
  by apply IH.
Qed.

Lemma PyDict_get_del_eq {K V} `{EqDecision K} (k : K) (d : list (K * V)) :
  NoDup (PyDict.keys d) -> PyDict.get k (PyDict.del k d) = None.
Proof.
  induction d as [|[k1 v1] d IH]; [done|].
  unfold PyDict.keys. rewrite fmap_cons, NoDup_cons. cbn [fst].
  intros [Hnotin Hnd]. cbn [PyDict.del].
  destruct (decide (k = k1)) as [->|Hk1].
  - by apply PyDict_get_None.
  - cbn [PyDict.get]. rewrite decide_False by done. by apply IH.
Qed.

Lemma distinct_places_distinct_index (subs : list SubRipItem) a b x y :
  NoDup (index <$> subs) ->
  subs !! a = Some x -> subs !! b = Some y -> a <> b -> index x <> index y.
Proof.
  intros Hnd Ha Hb Hab Heq. apply Hab.
  eapply (NoDup_lookup (index <$> subs)); [done| |].
  - by rewrite list_lookup_fmap, Ha.
  - rewrite list_lookup_fmap, Hb. simpl. by rewrite Heq.
Qed.

(** The table of failures during the collection loop of a file whose
    indices are distinct: the lines still pending and the other files have
    what they had when the pass started, each collected line has what its
    result says. *)
Lemma as_completed_loop_recorded e output_path source target subs st0 turns
    pending acc st acc' st' :
  NoDup (index <$> subs) ->
  pool_inv subs pending acc ->
  NoDup (PyDict.keys (untranslated_line_details st)) ->
  (forall pos sub, (pos, sub) ∈ pending ->
     PyDict.get (output_path, index sub) (untranslated_line_details st)
     = PyDict.get (output_path, index sub) (untranslated_line_details st0)) ->
  (forall j res, (j, res) ∈ completed acc -> recorded output_path st0 st res) ->
  (forall k, fst k <> output_path ->
     PyDict.get k (untranslated_line_details st)
     = PyDict.get k (untranslated_line_details st0)) ->
  as_completed_loop e output_path source target subs turns pending acc st
  = (Returned acc', st') ->
  NoDup (PyDict.keys (untranslated_line_details st'))
  /\ (forall j res, (j, res) ∈ completed acc' -> recorded output_path st0 st' res)
  /\ (forall k, fst k <> output_path ->
        PyDict.get k (untranslated_line_details st')
        = PyDict.get k (untranslated_line_details st0)).
Proof.
  intros Hdistinct. revert pending acc st.
  induction turns as [|n IH]; intros pending acc st Hinv Hnd Hpend Hdone Hother;
    cbn [as_completed_loop].
  - by intros [= <- <-].
  - destruct (as_completed_step _ _ _ _ _ _ _ _) as [p1 a1 s1|o s1] eqn:Hstep;
      [|intros [= -> ->]; by eapply as_completed_step_raise in Hstep].
    pose proof (pool_inv_step subs _ _ _ _ _ _ _ _ _ _ Hinv Hstep) as Hinv1.
    apply as_completed_step_continue in Hstep
      as (choice & pos & sub & res & Hlook & -> & Hidx & Horig & Hc & _ & _ & _
          & Huld).
    assert (Hpos : subs !! pos = Some sub).
    { destruct Hinv as (_ & Hp & _). apply Hp, list_elem_of_lookup. eauto. }
    assert (Hhere : (pos, sub) ∈ pending) by (apply list_elem_of_lookup; eauto).
    pose proof Hinv1 as (Hnd1 & Hpend1 & _ & Hdone1). rewrite Hc in Hnd1.
    rewrite fmap_cons in Hnd1. cbn [fst] in Hnd1.
    apply NoDup_app in Hnd1 as (_ & Hcross & Hnd1).
    apply NoDup_cons in Hnd1 as [Hfresh _].
    (* keys of the other lines of this file differ from the key written *)
    assert (Hkey : forall pos' sub', subs !! pos' = Some sub' -> pos' <> pos ->
              (output_path, index sub') <> (output_path, r_index res)).
    { intros pos' sub' Hp' Hne [= Heq]. rewrite Hidx in Heq.
      by eapply (distinct_places_distinct_index subs pos' pos). }
    assert (Hget : forall k, k <> (output_path, r_index res) ->
              PyDict.get k (untranslated_line_details s1)
              = PyDict.get k (untranslated_line_details st)).
    { intros k Hk. rewrite Huld. destruct (r_success res).
      - by apply PyDict_get_del_ne.
      - by apply PyDict_get_set_ne. }
    apply IH.
    + exact Hinv1.
    + rewrite Huld. destruct (r_success res);
        [by apply PyDict_del_NoDup | by apply PyDict_set_NoDup].
    + intros pos' sub' Hin.
      rewrite Hget; [apply (Hpend pos'); by eapply list_elem_of_delete_inv|].
      apply (Hkey pos'); [by apply Hpend1|].
      intros ->. eapply Hcross; [|by left].
      apply list_elem_of_fmap. by exists (pos, sub').
    + intros j res' Hin. rewrite Hc in Hin.
      apply elem_of_cons in Hin as [[= -> ->]|Hin].
      * unfold recorded. rewrite Huld.
        assert (Hearlier :
          earlier_failures (output_path, r_index res) st
          = earlier_failures (output_path, r_index res) st0).
        { unfold earlier_failures, key. rewrite Hidx. by rewrite (Hpend _ _ Hhere). }
        destruct (r_success res).
        -- by apply PyDict_get_del_eq.
        -- rewrite PyDict_get_set_eq. by rewrite Hearlier.
      * specialize (Hdone j res' Hin). unfold recorded in Hdone |- *.
        destruct Hinv as (_ & _ & _ & Hd).
        destruct (Hd j res' Hin) as (sub' & Hj & Hri & _).
        rewrite Hget; [done|]. rewrite Hri. apply (Hkey j sub' Hj).
        intros ->. apply Hfresh. apply list_elem_of_fmap. by exists (pos, res').
    + intros k Hk. rewrite Hget; [by apply Hother|].
      intros ->. by apply Hk.
Qed.

(** X12: after the parallel pass over a file whose indices are distinct,
    the table of failures says what the tasks returned: every line has its
    result in the history of the pool, the result of its own task, and the
    table has no record for a line whose task succeeded, and for a line
    whose task failed a record with the line's text and one failure more
    than the table counted for it before the pass.  The records of other
    output paths are as before. *)
Theorem process_file_parallel_records e st file_path output_path source target
    subs r st' :
  disk st !! file_path = Some subs ->
  NoDup (index <$> subs) ->
  NoDup (PyDict.keys (untranslated_line_details st)) ->
  process_file_parallel e st file_path output_path source target
  = (Returned r, st') ->
  (forall j res, (j, res) ∈ pool_history r -> recorded output_path st st' res)
  /\ (forall k, fst k <> output_path ->
        PyDict.get k (untranslated_line_details st')
        = PyDict.get k (untranslated_line_details st))
  /\ (forall j sub, subs !! j = Some sub -> exists res, (j, res) ∈ pool_history r)
  /\ (forall j res, (j, res) ∈ pool_history r ->
        exists sub, subs !! j = Some sub
                    /\ task_result_of e output_path source target subs st j sub
                         res).
Proof.
  intros Hfile Hdistinct Hnd Hrun.
  pose proof (process_file_parallel_history e st file_path output_path source
                target subs r st' Hfile Hrun) as [Hall Htasks].
  cut ((forall j res, (j, res) ∈ pool_history r ->
          recorded output_path st st' res)
       /\ (forall k, fst k <> output_path ->
             PyDict.get k (untranslated_line_details st')
             = PyDict.get k (untranslated_line_details st))).
  { intros [Hrec Hother]. split; [done|]. split; [done|]. by split. }
  clear Hall Htasks. revert Hrun.
  unfold process_file_parallel. rewrite Hfile.
  destruct (List.length subs =? 0) eqn:Hlen.
  - destruct (save_subtitles_effect e st [] output_path) as (_ & Hu & _).
    destruct (save_subtitles e st [] output_path) as [ok st1].
    intros [= <- <-]. cbn [snd pool_history] in *. split.
    + intros j res Hin. by apply elem_of_nil in Hin.
    + intros k _. by rewrite Hu.
  - destruct (as_completed_loop _ _ _ _ _ _ _ _ _) as [[acc| |] st1] eqn:Hloop;
      [|done..].
    eapply (as_completed_loop_recorded _ _ _ _ _ st) in Hloop
      as (_ & Hdone & Hother);
      [|done|apply pool_inv_start|done|done| |done].
    2:{ intros j res Hin. by apply elem_of_nil in Hin. }
    destruct (save_subtitles_effect e st1 (reassemble (results acc) subs)
                output_path) as (_ & Hu & _).
    destruct (save_subtitles e st1 _ output_path) as [ok st2].
    intros [= <- <-]. cbn [snd pool_history] in *. split.
    + intros j res Hin. specialize (Hdone j res Hin).
      unfold recorded in *. by rewrite Hu.
    + intros k Hk. rewrite Hu. by apply Hother.
Qed.

Lemma process_file_parallel_records_witness :
  exists r st',
    process_file_parallel echo_env (init_state default_settings disk_with_blank)
      "/subs/movie_cleaned.srt" "/subs/movie_ru.srt" "Auto" "Russian"
    = (Returned r, st')
    /\ (forall j res, (j, res) ∈ pool_history r ->
          recorded "/subs/movie_ru.srt"
            (init_state default_settings disk_with_blank) st' res)
    /\ (forall k, fst k <> "/subs/movie_ru.srt" ->
          PyDict.get k (untranslated_line_details st')
          = PyDict.get k (untranslated_line_details
                            (init_state default_settings disk_with_blank)))
    /\ (forall j sub, [sample_caption; blank_caption] !! j = Some sub ->
          exists res, (j, res) ∈ pool_history r)
    /\ (forall j res, (j, res) ∈ pool_history r ->
          exists sub,
            [sample_caption; blank_caption] !! j = Some sub
            /\ task_result_of echo_env "/subs/movie_ru.srt" "Auto" "Russian"
                 [sample_caption; blank_caption]
                 (init_state default_settings disk_with_blank) j sub res).
Proof.
  eexists _, _. split; [vm_compute; reflexivity|].
  eapply (process_file_parallel_records echo_env
            (init_state default_settings disk_with_blank)
            "/subs/movie_cleaned.srt" "/subs/movie_ru.srt" "Auto" "Russian"
            [sample_caption; blank_caption]).
  - vm_compute. reflexivity.
  - simpl. compute_done.
  - simpl. apply NoDup_nil_2.
  - vm_compute. reflexivity.
Defined.

(* ================================================================== *)
(** * Retry passes: what a pass can do to the table *)
(* ================================================================== *)

Lemma PyDict_set_length {K V} `{EqDecision K} (k : K) (v : V) d :
  List.length (PyDict.set k v d) <= S (List.length d).
Proof.
  induction d as [|[k1 v1] d IH]; [simpl; lia|].
  cbn [PyDict.set]. destruct (decide (k = k1)); simpl; lia.
Qed.

Lemma retry_items_account e pass_number items fa st fa' st' :
  retry_items e pass_number items fa st = (Returned fa', st') ->
  successes (fa_pass fa') + List.length (next_untranslated (fa_pass fa'))
  <= successes (fa_pass fa) + List.length (next_untranslated (fa_pass fa))
     + List.length items.
Proof.
  revert fa st. induction items as [|[k d] rest IH]; intros fa st.
  - intros [= <- _]. simpl. lia.
  - rewrite retry_items_cons.
    pose proof (retry_item_effect e pass_number k d fa st) as Heff.
    destruct (retry_item e pass_number (k, d) fa st) as [o1 st1].
    cbn [fst snd] in Heff.
    destruct Heff as [s Hf Ha Hu|s Hc Hf Ha Hu|s Hc Hf Ha Hu|s Hc Hf Ha Hu
                      |s subs' Hc Hf Ha Hu|s Hc Hf Ha Hu];
      [done|..]; intros Hrest; apply IH in Hrest;
      cbn [keep_record fa_pass next_untranslated successes List.length] in *;
      try lia.
    + pose proof (PyDict_set_length k d (next_untranslated (fa_pass fa))). lia.
    + pose proof (PyDict_set_length k
                    (with_failure_count MAX_FAILURES_PER_LINE d)
                    (next_untranslated (fa_pass fa))). lia.
    + pose proof (PyDict_set_length k
                    (with_failure_count (failure_count d + 1) d)
                    (next_untranslated (fa_pass fa))). lia.
Qed.

Lemma cap_items_account items next st :
  List.length (fst (cap_items items next st))
  <= List.length next + List.length items.
Proof.
  revert next st. induction items as [|[k d] rest IH]; intros next st.
  - simpl. lia.
  - cbn [cap_items List.length].
    match goal with
    | |- context [cap_items rest ?n ?s] => specialize (IH n s)
    end.
    pose proof (PyDict_set_length k (with_failure_count MAX_FAILURES_PER_LINE d)
                  next). lia.
Qed.

Lemma retry_groups_account e pass_number grouped acc st acc' st' :
  retry_groups e pass_number grouped acc st = (Returned acc', st') ->
  successes acc' + List.length (next_untranslated acc')
  <= successes acc + List.length (next_untranslated acc)
     + List.length (group_items grouped).
Proof.
  revert acc st. induction grouped as [|[p items] rest IH]; intros acc st.
  - intros [= <- _]. simpl. lia.
  - cbn [retry_groups group_items foldr snd]. fold (group_items rest).
    rewrite length_app.
    destruct (disk st !! p) as [subs|].
    + destruct (retry_items _ _ _ _ _) as [[fa| |] st1] eqn:Hitems; [|done..].
      apply retry_items_account in Hitems. cbn [fa_pass] in Hitems.
      intros Hrest. apply IH in Hrest. lia.
    + pose proof (cap_items_account items (next_untranslated acc) st) as Hcap.
      destruct (cap_items items (next_untranslated acc) st) as [next st1].
      cbn [fst] in Hcap. intros Hrest. apply IH in Hrest.
      cbn [successes next_untranslated] in Hrest. lia.
Qed.

(** X13: when a retry pass returns [(successes, remaining)], the two
    together are at most the number of records the pass started with, and
    [remaining] is the number of records it leaves in the table: a pass
    never makes the table longer. *)
Theorem retry_pass_account e st pass_number successes_n remaining st' :
  retry_untranslated_lines_sequential e st pass_number
  = (Returned (successes_n, remaining), st') ->
  successes_n + remaining <= List.length (untranslated_line_details st)
  /\ remaining = List.length (untranslated_line_details st').
Proof.
  unfold retry_untranslated_lines_sequential.
  destruct (untranslated_line_details st) as [|item rest] eqn:Hd.
  { intros [= <- <- <-]. rewrite Hd. simpl. lia. }
  rewrite <- Hd.
  pose proof (group_by_path_Permutation (untranslated_line_details st)) as Hperm.
  apply Permutation_length in Hperm.
  destruct (retry_groups _ _ _ _ _) as [[acc| |] st1] eqn:Hgroups; [|done..].
  apply retry_groups_account in Hgroups. cbn [successes next_untranslated] in Hgroups.
  intros [= <- <- <-]. cbn [untranslated_line_details set_untranslated_line_details].
  simpl in Hgroups. split; [lia | done].
Qed.

Lemma retry_pass_account_witness :
  exists successes_n remaining st',
    retry_untranslated_lines_sequential echo_env after_parallel_pass 1
    = (Returned (successes_n, remaining), st')
    /\ successes_n + remaining
       <= List.length (untranslated_line_details after_parallel_pass)
    /\ remaining = List.length (untranslated_line_details st').
Proof.
  eexists _, _, _. split; [vm_compute; reflexivity|].
  eapply (retry_pass_account echo_env after_parallel_pass 1).
  vm_compute. reflexivity.
Defined.

Lemma descends_set table k d d' next :
  (k, d) ∈ table ->
  original_text d' = original_text d ->
  (failure_count d <= MAX_FAILURES_PER_LINE ->
   failure_count d <= failure_count d' <= MAX_FAILURES_PER_LINE) ->
  (forall x, x ∈ next -> descends table x) ->
  forall x, x ∈ PyDict.set k d' next -> descends table x.
Proof.
  intros Hin Ht Hc Hnext [k1 d1] Hx.
  apply PyDict_set_elem in Hx as [[= -> ->]|Hx]; [|by apply Hnext].
  exists d. cbn [fst snd]. split; [done | split; [done | exact Hc]].
Qed.

Lemma retry_items_descends table e pass_number items fa st fa' st' :
  (forall x, x ∈ items -> x ∈ table) ->
  (forall x, x ∈ next_untranslated (fa_pass fa) -> descends table x) ->
  retry_items e pass_number items fa st = (Returned fa', st') ->
  forall x, x ∈ next_untranslated (fa_pass fa') -> descends table x.
Proof.
  revert fa st. induction items as [|[k d] rest IH]; intros fa st Hitems Hnext.
  - by intros [= <- _].
  - rewrite retry_items_cons.
    assert (Hkd : (k, d) ∈ table) by (apply Hitems; by left).
    assert (Hrest : forall x, x ∈ rest -> x ∈ table).
    { intros x Hx. apply Hitems. by right. }
    pose proof (retry_item_effect e pass_number k d fa st) as Heff.
    destruct (retry_item e pass_number (k, d) fa st) as [o1 st1].
    cbn [fst snd] in Heff.
    destruct Heff as [s Hf Ha Hu|s Hc Hf Ha Hu|s Hc Hf Ha Hu|s Hc Hf Ha Hu
                      |s subs' Hc Hf Ha Hu|s Hc Hf Ha Hu];
      [done|..]; apply IH; try done;
      cbn [keep_record fa_pass next_untranslated];
      apply (descends_set table k d); try done;
      unfold with_failure_count; cbn [failure_count]; lia.
Qed.

Lemma cap_items_descends table items next st :
  (forall x, x ∈ items -> x ∈ table) ->
  (forall x, x ∈ next -> descends table x) ->
  forall x, x ∈ fst (cap_items items next st) -> descends table x.
Proof.
  revert next st. induction items as [|[k d] rest IH]; intros next st Hitems Hnext.
  - done.
  - cbn [cap_items]. apply IH.
    + intros x Hx. apply Hitems. by right.
    + apply (descends_set table k d);
        first [done | apply Hitems; by left
              | unfold with_failure_count; cbn [failure_count]; lia].
Qed.

Lemma retry_groups_descends table e pass_number grouped acc st acc' st' :
  (forall x, x ∈ group_items grouped -> x ∈ table) ->
  (forall x, x ∈ next_untranslated acc -> descends table x) ->
  retry_groups e pass_number grouped acc st = (Returned acc', st') ->
  forall x, x ∈ next_untranslated acc' -> descends table x.
Proof.
  revert acc st. induction grouped as [|[p items] rest IH];
    intros acc st Hitems Hnext.
  - by intros [= <- _].
  - cbn [retry_groups]. cbn [group_items foldr snd] in Hitems.
    fold (group_items rest) in Hitems.
    assert (Hhere : forall x, x ∈ items -> x ∈ table).
    { intros x Hx. apply Hitems, elem_of_app. by left. }
    assert (Hrest : forall x, x ∈ group_items rest -> x ∈ table).
    { intros x Hx. apply Hitems, elem_of_app. by right. }
    destruct (disk st !! p) as [subs|].
    + destruct (retry_items _ _ _ _ _) as [[fa| |] st1] eqn:Hrun; [|done..].
      apply IH; [done|].
      eapply (retry_items_descends table _ _ items
                {| fa_subs := subs; fa_modified := false; fa_pass := acc |});
        [exact Hhere | exact Hnext | exact Hrun].
    + pose proof (cap_items_descends table items (next_untranslated acc) st
                    Hhere Hnext) as Hcap.
      destruct (cap_items items (next_untranslated acc) st) as [next st1].
      by apply IH.
Qed.

(** X14: a retry pass that returns creates no record and rewrites no
    record's text: every record it leaves has the key and the text of a
    record it started with, and if that one's count was within the cap, the
    new count is not smaller and is within the cap too. *)
Theorem retry_pass_descends e st pass_number res st' :
  retry_untranslated_lines_sequential e st pass_number = (Returned res, st') ->
  forall x, x ∈ untranslated_line_details st' ->
    descends (untranslated_line_details st) x.
Proof.
  unfold retry_untranslated_lines_sequential.
  destruct (untranslated_line_details st) as [|item rest] eqn:Hd.
  { intros [= _ <-]. rewrite Hd. intros x Hx. by apply elem_of_nil in Hx. }
  rewrite <- Hd.
  pose proof (group_by_path_Permutation (untranslated_line_details st)) as Hperm.
  destruct (retry_groups _ _ _ _ _) as [[acc| |] st1] eqn:Hgroups; [|done..].
  intros [= _ <-]. cbn [untranslated_line_details set_untranslated_line_details].
  eapply (retry_groups_descends _ _ _ _
            {| next_untranslated := []; successes := 0 |}); [| |exact Hgroups].
  - intros x Hx. by rewrite <- Hperm.
  - intros x Hx. by apply elem_of_nil in Hx.
Qed.

Lemma retry_pass_descends_witness :
  exists res st',
    retry_untranslated_lines_sequential echo_env after_parallel_pass 1
    = (Returned res, st')
    /\ forall x, x ∈ untranslated_line_details st' ->
         descends (untranslated_line_details after_parallel_pass) x.
Proof.
  eexists _, _. split; [vm_compute; reflexivity|].
  eapply (retry_pass_descends echo_env after_parallel_pass 1).
  vm_compute. reflexivity.
Defined.

(* ================================================================== *)
(** * Retry passes: records whose file or line is not what it was *)
(* ================================================================== *)

Lemma group_items_member grouped p items x :
  (p, items) ∈ grouped -> x ∈ items -> x ∈ group_items grouped.
Proof.
  induction grouped as [|[p1 items1] rest IH]; intros Hg Hx.
  - by apply elem_of_nil in Hg.
  - cbn [group_items foldr snd]. fold (group_items rest).
    apply elem_of_app. apply elem_of_cons in Hg as [[= <- <-]|Hg].
    + by left.
    + right. by apply IH.
Qed.

Lemma PyDict_set_keys_intro {K V} `{EqDecision K} (k x : K) (v : V) d :
  x = k \/ x ∈ PyDict.keys d -> x ∈ PyDict.keys (PyDict.set k v d).
Proof.
  unfold PyDict.keys. induction d as [|[k1 v1] d IH].
  - intros [->|Hx]; [simpl; by left | by apply elem_of_nil in Hx].
  - cbn [PyDict.set]. destruct (decide (k = k1)) as [->|Hne];
      rewrite !fmap_cons; cbn [fst].
    + intros [->|Hx]; [by left | done].
    + intros [->|Hx].
      * right. apply IH. by left.
      * apply elem_of_cons in Hx as [->|Hx]; [by left|].
        right. apply IH. by right.
Qed.

(** Putting the records of a group at the cap touches the table only. *)
Lemma cap_items_at_cap items next st :
  let r := cap_items items next st in
  (exists table, snd r = set_untranslated_line_details table st)
  /\ ((forall x, x ∈ next -> failure_count (snd x) = MAX_FAILURES_PER_LINE) ->
      forall x, x ∈ fst r -> failure_count (snd x) = MAX_FAILURES_PER_LINE)
  /\ (forall k, k ∈ PyDict.keys next \/ k ∈ PyDict.keys items ->
        k ∈ PyDict.keys (fst r)).
Proof.
  revert next st. induction items as [|[k d] rest IH]; intros next st.
  - cbn [cap_items fst snd]. split; [|split].
    + exists (untranslated_line_details st). by destruct st.
    + done.
    + intros k [Hk|Hk]; [done | by apply elem_of_nil in Hk].
  - cbn [cap_items].
    match goal with
    | |- context [cap_items rest ?n ?s] =>
        destruct (IH n s) as ((table & Htable) & Hcap & Hkeys)
    end.
    split; [|split].
    + exists table. cbv zeta. by rewrite Htable.
    + intros Hnext. apply Hcap. intros [k1 d1] Hx.
      apply PyDict_set_elem in Hx as [[= -> ->]|Hx]; [done | by apply Hnext].
    + intros k1 [Hk1|Hk1].
      * apply Hkeys. left. apply PyDict_set_keys_intro. by right.
      * unfold PyDict.keys in Hk1. rewrite fmap_cons in Hk1.
        apply elem_of_cons in Hk1 as [->|Hk1].
        -- apply Hkeys. left. apply PyDict_set_keys_intro. by left.
        -- apply Hkeys. by right.
Qed.

Lemma retry_groups_missing e pass_number grouped acc st :
  (forall p items x, (p, items) ∈ grouped -> x ∈ items -> disk st !! p = None) ->
  exists next table,
    retry_groups e pass_number grouped acc st
    = (Returned {| next_untranslated := next; successes := successes acc |},
       set_untranslated_line_details table st)
    /\ ((forall x, x ∈ next_untranslated acc ->
           failure_count (snd x) = MAX_FAILURES_PER_LINE) ->
        forall x, x ∈ next -> failure_count (snd x) = MAX_FAILURES_PER_LINE)
    /\ (forall k, k ∈ PyDict.keys (next_untranslated acc)
                  \/ k ∈ PyDict.keys (group_items grouped) ->
          k ∈ PyDict.keys next).
Proof.
  revert acc st. induction grouped as [|[p items] rest IH]; intros acc st Hgone.
  - exists (next_untranslated acc), (untranslated_line_details st).
    cbn [retry_groups]. split; [by destruct acc, st|]. split; [done|].
    intros k [Hk|Hk]; [done | by apply elem_of_nil in Hk].
  - cbn [retry_groups group_items foldr snd]. fold (group_items rest).
    assert (Hrest : forall table p' items' x,
              (p', items') ∈ rest -> x ∈ items' ->
              disk (set_untranslated_line_details table st) !! p' = None).
    { intros table p' items' x Hin Hx. simpl. eapply Hgone; [by right | done]. }
    destruct (disk st !! p) as [subs|] eqn:Hfile.
    + destruct items as [|x items].
      * cbn [retry_items fa_modified fa_pass].
        destruct (IH acc st) as (next & table & Hrun & Hcap & Hkeys).
        { intros p' items' x Hin Hx. eapply Hgone; [by right | done]. }
        exists next, table. split; [done|]. split; [done|].
        intros k Hk. apply Hkeys. by rewrite app_nil_l in Hk.
      * rewrite (Hgone p (x :: items) x) in Hfile; [done | by left | by left].
    + destruct (cap_items_at_cap items (next_untranslated acc) st)
        as ((table1 & Htable1) & Hcap1 & Hkeys1).
      destruct (cap_items items (next_untranslated acc) st) as [next1 st1].
      cbn [fst snd] in *. subst st1.
      destruct (IH {| next_untranslated := next1; successes := successes acc |}
                  (set_untranslated_line_details table1 st) (Hrest table1))
        as (next & table & Hrun & Hcap & Hkeys).
      exists next, table. split; [exact Hrun|]. split.
      * intros Hnext. apply Hcap. cbn [next_untranslated]. by apply Hcap1.
      * intros k Hk. apply Hkeys. cbn [next_untranslated].
        unfold PyDict.keys in Hk. rewrite fmap_app in Hk.
        destruct Hk as [Hk|Hk]; [left; apply Hkeys1; by left|].
        apply elem_of_app in Hk as [Hk|Hk]; [left; apply Hkeys1; by right|].
        by right.
Qed.

(** X15: when none of the output files named by the records exists any
    more, a retry pass translates nothing: it returns no success, keeps
    every key, puts every record at the cap, and leaves the disk, the
    request counter, the history of attempts and the clock of the
    environment (flag, service, writer) as they were. *)
Theorem retry_pass_missing_outputs e st pass_number :
  (forall k d, (k, d) ∈ untranslated_line_details st -> disk st !! fst k = None) ->
  exists st',
    retry_untranslated_lines_sequential e st pass_number
    = (Returned (0, List.length (untranslated_line_details st')), st')
    /\ disk st' = disk st
    /\ request_count st' = request_count st
    /\ attempts st' = attempts st
    /\ clock st' = clock st
    /\ (forall x, x ∈ untranslated_line_details st' ->
          failure_count (snd x) = MAX_FAILURES_PER_LINE)
    /\ (forall k, k ∈ PyDict.keys (untranslated_line_details st) ->
          k ∈ PyDict.keys (untranslated_line_details st')).
Proof.
  intros Hgone. unfold retry_untranslated_lines_sequential.
  destruct (untranslated_line_details st) as [|item rest] eqn:Hd.
  { exists st. rewrite Hd. repeat split; try done.
    intros x Hx. by apply elem_of_nil in Hx. }
  rewrite <- Hd in *.
  pose proof (group_by_path_Permutation (untranslated_line_details st)) as Hperm.
  pose proof (group_by_path_well_grouped (untranslated_line_details st)) as Hwg.
  destruct (retry_groups_missing e pass_number
              (group_by_path (untranslated_line_details st))
              {| next_untranslated := []; successes := 0 |} st)
    as (next & table & Hrun & Hcap & Hkeys).
  { intros p items [k d] Hg Hx.
    rewrite <- (Hwg p items k d Hg Hx). apply (Hgone k d).
    rewrite <- Hperm. by eapply group_items_member. }
  rewrite Hrun.
  exists (set_untranslated_line_details next
            (set_untranslated_line_details table st)).
  split; [reflexivity|].
  cbn [disk request_count attempts clock untranslated_line_details
       set_untranslated_line_details successes next_untranslated] in *.
  repeat split; try done.
  - apply Hcap. intros x Hx. by apply elem_of_nil in Hx.
  - intros k Hk. apply Hkeys. right. unfold PyDict.keys. by rewrite Hperm.
Qed.

Lemma retry_pass_missing_outputs_witness :
  exists st',
    retry_untranslated_lines_sequential echo_env orphaned_records 1
    = (Returned (0, List.length (untranslated_line_details st')), st')
    /\ disk st' = disk orphaned_records
    /\ request_count st' = request_count orphaned_records
    /\ attempts st' = attempts orphaned_records
    /\ clock st' = clock orphaned_records
    /\ (forall x, x ∈ untranslated_line_details st' ->
          failure_count (snd x) = MAX_FAILURES_PER_LINE)
    /\ (forall k, k ∈ PyDict.keys (untranslated_line_details orphaned_records) ->
          k ∈ PyDict.keys (untranslated_line_details st')).
Proof.
  apply (retry_pass_missing_outputs echo_env orphaned_records 1).
  intros k d _. simpl. apply lookup_empty.
Defined.

(** A record whose line has changed is dropped after the cancel flag was
    read: only the clock moves. *)
Lemma retry_items_changed e pass_number items fa st :
  never_cancelled e ->
  (forall x, x ∈ items ->
     failure_count (snd x) < MAX_FAILURES_PER_LINE
     /\ exists sub,
          List.find (fun s => bool_decide (index s = snd (fst x))) (fa_subs fa)
          = Some sub
          /\ PyStr.strip (text sub) <> PyStr.strip (original_text (snd x))) ->
  exists n,
    retry_items e pass_number items fa st = (Returned fa, set_clock n st).
Proof.
  intros Hrun. revert st. induction items as [|[k d] rest IH]; intros st Hitems.
  - exists (clock st). cbn [retry_items]. by destruct st.
  - rewrite retry_items_cons. unfold retry_item, read_flag.
    rewrite Hrun. cbn [negb].
    destruct (Hitems (k, d)) as (Hcount & sub & Hfind & Hdiff); [by left|].
    cbn [fst snd] in *.
    rewrite (proj2 (Nat.leb_gt _ _) Hcount), Hfind.
    apply String.eqb_neq in Hdiff. rewrite Hdiff. cbn [negb].
    destruct (IH (tick st)) as (n & Hrest).
    { intros x Hx. apply Hitems. by right. }
    exists n. by rewrite Hrest.
Qed.

Lemma retry_groups_changed e pass_number grouped acc st :
  never_cancelled e ->
  well_grouped grouped ->
  (forall p items x, (p, items) ∈ grouped -> x ∈ items -> line_changed st x) ->
  exists n,
    retry_groups e pass_number grouped acc st = (Returned acc, set_clock n st).
Proof.
  intros Hrun. revert st.
  induction grouped as [|[p items] rest IH]; intros st Hwg Hchanged.
  - exists (clock st). cbn [retry_groups]. by destruct st.
  - cbn [retry_groups].
    assert (Hwg' : well_grouped rest).
    { intros p' items' k d Hin Hx. eapply Hwg; [by right | done]. }
    assert (Hrest : forall n p' items' x,
              (p', items') ∈ rest -> x ∈ items' ->
              line_changed (set_clock n st) x).
    { intros n p' items' x Hin Hx. eapply Hchanged; [by right | done]. }
    destruct (disk st !! p) as [subs|] eqn:Hfile.
    + destruct (retry_items_changed e pass_number items
                  {| fa_subs := subs; fa_modified := false; fa_pass := acc |}
                  st Hrun) as (n & Hitems).
      { intros [k d] Hx.
        destruct (Hchanged p items (k, d)) as (Hc & subs' & sub & Hf & Hfind & Hd);
          [by left | done|].
        cbn [fst snd] in *. rewrite (Hwg p items k d) in Hf; [|by left | done].
        rewrite Hfile in Hf. injection Hf as <-. eauto. }
      rewrite Hitems. cbn [fa_modified fa_pass].
      destruct (IH (set_clock n st) Hwg' (Hrest n)) as (m & Hgo).
      exists m. by rewrite Hgo.
    + destruct items as [|[k d] items].
      * cbn [cap_items]. destruct (IH st Hwg') as (m & Hgo).
        { intros p' items' x Hin Hx. eapply Hchanged; [by right | done]. }
        exists m. rewrite <- Hgo. by destruct acc.
      * destruct (Hchanged p ((k, d) :: items) (k, d))
          as (_ & subs' & sub & Hf & _); [by left | by left|].
        cbn [fst] in Hf. rewrite (Hwg p ((k, d) :: items) k d) in Hf;
          [congruence | by left | by left].
Qed.

(** X16: records whose lines have since been given another text are
    stale: while the user does not cancel, a pass over a table of such
    records drops them all without asking the service and without writing:
    it returns [(0, 0)], empties the table and leaves the disk, the request
    counter, the cache and the history of attempts as they were. *)
Theorem retry_pass_changed_lines e st pass_number :
  never_cancelled e ->
  (forall x, x ∈ untranslated_line_details st -> line_changed st x) ->
  exists st',
    retry_untranslated_lines_sequential e st pass_number = (Returned (0, 0), st')
    /\ untranslated_line_details st' = []
    /\ disk st' = disk st
    /\ request_count st' = request_count st
    /\ translation_cache st' = translation_cache st
    /\ attempts st' = attempts st.
Proof.
  intros Hrun Hchanged. unfold retry_untranslated_lines_sequential.
  destruct (untranslated_line_details st) as [|item rest] eqn:Hd.
  { exists st. by rewrite Hd. }
  rewrite <- Hd in *.
  pose proof (group_by_path_Permutation (untranslated_line_details st)) as Hperm.
  destruct (retry_groups_changed e pass_number
              (group_by_path (untranslated_line_details st))
              {| next_untranslated := []; successes := 0 |} st Hrun
              (group_by_path_well_grouped _)) as (n & Hgo).
  { intros p items x Hg Hx. apply Hchanged.
    rewrite <- Hperm. by eapply group_items_member. }
  rewrite Hgo. eexists. split; [reflexivity|]. by repeat split.
Qed.

Lemma retry_pass_changed_lines_witness :
  exists st',
    retry_untranslated_lines_sequential echo_env stale_records 1
    = (Returned (0, 0), st')
    /\ untranslated_line_details st' = []
    /\ disk st' = disk stale_records
    /\ request_count st' = request_count stale_records
    /\ translation_cache st' = translation_cache stale_records
    /\ attempts st' = attempts stale_records.
Proof.
  apply (retry_pass_changed_lines echo_env stale_records 1).
  - intros n. reflexivity.
  - intros x Hx. cbn in Hx. apply list_elem_of_singleton in Hx as ->.
    split; [unfold MAX_FAILURES_PER_LINE; simpl; lia|].
    exists [edited_caption; second_caption], edited_caption.
    split; [reflexivity|]. split; [reflexivity|]. vm_compute. discriminate.
Defined.

(* ================================================================== *)
(** * Runs that translate nothing *)
(* ================================================================== *)

Lemma analyze_files_none e files valid st :
  never_cancelled e ->
  (forall f, f ∈ files -> disk st !! f = None \/ disk st !! f = Some []) ->
  exists n, analyze_files e files valid st = (valid, set_clock n st).
Proof.
  intros Hrun. revert st. induction files as [|fp rest IH]; intros st Hfiles.
  - exists (clock st). cbn [analyze_files]. by destruct st.
  - cbn [analyze_files read_flag]. rewrite Hrun. cbn [negb disk tick set_clock].
    destruct (IH (tick st)) as (n & Hrest).
    { intros f Hf. simpl. apply Hfiles. by right. }
    exists n.
    destruct (Hfiles fp) as [-> | ->]; [by left | exact Hrest | exact Hrest].
Qed.

(** X17: a run over files of which none can be read or holds a caption
    ends with the error dialog and has touched nothing, while the user does
    not cancel: no request, no attempt, no file written, no record. *)
Theorem translate_files_thread_nothing_valid e st files :
  never_cancelled e ->
  (forall f, f ∈ files -> disk st !! f = None \/ disk st !! f = Some []) ->
  let r := translate_files_thread e st files in
  fst r = TranslationFailed
  /\ disk (snd r) = disk st
  /\ request_count (snd r) = request_count st
  /\ translation_cache (snd r) = translation_cache st
  /\ attempts (snd r) = attempts st.
Proof.
  intros Hrun Hfiles. unfold translate_files_thread.
  destruct files as [|f files]; [by repeat split|].
  destruct (analyze_files_none e (f :: files) []
              (set_final_untranslated_count 0
                 (set_untranslated_line_details [] (set_output_files [] st)))
              Hrun) as (n & Hnone).
  { intros f' Hf'. simpl. by apply Hfiles. }
  rewrite Hnone. unfold read_flag. rewrite Hrun. cbn [negb].
  by repeat split.
Qed.

Lemma translate_files_thread_nothing_valid_witness :
  let r := translate_files_thread echo_env
             (init_state default_settings empty_file_disk)
             ["/subs/movie_cleaned.srt"; "/subs/missing_cleaned.srt"] in
  fst r = TranslationFailed
  /\ disk (snd r) = disk (init_state default_settings empty_file_disk)
  /\ request_count (snd r)
     = request_count (init_state default_settings empty_file_disk)
  /\ translation_cache (snd r)
     = translation_cache (init_state default_settings empty_file_disk)
  /\ attempts (snd r) = attempts (init_state default_settings empty_file_disk).
Proof.
  apply (translate_files_thread_nothing_valid echo_env
           (init_state default_settings empty_file_disk)
           ["/subs/movie_cleaned.srt"; "/subs/missing_cleaned.srt"]).
  - intros n. reflexivity.
  - intros f Hf. apply elem_of_cons in Hf as [->|Hf]; [by right|].
    apply list_elem_of_singleton in Hf as ->. by left.
Defined.

(** X18: a run that finds the cancel flag down the first two times it
    reads it (in the analysis loop, which it leaves at once, and right
    after that loop) ends as cancelled: the summary says so, counts no
    caption and no finished file, and the run has made no request, no
    attempt and no write. *)
Theorem translate_files_thread_cancelled_at_start e st files :
  files <> [] ->
  translation_in_progress e (clock st) = false ->
  translation_in_progress e (S (clock st)) = false ->
  let r := translate_files_thread e st files in
  fst r = Finalized {| files_ok := 0; files_total := List.length files;
                       subs_ok := 0; subs_total := 0;
                       final_untranslated := 0; cancelled := true |}
  /\ disk (snd r) = disk st
  /\ request_count (snd r) = request_count st
  /\ attempts (snd r) = attempts st.
Proof.
  intros Hfiles Hfirst Hsecond. unfold translate_files_thread.
  destruct files as [|f files]; [done|].
  cbn [analyze_files read_flag clock set_final_untranslated_count
       set_untranslated_line_details set_output_files].
  rewrite Hfirst. simpl. rewrite Hsecond. simpl.
  by repeat split.
Qed.

Lemma translate_files_thread_cancelled_at_start_witness :
  let r := translate_files_thread cancelled_env
             (init_state default_settings one_line_disk)
             ["/subs/movie_cleaned.srt"] in
  fst r = Finalized {| files_ok := 0;
                       files_total := List.length ["/subs/movie_cleaned.srt"];
                       subs_ok := 0; subs_total := 0;
                       final_untranslated := 0; cancelled := true |}
  /\ disk (snd r) = disk (init_state default_settings one_line_disk)
  /\ request_count (snd r)
     = request_count (init_state default_settings one_line_disk)
  /\ attempts (snd r) = attempts (init_state default_settings one_line_disk).
Proof.
  apply (translate_files_thread_cancelled_at_start cancelled_env
           (init_state default_settings one_line_disk)
           ["/subs/movie_cleaned.srt"]).
  - discriminate.
  - reflexivity.
  - reflexivity.
Defined.

(* ================================================================== *)
(** * A run writes its output files and nothing else *)
(* ================================================================== *)

Section Confined.

Variable outs : string -> Prop.

Lemma confined_refl st : confined outs st st.
Proof. split; [done|]. intros H. split; [by left | done]. Qed.

Lemma confined_trans st1 st2 st3 :
  confined outs st1 st2 -> confined outs st2 st3 -> confined outs st1 st3.
Proof.
  intros [Hc1 H1] [Hc2 H2]. split; [congruence|].
  intros Hin. destruct (H1 Hin) as [Hd1 Hin2]. destruct (H2 Hin2) as [Hd2 Hin3].
  split; [|done]. intros p.
  destruct (Hd2 p) as [Hp2|?]; [|by right].
  destruct (Hd1 p) as [Hp1|?]; [left; congruence | by right].
Qed.

(** A step that leaves the settings, the disk and the table alone. *)
Lemma confined_same st st' :
  config st' = config st -> disk st' = disk st ->
  untranslated_line_details st' = untranslated_line_details st ->
  confined outs st st'.
Proof.
  intros Hc Hd Hu. split; [done|]. intros Hin.
  split; [left; by rewrite Hd | by rewrite Hu].
Qed.

(** A step that leaves the settings and the disk alone and keeps the table
    within [outs]. *)
Lemma confined_table st st' :
  config st' = config st -> disk st' = disk st ->
  (in_outputs outs (untranslated_line_details st) ->
   in_outputs outs (untranslated_line_details st')) ->
  confined outs st st'.
Proof.
  intros Hc Hd Hu. split; [done|]. intros Hin.
  split; [left; by rewrite Hd | by apply Hu].
Qed.

Lemma save_subtitles_confined e st subs output_path :
  outs output_path ->
  confined outs st (snd (save_subtitles e st subs output_path)).
Proof.
  intros Hout.
  destruct (save_subtitles_effect e st subs output_path)
    as (_ & Hu & Hc & _ & Hd).
  split; [done|]. intros Hin. split; [|by rewrite Hu].
  intros p. destruct Hd as [Hd|Hd]; [left; by rewrite Hd|].
  destruct (decide (p = output_path)) as [->|Hne]; [by right|].
  left. rewrite Hd. by apply lookup_insert_ne.
Qed.

Lemma as_completed_step_confined e output_path source target subs pending acc st :
  outs output_path ->
  match as_completed_step e output_path source target subs pending acc st with
  | Continue _ _ st' => confined outs st st'
  | Raise _ st' => confined outs st st'
  end.
Proof.
  intros Hout.
  pose proof (as_completed_step_frame e output_path source target subs pending
                acc st) as Hframe.
  destruct (as_completed_step _ _ _ _ _ _ _ _) as [p1 a1 s1|o s1] eqn:Hstep.
  - destruct Hframe as (Hc & _ & _ & Hd).
    apply as_completed_step_continue in Hstep
      as (choice & pos & sub & res & _ & _ & _ & _ & _ & _ & _ & _ & Hu).
    apply confined_table; [done | done|]. intros Hin. rewrite Hu.
    destruct (r_success res).
    + by apply PyDict_del_Forall.
    + by apply PyDict_set_Forall.
  - destruct Hframe as (Hc & _ & _ & Hd).
    apply confined_same; [done | done|].
    revert Hstep. unfold as_completed_step.
    destruct (pending !! _) as [[pos sub]|]; [|by intros [= _ <-]].
    pose proof (translate_subtitle_frame e (tick st) sub source target)
      as (_ & Hu & _).
    destruct (translate_subtitle _ _ _ _ _) as [r st2]. cbn [read_flag].
    cbn [snd] in Hu.
    destruct (negb _); [by intros [= _ <-]|].
    by destruct (collect_future _ _ _ _ _ _).
Qed.

Lemma as_completed_loop_confined e output_path source target subs turns pending
    acc st :
  outs output_path ->
  confined outs st
    (snd (as_completed_loop e output_path source target subs turns pending acc st)).
Proof.
  intros Hout. revert pending acc st.
  induction turns as [|n IH]; intros pending acc st.
  - apply confined_refl.
  - cbn [as_completed_loop].
    pose proof (as_completed_step_confined e output_path source target subs
                  pending acc st Hout) as Hstep.
    destruct (as_completed_step _ _ _ _ _ _ _ _) as [p1 a1 s1|o s1].
    + eapply confined_trans; [exact Hstep | apply IH].
    + exact Hstep.
Qed.

Lemma process_file_parallel_confined e st file_path output_path source target :
  outs output_path ->
  confined outs st
    (snd (process_file_parallel e st file_path output_path source target)).
Proof.
  intros Hout. unfold process_file_parallel.
  destruct (disk st !! file_path) as [subs|]; [|apply confined_refl].
  destruct (List.length subs =? 0).
  - pose proof (save_subtitles_confined e st [] output_path Hout) as Hs.
    by destruct (save_subtitles e st [] output_path).
  - pose proof (as_completed_loop_confined e output_path source target subs
                  (List.length subs) (imap pair subs) empty_acc st Hout) as Hloop.
    destruct (as_completed_loop _ _ _ _ _ _ _ _ _) as [[acc| |] st1];
      cbn [snd] in *; [|done..].
    pose proof (save_subtitles_confined e st1 (reassemble (results acc) subs)
                  output_path Hout) as Hs.
    destruct (save_subtitles e st1 _ output_path) as [ok st2].
    eapply confined_trans; [exact Hloop | exact Hs].
Qed.

Lemma get_output_path_config st1 st2 input_path target :
  config st1 = config st2 ->
  get_output_path st1 input_path target = get_output_path st2 input_path target.
Proof. intros Hc. apply get_output_path_naming. by rewrite Hc. Qed.

Lemma translate_valid_files_confined e valid done st :
  (forall fp n, (fp, n) ∈ valid ->
     outs (get_output_path st fp (target_lang (config st)))) ->
  confined outs st (snd (translate_valid_files e valid done st)).
Proof.
  revert done st. induction valid as [|[fp count] rest IH]; intros done st Hvalid.
  - apply confined_refl.
  - cbn [translate_valid_files read_flag].
    destruct (negb _); [by apply confined_same|].
    assert (Htick : confined outs st (tick st)) by (by apply confined_same).
    assert (Hout : outs (get_output_path (tick st) fp
                           (target_lang (config (tick st))))).
    { rewrite (get_output_path_config (tick st) st) by done.
      apply (Hvalid fp count). by left. }
    pose proof (process_file_parallel_confined e (tick st) fp _
                  (source_lang (config (tick st)))
                  (target_lang (config (tick st))) Hout) as Hp.
    assert (Hnext : forall st1, config st1 = config st ->
              forall fp' n, (fp', n) ∈ rest ->
                outs (get_output_path st1 fp' (target_lang (config st1)))).
    { intros st1 Hc fp' n Hin.
      rewrite (get_output_path_config st1 st), Hc by done.
      apply (Hvalid fp' n). by right. }
    destruct (process_file_parallel _ _ _ _ _ _) as [[r| |] st1];
      cbn [snd] in Hp.
    + eapply confined_trans; [exact Htick|].
      eapply confined_trans; [exact Hp|].
      assert (Hnote : confined outs st1
                        (note_output_file
                           (get_output_path (tick st) fp
                              (target_lang (config (tick st)))) st1)).
      { unfold note_output_file. destruct (path_exists st1 _);
          [|apply confined_refl].
        destruct (bool_decide _); [apply confined_refl | by apply confined_same]. }
      eapply confined_trans; [exact Hnote|]. apply IH. apply Hnext.
      destruct Hnote as [Hc3 _]. destruct Hp as [Hc2 _]. by rewrite Hc3, Hc2.
    + eapply confined_trans; [exact Htick | exact Hp].
    + eapply confined_trans; [exact Htick|].
      eapply confined_trans; [exact Hp|]. apply IH. apply Hnext.
      by destruct Hp as [Hc2 _].
Qed.

Lemma retry_items_table e pass_number items fa st :
  in_outputs outs items ->
  in_outputs outs (untranslated_line_details st) ->
  in_outputs outs
    (untranslated_line_details (snd (retry_items e pass_number items fa st))).
Proof.
  revert fa st. induction items as [|[k d] rest IH]; intros fa st Hitems Hin.
  - done.
  - rewrite retry_items_cons. apply Forall_cons in Hitems as [Hk Hrest].
    cbn [fst] in Hk.
    pose proof (retry_item_effect e pass_number k d fa st) as Heff.
    destruct (retry_item e pass_number (k, d) fa st) as [o1 st1].
    cbn [fst snd] in Heff.
    destruct Heff as [s Hf Ha Hu|s Hc Hf Ha Hu|s Hc Hf Ha Hu|s Hc Hf Ha Hu
                      |s subs' Hc Hf Ha Hu|s Hc Hf Ha Hu];
      [cbn [snd]; by rewrite Hu|..]; apply IH; try done;
      rewrite Hu; try done; by apply PyDict_set_Forall.
Qed.

Lemma cap_items_table items next st :
  in_outputs outs items ->
  in_outputs outs (untranslated_line_details st) ->
  in_outputs outs (untranslated_line_details (snd (cap_items items next st))).
Proof.
  revert next st. induction items as [|[k d] rest IH]; intros next st Hitems Hin.
  - done.
  - cbn [cap_items]. apply Forall_cons in Hitems as [Hk Hrest].
    apply IH; [done|]. by apply PyDict_set_Forall.
Qed.

Lemma retry_groups_confined e pass_number grouped acc st :
  well_grouped grouped ->
  in_outputs outs (group_items grouped) ->
  confined outs st (snd (retry_groups e pass_number grouped acc st)).
Proof.
  revert acc st. induction grouped as [|[p items] rest IH];
    intros acc st Hwg Hitems.
  - apply confined_refl.
  - assert (Hwg' : well_grouped rest).
    { intros p' items' k d Hin. apply Hwg. by right. }
    cbn [group_items foldr snd] in Hitems. fold (group_items rest) in Hitems.
    apply Forall_app in Hitems as [Hhere Hrest].
    cbn [retry_groups].
    destruct (disk st !! p) as [subs|] eqn:Hfile.
    + pose proof (retry_items_modified e pass_number items
                    {| fa_subs := subs; fa_modified := false; fa_pass := acc |} st)
        as ((Hc & _ & _ & Hd) & new & _ & Hmod).
      pose proof (retry_items_table e pass_number items
                    {| fa_subs := subs; fa_modified := false; fa_pass := acc |}
                    st Hhere) as Htable.
      destruct (retry_items _ _ _ _ _) as [[fa| |] st1]; cbn [fst snd] in *;
        [|by apply confined_table..].
      eapply confined_trans; [by apply confined_table|].
      eapply confined_trans; [|by apply IH].
      destruct (fa_modified fa) eqn:Hm; [|apply confined_refl].
      apply save_subtitles_confined.
      destruct (Hmod fa eq_refl Hm) as [?|(k & d & Hin & _)]; [done|].
      rewrite <- (Hwg p items k d); [|by left | done].
      by apply (proj1 (Forall_forall _ _) Hhere (k, d)).
    + pose proof (cap_items_effect items (next_untranslated acc) st)
        as ((Hc & _ & _ & Hd) & _).
      pose proof (cap_items_table items (next_untranslated acc) st Hhere)
        as Htable.
      destruct (cap_items items (next_untranslated acc) st) as [next st1].
      cbn [snd] in *.
      eapply confined_trans; [by apply confined_table | by apply IH].
Qed.

Lemma descends_in_outputs table x :
  in_outputs outs table -> descends table x -> outs (fst (fst x)).
Proof.
  intros Hin (d & Hx & _).
  by apply (proj1 (Forall_forall _ _) Hin (fst x, d)).
Qed.

Lemma retry_pass_confined e st pass_number :
  confined outs st (snd (retry_untranslated_lines_sequential e st pass_number)).
Proof.
  unfold retry_untranslated_lines_sequential.
  destruct (untranslated_line_details st) as [|item rest] eqn:Hd;
    [apply confined_refl|].
  rewrite <- Hd.
  pose proof (group_by_path_Permutation (untranslated_line_details st)) as Hperm.
  pose proof (group_by_path_well_grouped (untranslated_line_details st)) as Hwg.
  pose proof (retry_groups_rewrites e pass_number
                (group_by_path (untranslated_line_details st))
                {| next_untranslated := []; successes := 0 |} st "" Hwg)
    as (Hcfg & _).
  pose proof (retry_groups_confined e pass_number
                (group_by_path (untranslated_line_details st))
                {| next_untranslated := []; successes := 0 |} st Hwg) as Hgroups.
  destruct (retry_groups _ _ _ _ _) as [[acc| |] st1] eqn:Hrun;
    cbn [snd] in *.
  - split; [done|]. intros Hin.
    assert (Hitems : in_outputs outs
                       (group_items (group_by_path (untranslated_line_details st)))).
    { unfold in_outputs. by rewrite Hperm. }
    destruct (Hgroups Hitems) as [_ Hconf]. destruct (Hconf Hin) as [Hdisk _].
    split; [exact Hdisk|].
    cbn [untranslated_line_details set_untranslated_line_details].
    apply Forall_forall. intros x Hx.
    eapply descends_in_outputs; [exact Hitems|].
    eapply (retry_groups_descends _ _ _ _
              {| next_untranslated := []; successes := 0 |});
      [| |exact Hrun|exact Hx]; [done|].
    intros y Hy. by apply elem_of_nil in Hy.
  - split; [done|]. intros Hin. apply Hgroups; [|done].
    unfold in_outputs. by rewrite Hperm.
  - split; [done|]. intros Hin. apply Hgroups; [|done].
    unfold in_outputs. by rewrite Hperm.
Qed.

Lemma retry_loop_confined e passes_left current_pass st :
  confined outs st (snd (retry_loop e passes_left current_pass st)).
Proof.
  revert current_pass st.
  induction passes_left as [|n IH]; intros current_pass st;
    [apply confined_refl|].
  cbn [retry_loop].
  destruct (untranslated_line_details st) as [|item rest] eqn:Hd;
    [apply confined_refl|].
  unfold read_flag. destruct (negb _); [by apply confined_same|].
  assert (Htick : confined outs st (tick st)) by (by apply confined_same).
  pose proof (retry_pass_confined e (tick st) (current_pass + 1)) as Hpass.
  destruct (retry_untranslated_lines_sequential e (tick st) (current_pass + 1))
    as [[[s remaining]| |] st1]; cbn [snd] in Hpass.
  - destruct (remaining =? 0).
    + eapply confined_trans; [exact Htick | exact Hpass].
    + eapply confined_trans; [exact Htick|].
      eapply confined_trans; [exact Hpass | apply IH].
  - eapply confined_trans; [exact Htick | exact Hpass].
  - eapply confined_trans; [exact Htick | exact Hpass].
Qed.

End Confined.

Lemma analyze_files_valid e files valid st :
  let r := analyze_files e files valid st in
  config (snd r) = config st
  /\ disk (snd r) = disk st
  /\ untranslated_line_details (snd r) = untranslated_line_details st
  /\ forall fp n, (fp, n) ∈ fst r -> (fp, n) ∈ valid \/ fp ∈ files.
Proof.
  revert valid st. induction files as [|fp rest IH]; intros valid st.
  - cbn [analyze_files fst snd]. repeat split; try done. by left.
  - cbn [analyze_files read_flag].
    destruct (negb _); [cbn [fst snd]; repeat split; try done; by left|].
    cbn [disk tick set_clock].
    assert (Hgo : forall valid',
              (forall fp' n, (fp', n) ∈ valid' ->
                 (fp', n) ∈ valid \/ fp' ∈ fp :: rest) ->
              let r := analyze_files e rest valid' (tick st) in
              config (snd r) = config st
              /\ disk (snd r) = disk st
              /\ untranslated_line_details (snd r) = untranslated_line_details st
              /\ forall fp' n, (fp', n) ∈ fst r ->
                   (fp', n) ∈ valid \/ fp' ∈ fp :: rest).
    { intros valid' Hvalid'.
      destruct (IH valid' (tick st)) as (Hc & Hd & Hu & Hv).
      repeat split; try done. intros fp' n Hin.
      destruct (Hv fp' n Hin) as [Hin'|Hin']; [by apply Hvalid'|].
      right. by right. }
    destruct (disk st !! fp) as [subs|];
      [destruct (0 <? List.length subs)|]; apply Hgo.
    + intros fp' n Hin. apply elem_of_app in Hin as [Hin|Hin]; [by left|].
      apply list_elem_of_singleton in Hin as [= -> ->]. right. by left.
    + intros fp' n Hin. by left.
    + intros fp' n Hin. by left.
Qed.

(** X19: whatever the user and the service do, a run changes no file
    other than the output files of the files it was given: a path whose
    content differs after the run is the output path that
    [get_output_path] gives for one of them. *)
Theorem translate_files_thread_writes_outputs_only e st files p :
  let st' := snd (translate_files_thread e st files) in
  disk st' !! p = disk st !! p \/ output_of st files p.
Proof.
  unfold translate_files_thread.
  destruct files as [|f files]; [by left|].
  set (st0 := set_final_untranslated_count 0
                (set_untranslated_line_details [] (set_output_files [] st))).
  set (outs := output_of st (f :: files)).
  pose proof (analyze_files_valid e (f :: files) [] st0) as (Hc1 & Hd1 & Hu1 & Hv).
  destruct (analyze_files e (f :: files) [] st0) as [valid st1].
  cbn [fst snd] in *.
  assert (H01 : confined outs st st1).
  { split; [done|]. intros _. split; [left; by rewrite Hd1|].
    rewrite Hu1. constructor. }
  assert (Hstart : in_outputs outs (untranslated_line_details st1)).
  { rewrite Hu1. constructor. }
  assert (Hend : forall st2, confined outs st1 st2 ->
            disk st2 !! p = disk st !! p \/ outs p).
  { intros st2 [_ H12]. destruct (H12 Hstart) as [Hdisk _].
    destruct (Hdisk p) as [Hp|?]; [|by right]. left. by rewrite Hp, Hd1. }
  unfold read_flag.
  destruct (negb _); [apply Hend; by apply confined_same|].
  destruct valid as [|v valid]; [apply Hend; by apply confined_same|].
  assert (Htick1 : confined outs st1 (tick st1)) by (by apply confined_same).
  pose proof (translate_valid_files_confined outs e (v :: valid) 0 (tick st1))
    as Hfiles.
  destruct (translate_valid_files e (v :: valid) 0 (tick st1))
    as [[count| |] st2]; cbn [snd] in Hfiles.
  all: assert (H12 : confined outs st1 st2);
    [eapply confined_trans; [exact Htick1|]; apply Hfiles;
     intros fp n Hin; destruct (Hv fp n Hin) as [Hnil|Hfp];
       [by apply elem_of_nil in Hnil|];
     exists fp; split; [done|];
     rewrite (get_output_path_config (tick st1) st) by done;
     cbn [config tick set_clock]; by rewrite Hc1
    |].
  - destruct (negb _).
    + apply Hend. eapply confined_trans; [exact H12 | by apply confined_same].
    + pose proof (retry_loop_confined outs e
                    (configured_passes (config (tick st2))) 0 (tick st2))
        as Hretry.
      assert (H23 : confined outs st1
                      (snd (retry_loop e (configured_passes (config (tick st2)))
                              0 (tick st2)))).
      { eapply confined_trans; [exact H12|].
        eapply confined_trans; [|exact Hretry]. by apply confined_same. }
      destruct (retry_loop _ _ _ _) as [[[]| |] st3]; cbn [snd] in *.
      * apply Hend. eapply confined_trans; [exact H23 | by apply confined_same].
      * by apply Hend.
      * by apply Hend.
  - by apply Hend.
  - by apply Hend.
Qed.

(* ================================================================== *)
(** * What the cache holds, and what a call can return *)
(* ================================================================== *)

Lemma request_loop_accepted e remaining sc tc stripped st t :
  fst (request_loop e remaining sc tc stripped st) = Some t ->
  accepted t stripped = true.
Proof.
  revert st. induction remaining as [|n IH]; intros st; cbn [request_loop].
  - done.
  - unfold read_flag. destruct (translation_in_progress e (clock st));
      cbn [negb]; [|done].
    unfold get_next_endpoint. cbn [current_endpoint_index set_request_count tick
                                    set_clock].
    destruct (api_endpoints !! current_endpoint_index st) as [ep|]; [|done].
    unfold ask_net.
    destruct (net e _ _) as [code body| |]; cbn [fst snd]; [|apply IH|done].
    destruct (code =? 200).
    + destruct (body ≫= extract_translation) as [t'|]; [|done].
      destruct (accepted t' stripped) eqn:Hacc; [|apply IH].
      by intros [= <-].
    + destruct (transient_status code); [apply IH | done].
Qed.

Lemma accepted_or_unchanged e st text target source max_retries :
  cache_sound (translation_cache st) ->
  let r := translate_text_direct e st text target source max_retries in
  cache_sound (translation_cache (snd r))
  /\ (fst r = text \/ accepted (fst r) (PyStr.strip text) = true).
Proof.
  intros Hsound. unfold translate_text_direct.
  destruct (negb (PyStr.truthy (PyStr.strip text))); [by auto|].
  destruct (language_codes target source) as [[sc tc]|] eqn:Hcodes; [|by auto].
  destruct (language_codes_pipe_free _ _ _ _ Hcodes) as [Hsc Htc].
  destruct (translation_cache st !! _) as [cached|] eqn:Hhit.
  - cbn [fst snd translation_cache set_cache_hits]. split; [done|]. right.
    destruct (Hsound _ _ Hhit) as (sc' & tc' & s' & Hk & Hsc' & Htc' & Hacc).
    apply cache_key_inj in Hk as (_ & _ & ->); done.
  - pose proof (request_loop_frame e (S max_retries) sc tc (PyStr.strip text) st)
      as (_ & Hc & _).
    pose proof (request_loop_accepted e (S max_retries) sc tc (PyStr.strip text)
                  st) as Hacc.
    destruct (request_loop e (S max_retries) sc tc (PyStr.strip text) st)
      as [[result|] st1]; cbn [fst snd] in *.
    + split; [|right; by apply Hacc].
      cbn [translation_cache set_translation_cache]. rewrite Hc.
      intros k v Hkv.
      destruct (decide (k = cache_key sc tc (PyStr.strip text))) as [->|Hne].
      * rewrite lookup_insert_eq in Hkv. injection Hkv as <-.
        exists sc, tc, (PyStr.strip text). repeat split; try done.
        by apply Hacc.
      * rewrite lookup_insert_ne in Hkv by done. by eapply Hsound.
    + split; [|by left]. simpl. by rewrite Hc.
Qed.

(** X20: the cache only ever holds accepted translations, and a call gives
    back either the very text it was given or a translation accepted for
    it (not empty, not blank, different from the text after trimming),
    whether the answer comes from the service or from the cache. *)
Theorem translate_text_direct_sound e st text target source max_retries :
  cache_sound (translation_cache st) ->
  let r := translate_text_direct e st text target source max_retries in
  cache_sound (translation_cache (snd r))
  /\ (fst r = text \/ accepted (fst r) (PyStr.strip text) = true).
Proof. apply accepted_or_unchanged. Qed.

Lemma translate_text_direct_sound_witness :
  let r := translate_text_direct translating_env
             (init_state default_settings one_line_disk)
             "Hello there" "Russian" "Auto" 3 in
  cache_sound (translation_cache (snd r))
  /\ (fst r = "Hello there"
      \/ accepted (fst r) (PyStr.strip "Hello there") = true).
Proof.
  apply (translate_text_direct_sound translating_env
           (init_state default_settings one_line_disk)
           "Hello there" "Russian" "Auto" 3).
  intros k v Hkv. simpl in Hkv. by rewrite lookup_empty in Hkv.
Defined.

(** X21: with such a cache, the API test ends with one of four dialogs:
    a language is not valid, the test succeeded, or the text came back as
    it was sent; the dialog for a failed or empty result is never shown.
    The test leaves the disk, the records, the list of output files and
    the history of attempts alone. *)
Theorem test_translation_dialogs e st :
  cache_sound (translation_cache st) ->
  let r := test_translation e st in
  (forall t, fst r <> TestFailed t)
  /\ line_frame st (snd r)
  /\ cache_sound (translation_cache (snd r)).
Proof.
  intros Hsound. unfold test_translation.
  destruct (_ || _); [split; [done | split; [apply line_frame_refl | done]]|].
  destruct (_ && _); [split; [done | split; [apply line_frame_refl | done]]|].
  pose proof (accepted_or_unchanged e st sample_text
                (target_lang (config st)) (source_lang (config st)) 1 Hsound)
    as [Hsound' Hres].
  pose proof (translate_text_direct_frame e st sample_text
                (target_lang (config st)) (source_lang (config st)) 1) as Hframe.
  destruct (translate_text_direct e st sample_text _ _ 1) as [translated st1].
  cbn [fst snd] in *.
  destruct (PyStr.truthy translated && PyStr.truthy (PyStr.strip translated)
            && negb (String.eqb (PyStr.strip translated) (PyStr.strip sample_text)))
    eqn:Hok; [split; [done | split; done]|].
  destruct (String.eqb translated sample_text) eqn:Hsame;
    [split; [done | split; done]|].
  destruct Hres as [->|Hacc].
  - by rewrite String.eqb_refl in Hsame.
  - unfold accepted in Hacc. by rewrite Hok in Hacc.
Qed.

Lemma test_translation_dialogs_witness :
  let r := test_translation busy_env (init_state default_settings one_line_disk) in
  (forall t, fst r <> TestFailed t)
  /\ line_frame (init_state default_settings one_line_disk) (snd r)
  /\ cache_sound (translation_cache (snd r)).
Proof.
  apply (test_translation_dialogs busy_env
           (init_state default_settings one_line_disk)).
  intros k v Hkv. simpl in Hkv. by rewrite lookup_empty in Hkv.
Defined.

(* ================================================================== *)
(** * Language codes for embedding *)
(* ================================================================== *)

Lemma substring_length_le n m s : String.length (substring n m s) <= m.
Proof.
  revert n m. induction s as [|c s IH]; intros n m.
  - destruct n, m; simpl; lia.
  - destruct n as [|n].
    + destruct m as [|m]; [simpl; lia|].
      cbn [substring String.length]. specialize (IH 0 m). lia.
    + cbn [substring]. apply IH.
Qed.

(** X22: whatever the language name and the fallback, known or not, the
    code that [get_embed_language_code] gives for the MKV track has at
    most three characters. *)
Theorem get_embed_language_code_length st language_name fallback :
  String.length (get_embed_language_code st language_name fallback) <= 3.
Proof.
  unfold get_embed_language_code.
  set (normalized := List.hd "" _).
  destruct (PyDict.get normalized ISO_639_2_CODES) as [c|] eqn:Hget.
  - apply PyDict_get_elem in Hget.
    assert (Hall : Forall (fun item => String.length (snd item) <= 3)
                     ISO_639_2_CODES).
    { vm_compute. repeat (constructor; [lia|]). constructor. }
    by apply (proj1 (Forall_forall _ _) Hall (normalized, c)).
  - apply substring_length_le.
Qed.

(* ================================================================== *)
(** * The list of files of the window *)
(* ================================================================== *)

Lemma already_selected_spec path w :
  Window.already_selected path w = true <-> path ∈ Window.selected_files w.
Proof.
  unfold Window.already_selected, normcase. rewrite existsb_exists. split.
  - intros (p & Hin & Heq). apply String.eqb_eq in Heq as ->.
    by apply list_elem_of_In.
  - intros Hin. exists path. split; [by apply list_elem_of_In|].
    apply String.eqb_refl.
Qed.

Lemma append_file_listed path w :
  Window.listed w -> path ∉ Window.selected_files w ->
  Window.listed (Window.append_file path w).
Proof.
  intros [Hbox Hnd] Hnew. split; cbn [Window.append_file Window.files_listbox
                                       Window.selected_files].
  - by rewrite fmap_app, Hbox.
  - apply NoDup_app. split; [done|]. split; [|apply NoDup_singleton].
    intros x Hx Hx'. apply list_elem_of_singleton in Hx' as ->. done.
Qed.

(** What the loop over dropped paths does; the loop of [browse_files] is
    the case of an operating system for which every path is a file of a
    supported kind. *)
Lemma drop_loop_spec os paths added w :
  Window.listed w ->
  let r := Window.drop_loop os paths added w in
  Window.listed (fst r)
  /\ (exists new,
        Window.selected_files (fst r) = (Window.selected_files w ++ new)%list
        /\ snd r = added + List.length new
        /\ (forall p, p ∈ new ->
              p ∈ paths /\ isfile os p = true
              /\ Window.supported_file p = true))
  /\ (forall p, p ∈ paths -> isfile os p = true ->
        Window.supported_file p = true ->
        p ∈ Window.selected_files (fst r))
  /\ Window.engine (fst r) = Window.engine w
  /\ Window.cleaned_files (fst r) = Window.cleaned_files w
  /\ Window.embedding_results (fst r) = Window.embedding_results w.
Proof.
  revert added w. induction paths as [|path rest IH]; intros added w Hlisted.
  - cbn [Window.drop_loop fst snd]. split; [done|]. split.
    + exists []. rewrite app_nil_r. split; [done|]. split; [simpl; lia|].
      by intros p Hp%elem_of_nil.
    + split; [by intros p Hp%elem_of_nil | done].
  - cbn [Window.drop_loop].
    assert (Hskip :
      (isfile os path && Window.supported_file path = false
       \/ path ∈ Window.selected_files w) ->
      let r := Window.drop_loop os rest added w in
      Window.listed (fst r)
      /\ (exists new,
            Window.selected_files (fst r) = (Window.selected_files w ++ new)%list
            /\ snd r = added + List.length new
            /\ (forall p, p ∈ new ->
                  p ∈ path :: rest /\ isfile os p = true
                  /\ Window.supported_file p = true))
      /\ (forall p, p ∈ path :: rest -> isfile os p = true ->
            Window.supported_file p = true ->
            p ∈ Window.selected_files (fst r))
      /\ Window.engine (fst r) = Window.engine w
      /\ Window.cleaned_files (fst r) = Window.cleaned_files w
      /\ Window.embedding_results (fst r) = Window.embedding_results w).
    { intros Hwhy.
      destruct (IH added w Hlisted)
        as (Hl & (new & Hsel & Hadded & Hnew) & Hall & He & Hc & Hr).
      split; [done|]. split; [|split; [|done]].
      - exists new. split; [done|]. split; [done|]. intros p Hp.
        destruct (Hnew p Hp) as (? & ? & ?). split; [by right | done].
      - intros p Hp Hfile Hkind.
        apply elem_of_cons in Hp as [->|Hp]; [|by apply Hall].
        destruct Hwhy as [Hno|Hin].
        + by rewrite Hfile, Hkind in Hno.
        + rewrite Hsel. apply elem_of_app. by left. }
    destruct (isfile os path && Window.supported_file path) eqn:Hok;
      [|apply Hskip; by left].
    destruct (Window.already_selected path w) eqn:Hsel;
      [apply Hskip; right; by apply already_selected_spec|].
    assert (Hnew : path ∉ Window.selected_files w).
    { intros Hin. apply already_selected_spec in Hin. congruence. }
    apply andb_true_iff in Hok as [Hfile Hkind].
    destruct (IH (added + 1) (Window.append_file path w)
                (append_file_listed path w Hlisted Hnew))
      as (Hl & (new & Hsel' & Hadded & Hnew') & Hall & He & Hc & Hr).
    cbn [Window.append_file Window.selected_files Window.engine
         Window.cleaned_files Window.embedding_results] in *.
    split; [done|]. split; [|split; [|done]].
    + exists (path :: new). rewrite Hsel', <- app_assoc. split; [done|].
      split; [simpl; lia|]. intros p Hp.
      apply elem_of_cons in Hp as [->|Hp]; [split; [by left | done]|].
      destruct (Hnew' p Hp) as (? & ? & ?). split; [by right | done].
    + intros p Hp Hf Hk. apply elem_of_cons in Hp as [->|Hp]; [|by apply Hall].
      rewrite Hsel'. apply elem_of_app. left. apply elem_of_app. right. by left.
Qed.

(** X23: a drop adds to the selection only dropped paths that are files
    and whose name ends in .srt or .mkv, whatever the case of the letters,
    adds every such path, keeps the earlier ones in place, never selects a
    path twice and keeps the list box showing the selection; the lists of
    outputs are emptied when a path was added and kept otherwise. *)
Theorem handle_drop_selects_supported os paths w :
  Window.listed w ->
  let w' := Window.handle_drop os paths w in
  Window.listed w'
  /\ (exists new,
        Window.selected_files w' = (Window.selected_files w ++ new)%list
        /\ (forall p, p ∈ new ->
              p ∈ paths /\ isfile os p = true /\ Window.supported_file p = true)
        /\ (new = [] ->
            Window.cleaned_files w' = Window.cleaned_files w
            /\ Window.embedding_results w' = Window.embedding_results w
            /\ Window.engine w' = Window.engine w)
        /\ (new <> [] ->
            Window.cleaned_files w' = [] /\ Window.embedding_results w' = []
            /\ output_files (Window.engine w') = []))
  /\ (forall p, p ∈ paths -> isfile os p = true ->
        Window.supported_file p = true -> p ∈ Window.selected_files w').
Proof.
  intros Hlisted. unfold Window.handle_drop.
  pose proof (drop_loop_spec os paths 0 w Hlisted)
    as (Hl & (new & Hsel & Hadded & Hnew) & Hall & He & Hc & Hr).
  destruct (Window.drop_loop os paths 0 w) as [w1 added]. cbn [fst snd] in *.
  destruct new as [|p0 new].
  - subst added. cbn [Nat.ltb Nat.leb]. rewrite app_nil_r in Hsel.
    split; [done|]. split; [|done].
    exists []. rewrite app_nil_r. split; [done|].
    split; [by intros p Hp%elem_of_nil|]. split; [|done].
    by intros _.
  - subst added. cbn [List.length Nat.add Nat.ltb Nat.leb].
    split; [exact Hl|]. split; [|exact Hall].
    exists (p0 :: new). split; [done|]. split; [done|]. split; [done|].
    intros _. by destruct w1.
Qed.

Lemma handle_drop_selects_supported_witness :
  let w' := Window.handle_drop two_files_os
              ["/subs/movie_cleaned.srt"; "/subs/notes.txt"; "/subs/gone.srt"]
              empty_window in
  Window.listed w'
  /\ (exists new,
        Window.selected_files w' = (Window.selected_files empty_window ++ new)%list
        /\ (forall p, p ∈ new ->
              p ∈ ["/subs/movie_cleaned.srt"; "/subs/notes.txt"; "/subs/gone.srt"]
              /\ isfile two_files_os p = true
              /\ Window.supported_file p = true)
        /\ (new = [] ->
            Window.cleaned_files w' = Window.cleaned_files empty_window
            /\ Window.embedding_results w' = Window.embedding_results empty_window
            /\ Window.engine w' = Window.engine empty_window)
        /\ (new <> [] ->
            Window.cleaned_files w' = [] /\ Window.embedding_results w' = []
            /\ output_files (Window.engine w') = []))
  /\ (forall p,
        p ∈ ["/subs/movie_cleaned.srt"; "/subs/notes.txt"; "/subs/gone.srt"] ->
        isfile two_files_os p = true ->
        Window.supported_file p = true -> p ∈ Window.selected_files w').
Proof.
  apply (handle_drop_selects_supported two_files_os
           ["/subs/movie_cleaned.srt"; "/subs/notes.txt"; "/subs/gone.srt"]
           empty_window).
  split; [reflexivity | apply NoDup_nil_2].
Defined.

Lemma browse_loop_spec paths added w :
  Window.listed w ->
  let r := Window.browse_loop paths added w in
  Window.listed (fst r)
  /\ (exists new,
        Window.selected_files (fst r) = (Window.selected_files w ++ new)%list
        /\ snd r = added + List.length new
        /\ (forall p, p ∈ new -> p ∈ paths))
  /\ (forall p, p ∈ paths -> p ∈ Window.selected_files (fst r))
  /\ Window.last_browse_dir (fst r) = Window.last_browse_dir w.
Proof.
  revert added w. induction paths as [|path rest IH]; intros added w Hlisted.
  - cbn [Window.browse_loop fst snd]. split; [done|]. split.
    + exists []. rewrite app_nil_r. split; [done|]. split; [simpl; lia|].
      by intros p Hp%elem_of_nil.
    + split; [by intros p Hp%elem_of_nil | done].
  - cbn [Window.browse_loop].
    destruct (Window.already_selected path w) eqn:Hsel.
    + apply already_selected_spec in Hsel.
      destruct (IH added w Hlisted)
        as (Hl & (new & Hsel' & Hadded & Hnew) & Hall & Hdir).
      split; [done|]. split; [|split; [|done]].
      * exists new. split; [done|]. split; [done|]. intros p Hp.
        right. by apply Hnew.
      * intros p Hp. apply elem_of_cons in Hp as [->|Hp]; [|by apply Hall].
        rewrite Hsel'. apply elem_of_app. by left.
    + assert (Hnew : path ∉ Window.selected_files w).
      { intros Hin. apply already_selected_spec in Hin. congruence. }
      destruct (IH (added + 1) (Window.append_file path w)
                  (append_file_listed path w Hlisted Hnew))
        as (Hl & (new & Hsel' & Hadded & Hnew') & Hall & Hdir).
      cbn [Window.append_file Window.selected_files Window.last_browse_dir] in *.
      split; [done|]. split; [|split; [|done]].
      * exists (path :: new). rewrite Hsel', <- app_assoc. split; [done|].
        split; [simpl; lia|]. intros p Hp.
        apply elem_of_cons in Hp as [->|Hp]; [by left|]. right. by apply Hnew'.
      * intros p Hp. apply elem_of_cons in Hp as [->|Hp]; [|by apply Hall].
        rewrite Hsel'. apply elem_of_app. left. apply elem_of_app. right. by left.
Qed.

(** X24: after the file dialog, every chosen path is selected; the paths
    selected before are still there, in place, followed by the new ones,
    each of which was chosen; no path is selected twice, the list box shows
    the selection, and the directory of the first chosen path is remembered
    for the next dialog. *)
Theorem browse_files_selects_chosen paths w :
  Window.listed w ->
  let w' := Window.browse_files paths w in
  Window.listed w'
  /\ (exists new,
        Window.selected_files w' = (Window.selected_files w ++ new)%list
        /\ forall p, p ∈ new -> p ∈ paths)
  /\ (forall p, p ∈ paths -> p ∈ Window.selected_files w')
  /\ (forall first rest, paths = first :: rest ->
        Window.last_browse_dir w' = Some (PosixPath.dirname first)).
Proof.
  intros Hlisted. unfold Window.browse_files.
  destruct paths as [|first rest].
  - split; [done|]. split; [exists []; by rewrite app_nil_r|].
    split; [by intros p Hp%elem_of_nil | done].
  - pose proof (browse_loop_spec (first :: rest) 0
                  (Window.set_last_browse_dir (PosixPath.dirname first) w)
                  Hlisted)
      as (Hl & (new & Hsel & _ & Hnew) & Hall & Hdir).
    destruct (Window.browse_loop (first :: rest) 0 _) as [w1 added].
    cbn [fst snd Window.set_last_browse_dir Window.selected_files
         Window.last_browse_dir] in *.
    assert (Hgoal :
      forall w2, Window.selected_files w2 = Window.selected_files w1 ->
        Window.files_listbox w2 = Window.files_listbox w1 ->
        Window.last_browse_dir w2 = Window.last_browse_dir w1 ->
        Window.listed w2
        /\ (exists new0,
              Window.selected_files w2 = (Window.selected_files w ++ new0)%list
              /\ forall p, p ∈ new0 -> p ∈ first :: rest)
        /\ (forall p, p ∈ first :: rest -> p ∈ Window.selected_files w2)
        /\ (forall first0 rest0, first :: rest = first0 :: rest0 ->
              Window.last_browse_dir w2 = Some (PosixPath.dirname first0))).
    { intros w2 Hs Hb Hd. split.
      { destruct Hl as [Hbox Hnd]. split; [by rewrite Hb, Hs | by rewrite Hs]. }
      split; [exists new; by rewrite Hs|].
      split; [intros p Hp; rewrite Hs; by apply Hall|].
      intros first0 rest0 [= <- <-]. by rewrite Hd. }
    destruct (0 <? added); by apply Hgoal.
Qed.

Lemma browse_files_selects_chosen_witness :
  let w' := Window.browse_files ["/subs/a.srt"; "/subs/b.mkv"; "/subs/a.srt"]
              empty_window in
  Window.listed w'
  /\ (exists new,
        Window.selected_files w' = (Window.selected_files empty_window ++ new)%list
        /\ forall p, p ∈ new -> p ∈ ["/subs/a.srt"; "/subs/b.mkv"; "/subs/a.srt"])
  /\ (forall p, p ∈ ["/subs/a.srt"; "/subs/b.mkv"; "/subs/a.srt"] ->
        p ∈ Window.selected_files w')
  /\ (forall first rest,
        ["/subs/a.srt"; "/subs/b.mkv"; "/subs/a.srt"] = first :: rest ->
        Window.last_browse_dir w' = Some (PosixPath.dirname first)).
Proof.
  apply (browse_files_selects_chosen
           ["/subs/a.srt"; "/subs/b.mkv"; "/subs/a.srt"] empty_window).
  split; [reflexivity | apply NoDup_nil_2].
Defined.

(* ================================================================== *)
(** * The stages of the window *)
(* ================================================================== *)

Lemma busy_false_stages w :
  Window.busy w = false <-> Window.stages_running w = 0.
Proof.
  unfold Window.busy, Window.stages_running, Window.stages.
  destruct (Window.mkv_processing_in_progress w),
           (Window.cleaning_in_progress w),
           (Window.translation_in_progress w),
           (Window.embedding_in_progress w); simpl; split; (done || lia).
Qed.

Lemma start_mkv_processing_starts w :
  starts_one_stage w (Window.start_mkv_processing w).
Proof.
  unfold Window.start_mkv_processing.
  destruct (Window.busy w) eqn:Hbusy; [split; [done | by intros [? ?]]|].
  destruct (List.filter _ _); [split; [done | by intros [? ?]]|].
  split; [done|]. intros _. apply busy_false_stages in Hbusy.
  split; [done|]. revert Hbusy. unfold Window.stages_running, Window.stages.
  cbn. destruct (Window.cleaning_in_progress w),
                (Window.translation_in_progress w),
                (Window.embedding_in_progress w),
                (Window.mkv_processing_in_progress w); simpl; done.
Qed.

Lemma begin_cleaning_starts files w :
  Window.busy w = false ->
  starts_one_stage w (Window.begin_cleaning files w).
Proof.
  intros Hbusy. split; [done|]. intros _. apply busy_false_stages in Hbusy.
  split; [done|]. revert Hbusy. unfold Window.stages_running, Window.stages.
  cbn. destruct (Window.cleaning_in_progress w),
                (Window.translation_in_progress w),
                (Window.embedding_in_progress w),
                (Window.mkv_processing_in_progress w); simpl; done.
Qed.

Lemma start_cleaning_starts confirm w :
  starts_one_stage w (Window.start_cleaning confirm w).
Proof.
  unfold Window.start_cleaning.
  destruct (Window.busy w) eqn:Hbusy; [split; [done | by intros [? ?]]|].
  destruct (List.filter Window.is_srt _); [split; [done | by intros [? ?]]|].
  destruct (List.filter _ (_ :: _)); [|by apply begin_cleaning_starts].
  destruct (negb (Window.run_all_in_progress w));
    [|by apply begin_cleaning_starts].
  destruct (negb confirm); [split; [done | by intros [? ?]]|].
  by apply begin_cleaning_starts.
Qed.

Lemma start_translation_starts w :
  starts_one_stage w (Window.start_translation w).
Proof.
  unfold Window.start_translation.
  destruct (Window.busy w) eqn:Hbusy; [split; [done | by intros [? ?]]|].
  destruct (List.filter _ _); [split; [done | by intros [? ?]]|].
  split; [done|]. intros _. apply busy_false_stages in Hbusy.
  split; [done|]. revert Hbusy. unfold Window.stages_running, Window.stages.
  cbn. destruct (Window.cleaning_in_progress w),
                (Window.translation_in_progress w),
                (Window.embedding_in_progress w),
                (Window.mkv_processing_in_progress w); simpl; done.
Qed.

Lemma start_embedding_starts os w :
  starts_one_stage w (Window.start_embedding os w).
Proof.
  unfold Window.start_embedding.
  destruct (Window.busy w) eqn:Hbusy; [split; [done | by intros [? ?]]|].
  destruct (abspath os <$> _); [split; [done | by intros [? ?]]|].
  destruct (Window.embedding_tasks _ _ _); [split; [done | by intros [? ?]]|].
  split; [done|]. intros _. apply busy_false_stages in Hbusy.
  split; [done|]. revert Hbusy. unfold Window.stages_running, Window.stages.
  cbn. destruct (Window.cleaning_in_progress w),
                (Window.translation_in_progress w),
                (Window.embedding_in_progress w),
                (Window.mkv_processing_in_progress w); simpl; done.
Qed.

(** X25: the four stages exclude one another.  Each of the methods that
    start a stage either changes nothing and starts no thread, or starts
    its thread from a window in which no stage was in progress and leaves
    exactly one in progress; so a window with at most one stage in progress
    stays so, whichever of them is called. *)
Theorem start_methods_exclusive os confirm w r :
  r ∈ [Window.start_mkv_processing w; Window.start_cleaning confirm w;
       Window.start_translation w; Window.start_embedding os w] ->
  (snd r = None -> fst r = w)
  /\ (is_Some (snd r) ->
      Window.stages_running w = 0 /\ Window.stages_running (fst r) = 1)
  /\ (Window.stages_running w <= 1 -> Window.stages_running (fst r) <= 1).
Proof.
  intros Hr.
  assert (Hone : starts_one_stage w r).
  { repeat (apply elem_of_cons in Hr as [->|Hr]);
      [apply start_mkv_processing_starts | apply start_cleaning_starts
      | apply start_translation_starts | apply start_embedding_starts|].
    by apply elem_of_nil in Hr. }
  destruct Hone as [Hnone Hsome]. split; [done|]. split.
  - intros Hs. by destruct (Hsome Hs) as (? & ? & _).
  - intros Hle. destruct (snd r) as [t|] eqn:Ht.
    + destruct Hsome as (_ & -> & _); [by eexists | lia].
    + by rewrite Hnone.
Qed.

Lemma start_methods_exclusive_witness :
  let w := Window.browse_files ["/subs/movie_cleaned.srt"] empty_window in
  let r := Window.start_translation w in
  (snd r = None -> fst r = w)
  /\ (is_Some (snd r) ->
      Window.stages_running w = 0 /\ Window.stages_running (fst r) = 1)
  /\ (Window.stages_running w <= 1 -> Window.stages_running (fst r) <= 1).
Proof.
  apply (start_methods_exclusive two_files_os false
           (Window.browse_files ["/subs/movie_cleaned.srt"] empty_window)).
  apply elem_of_cons. right. apply elem_of_cons. right. apply elem_of_cons.
  by left.
Defined.

Lemma existsb_filter_nonempty {A} (f : A -> bool) (l : list A) :
  existsb f l = true -> List.filter f l <> [].
Proof.
  induction l as [|x l IH]; [done|]. cbn [existsb List.filter].
  destruct (f x); [done|]. exact IH.
Qed.

Lemma PyDict_set_nonempty {K V} `{EqDecision K} (k : K) (v : V) d :
  PyDict.set k v d <> [].
Proof. destruct d as [|[k1 v1] d]; simpl; [done|]. by destruct (decide _). Qed.

Lemma embedding_tasks_nonempty os w srts :
  existsb (fun srt => bool_decide (is_Some (Window.embed_target os w srt))) srts
  = true ->
  Window.embedding_tasks os w srts <> [].
Proof.
  unfold Window.embedding_tasks.
  assert (Hkeep : forall l tasks, tasks <> [] ->
            foldl (fun tasks srt =>
                     match Window.embed_target os w srt with
                     | Some mkv => Window.add_task mkv srt tasks
                     | None => tasks
                     end) tasks l <> []).
  { induction l as [|srt l IH]; intros tasks Hne; [done|].
    cbn [foldl]. apply IH. destruct (Window.embed_target os w srt); [|done].
    unfold Window.add_task. destruct (PyDict.get _ _);
      apply PyDict_set_nonempty. }
  assert (Hsome : forall l tasks,
            existsb (fun srt =>
                       bool_decide (is_Some (Window.embed_target os w srt))) l
            = true ->
            foldl (fun tasks srt =>
                     match Window.embed_target os w srt with
                     | Some mkv => Window.add_task mkv srt tasks
                     | None => tasks
                     end) tasks l <> []).
  { induction l as [|srt l IH]; intros tasks; [done|].
    cbn [existsb foldl]. intros Hex.
    apply orb_true_iff in Hex as [Hhere|Hlater]; [|by apply IH].
    apply bool_decide_eq_true in Hhere as [mkv Hmkv]. rewrite Hmkv.
    apply Hkeep. unfold Window.add_task. destruct (PyDict.get _ _);
      apply PyDict_set_nonempty. }
  apply Hsome.
Qed.

Lemma launched_outcome step w r :
  starts_one_stage w r -> is_Some (snd r) ->
  Window.run_all_in_progress w = true ->
  step_outcome step (Window.launched r).
Proof.
  intros [_ Hsome] [t Ht] Hon. destruct r as [w' o]. cbn [snd] in Ht. subst o.
  destruct Hsome as (_ & H1 & _ & Hrun); [by eexists|].
  unfold step_outcome. cbn [Window.launched fst snd] in *.
  split; [done | congruence].
Qed.

Lemma initiate_next_run_all_step_outcome os step w :
  Window.run_all_in_progress w = true ->
  Window.busy w = false ->
  step_outcome step (Window.initiate_next_run_all_step os step w).
Proof.
  intros Hon Hfree. unfold Window.initiate_next_run_all_step.
  rewrite Hon. cbn [negb].
  set (w1 := Window.set_run_all_current_step step w).
  assert (Hon1 : Window.run_all_in_progress w1 = true) by done.
  assert (Hfree1 : Window.busy w1 = false) by done.
  assert (Hdone : step_outcome step (Window.run_all_complete w1, Complete)).
  { unfold step_outcome. cbn [fst snd]. split; [|done].
    by apply busy_false_stages. }
  destruct (String.eqb step "mkv") eqn:Hmkv.
  { apply String.eqb_eq in Hmkv.
    destruct (existsb Window.is_mkv _) eqn:Hex.
    - apply (launched_outcome step w1); [apply start_mkv_processing_starts| |done].
      unfold Window.start_mkv_processing. rewrite Hfree1.
      apply existsb_filter_nonempty in Hex.
      destruct (List.filter _ _); [done | by eexists].
    - unfold step_outcome. cbn [fst snd]. split; [done|]. split; [done|].
      left. by split. }
  destruct (String.eqb step "clean") eqn:Hclean.
  { apply String.eqb_eq in Hclean.
    destruct (existsb _ _) eqn:Hex.
    - apply (launched_outcome step w1); [apply start_cleaning_starts| |done].
      unfold Window.start_cleaning. rewrite Hfree1, Hon1. cbn [negb].
      assert (Hsrt : List.filter Window.is_srt (Window.selected_files w1) <> []).
      { apply existsb_filter_nonempty. apply existsb_exists.
        apply existsb_exists in Hex as (f & Hin & Hf).
        apply andb_true_iff in Hf as [Hf _]. eauto. }
      destruct (List.filter Window.is_srt _); [done|].
      destruct (List.filter _ (_ :: _)); by eexists.
    - unfold step_outcome. cbn [fst snd]. split; [done|]. split; [done|].
      right. left. by split. }
  destruct (String.eqb step "translate") eqn:Htr.
  { apply String.eqb_eq in Htr.
    destruct (existsb Window.is_cleaned _) eqn:Hex.
    - apply (launched_outcome step w1); [apply start_translation_starts| |done].
      unfold Window.start_translation. rewrite Hfree1.
      apply existsb_filter_nonempty in Hex.
      destruct (List.filter _ _); [done | by eexists].
    - unfold step_outcome. cbn [fst snd]. split; [done|]. split; [done|].
      right. right. by split. }
  destruct (String.eqb step "embed"); [|exact Hdone].
  destruct (existsb _ _) eqn:Hex; [|exact Hdone].
  apply (launched_outcome step w1); [apply start_embedding_starts| |done].
  unfold Window.start_embedding. rewrite Hfree1.
  assert (Htasks :
    Window.embedding_tasks os w1
      (abspath os <$> List.filter Window.is_srt (output_files (Window.engine w1)))
    <> []).
  { apply embedding_tasks_nonempty. apply existsb_exists.
    apply existsb_exists in Hex as (srt & Hin & Hsrt).
    exists (abspath os srt). split; [|done].
    apply list_elem_of_In, list_elem_of_fmap. exists srt.
    split; [done | by apply list_elem_of_In]. }
  destruct (abspath os <$> _) as [|srt srts] eqn:Hsrts.
  { exfalso. apply Htasks. reflexivity. }
  destruct (Window.embedding_tasks os w1 (srt :: srts)); [done | by eexists].
Qed.

(** X26: once the pipeline is switched on and no stage is in progress, its
    first step and the steps it schedules never leave it with nothing done:
    within three scheduled steps a stage is started (exactly one stage is
    then in progress and the pipeline is still on) or the pipeline is
    complete (no stage in progress, the pipeline off). *)
Theorem run_all_never_stalls os w :
  Window.run_all_in_progress w = true ->
  Window.busy w = false ->
  let r := Window.run_scheduled os 3 "mkv" w in
  (snd r = Complete
   /\ Window.stages_running (fst r) = 0
   /\ Window.run_all_in_progress (fst r) = false)
  \/ (exists t, snd r = Launched t
                /\ Window.stages_running (fst r) = 1
                /\ Window.run_all_in_progress (fst r) = true).
Proof.
  intros Hon Hfree.
  assert (Hend : forall step r, step_outcome step r ->
            (forall next, snd r <> Scheduled next) ->
            (snd r = Complete
             /\ Window.stages_running (fst r) = 0
             /\ Window.run_all_in_progress (fst r) = false)
            \/ (exists t, snd r = Launched t
                          /\ Window.stages_running (fst r) = 1
                          /\ Window.run_all_in_progress (fst r) = true)).
  { intros step [w' o] Hout Hns. unfold step_outcome in Hout.
    cbn [fst snd] in *. destruct o as [t|next| |]; [|by destruct (Hns next)|..].
    - right. exists t. by destruct Hout.
    - left. by destruct Hout.
    - done. }
  cbn [Window.run_scheduled].
  pose proof (initiate_next_run_all_step_outcome os "mkv" w Hon Hfree) as H1.
  destruct (Window.initiate_next_run_all_step os "mkv" w) as [w1 [t|n1| |]];
    try (by eapply Hend; [exact H1|]).
  destruct H1 as (Hfree1 & Hon1 & [[_ ->]|[[? _]|[? _]]]); [|done..].
  pose proof (initiate_next_run_all_step_outcome os "clean" w1 Hon1 Hfree1) as H2.
  destruct (Window.initiate_next_run_all_step os "clean" w1) as [w2 [t|n2| |]];
    try (by eapply Hend; [exact H2|]).
  destruct H2 as (Hfree2 & Hon2 & [[? _]|[[_ ->]|[? _]]]); [done| |done].
  pose proof (initiate_next_run_all_step_outcome os "translate" w2 Hon2 Hfree2)
    as H3.
  destruct (Window.initiate_next_run_all_step os "translate" w2)
    as [w3 [t|n3| |]]; try (by eapply Hend; [exact H3|]).
  destruct H3 as (Hfree3 & Hon3 & [[? _]|[[? _]|[_ ->]]]); [done..|].
  pose proof (initiate_next_run_all_step_outcome os "embed" w3 Hon3 Hfree3) as H4.
  destruct (Window.initiate_next_run_all_step os "embed" w3) as [w4 [t|n4| |]];
    try (by eapply Hend; [exact H4|]).
  destruct H4 as (_ & _ & [[? _]|[[? _]|[? _]]]); done.
Qed.

Lemma run_all_never_stalls_witness :
  let r := Window.run_scheduled two_files_os 3 "mkv"
             (pipeline_window ["/subs/movie_cleaned.srt"]) in
  (snd r = Complete
   /\ Window.stages_running (fst r) = 0
   /\ Window.run_all_in_progress (fst r) = false)
  \/ (exists t, snd r = Launched t
                /\ Window.stages_running (fst r) = 1
                /\ Window.run_all_in_progress (fst r) = true).
Proof.
  apply (run_all_never_stalls two_files_os
           (pipeline_window ["/subs/movie_cleaned.srt"])).
  - reflexivity.
  - reflexivity.
Defined.

(* ================================================================== *)
(** * What an output name is made of *)
(* ================================================================== *)

Lemma string_append_assoc (a b c : string) : (a ++ b) ++ c = a ++ b ++ c.
Proof.
  induction a as [|x a IH]; [reflexivity|].
  change (String x ((a ++ b) ++ c) = String x (a ++ b ++ c)). by rewrite IH.
Qed.

Lemma PosixPath_join_suffix a b : exists pre, PosixPath.join a b = pre ++ b.
Proof.
  unfold PosixPath.join. destruct (PyStr.startswith_char _ b); [by exists ""|].
  destruct (_ || _); [by exists a|].
  exists (a ++ "/"). by rewrite string_append_assoc.
Qed.

(** X27: whatever the naming pattern, the output path ends with the
    extension of the input file and contains the code of the target
    language (for a name that is not in the table, its first two
    characters in lower case). *)
Theorem get_output_path_code_and_extension st input_path target :
  let ext := snd (PosixPath.splitext (PosixPath.basename input_path)) in
  let code := match languages_get target with
              | Some c => c
              | None => PyStr.lower (PyStr.take 2 target)
              end in
  exists before between,
    get_output_path st input_path target = before ++ code ++ between ++ ext.
Proof.
  unfold get_output_path.
  destruct (PosixPath.splitext (PosixPath.basename input_path)) as [base ext].
  cbn [snd].
  set (code := match languages_get target with
               | Some c => c
               | None => PyStr.lower (PyStr.take 2 target)
               end).
  set (core := if _ && _ && _ then _ else _).
  match goal with
  | |- context [PosixPath.join ?a ?b] =>
      destruct (PosixPath_join_suffix a b) as (pre & ->)
  end.
  destruct (String.eqb _ "Original_language").
  - exists (pre ++ core ++ "_"), "".
    rewrite !string_append_assoc. reflexivity.
  - destruct (String.eqb _ "language.Original").
    + exists pre, ("." ++ core). rewrite !string_append_assoc. reflexivity.
    + exists (pre ++ core ++ "."), "".
      rewrite !string_append_assoc. reflexivity.
Qed.

(* ================================================================== *)
(** * The summary of a run *)
(* ================================================================== *)

Lemma retry_groups_output_files e pass_number grouped acc st :
  output_files (snd (retry_groups e pass_number grouped acc st))
  = output_files st.
Proof.
  revert acc st. induction grouped as [|[p items] rest IH]; intros acc st;
    [done|].
  cbn [retry_groups].
  destruct (disk st !! p) as [subs|].
  - pose proof (retry_items_modified e pass_number items
                  {| fa_subs := subs; fa_modified := false; fa_pass := acc |} st)
      as ((_ & _ & Ho & _) & _).
    destruct (retry_items _ _ _ _ _) as [[fa| |] st1]; cbn [fst snd] in *;
      [|done..].
    rewrite IH. destruct (fa_modified fa); [|done].
    unfold save_subtitles. by destruct (write_ok e (clock st1)).
  - pose proof (cap_items_effect items (next_untranslated acc) st)
      as ((_ & _ & Ho & _) & _).
    destruct (cap_items items (next_untranslated acc) st) as [next st1].
    cbn [snd] in *. by rewrite IH.
Qed.

Lemma retry_loop_output_files e passes_left current_pass st :
  output_files (snd (retry_loop e passes_left current_pass st)) = output_files st.
Proof.
  revert current_pass st.
  induction passes_left as [|n IH]; intros current_pass st; [done|].
  cbn [retry_loop].
  destruct (untranslated_line_details st) as [|item rest] eqn:Hd; [done|].
  unfold read_flag. destruct (negb _); [done|].
  assert (Hpass :
    output_files
      (snd (retry_untranslated_lines_sequential e (tick st) (current_pass + 1)))
    = output_files st).
  { unfold retry_untranslated_lines_sequential.
    destruct (untranslated_line_details (tick st)) eqn:Hd2; [done|].
    rewrite <- Hd2.
    pose proof (retry_groups_output_files e (current_pass + 1)
                  (group_by_path (untranslated_line_details (tick st)))
                  {| next_untranslated := []; successes := 0 |} (tick st)) as Hg.
    destruct (retry_groups _ _ _ _ _) as [[acc| |] st1];
      cbn [snd output_files set_untranslated_line_details tick set_clock] in *;
      congruence. }
  destruct (retry_untranslated_lines_sequential e (tick st) (current_pass + 1))
    as [[[s remaining]| |] st1]; cbn [snd] in Hpass; [|done..].
  destruct (remaining =? 0); [done|]. by rewrite IH.
Qed.

Lemma process_file_parallel_output_files e st file_path output_path source target :
  output_files (snd (process_file_parallel e st file_path output_path source target))
  = output_files st.
Proof.
  unfold process_file_parallel.
  destruct (disk st !! file_path) as [subs|]; [|done].
  destruct (List.length subs =? 0).
  - unfold save_subtitles. by destruct (write_ok e (clock st)).
  - pose proof (as_completed_loop_frame e output_path source target subs
                  (List.length subs) (imap pair subs) empty_acc st)
      as (_ & _ & Ho & _).
    destruct (as_completed_loop _ _ _ _ _ _ _ _ _) as [[acc| |] st1];
      cbn [snd] in *; [|done..].
    unfold save_subtitles. by destruct (write_ok e (clock st1)).
Qed.

Lemma translate_valid_files_output_files e valid done st :
  NoDup (output_files st) ->
  let st' := snd (translate_valid_files e valid done st) in
  NoDup (output_files st')
  /\ List.length (output_files st')
     <= List.length (output_files st) + List.length valid.
Proof.
  revert done st. induction valid as [|[fp count] rest IH]; intros done st Hnd.
  - simpl. split; [done | lia].
  - cbn [translate_valid_files read_flag List.length].
    destruct (negb _); [simpl; split; [done | lia]|].
    pose proof (process_file_parallel_output_files e (tick st) fp
                  (get_output_path (tick st) fp (target_lang (config (tick st))))
                  (source_lang (config (tick st)))
                  (target_lang (config (tick st)))) as Ho.
    destruct (process_file_parallel _ _ _ _ _ _) as [[r| |] st1];
      cbn [snd] in Ho; simpl in Ho.
    + set (out := get_output_path (tick st) fp (target_lang (config (tick st)))).
      assert (Hnote :
        NoDup (output_files (note_output_file out st1))
        /\ List.length (output_files (note_output_file out st1))
           <= S (List.length (output_files st))).
      { unfold note_output_file. destruct (path_exists st1 out);
          [|rewrite Ho; split; [done | lia]].
        destruct (bool_decide (out ∈ output_files st1)) eqn:Hin;
          [rewrite Ho; split; [done | lia]|].
        apply bool_decide_eq_false in Hin.
        cbn [output_files set_output_files]. rewrite Ho in *. split.
        - apply NoDup_app. split; [done|]. split; [|apply NoDup_singleton].
          intros x Hx Hx'. apply list_elem_of_singleton in Hx' as ->. done.
        - rewrite length_app. simpl. lia. }
      destruct Hnote as [Hnd1 Hlen1].
      destruct (IH (done + lines_processed r) (note_output_file out st1) Hnd1)
        as [Hnd2 Hlen2].
      split; [done | lia].
    + cbn [snd]. rewrite Ho. split; [done | lia].
    + destruct (IH done st1) as [Hnd2 Hlen2]; [by rewrite Ho|].
      split; [done|]. rewrite Ho in Hlen2. lia.
Qed.

Lemma analyze_files_length e files valid st :
  List.length (fst (analyze_files e files valid st))
  <= List.length valid + List.length files
  /\ output_files (snd (analyze_files e files valid st)) = output_files st.
Proof.
  revert valid st. induction files as [|fp rest IH]; intros valid st.
  - simpl. split; [lia | done].
  - cbn [analyze_files read_flag List.length].
    destruct (negb _); [simpl; split; [lia | done]|].
    cbn [disk tick set_clock].
    destruct (disk st !! fp) as [subs|]; [destruct (0 <? List.length subs)|].
    + destruct (IH (valid ++ [(fp, List.length subs)])%list (tick st))
        as [Hlen Ho].
      rewrite length_app in Hlen. simpl in Hlen. split; [lia | done].
    + destruct (IH valid (tick st)) as [Hlen Ho]. split; [lia | done].
    + destruct (IH valid (tick st)) as [Hlen Ho]. split; [lia | done].
Qed.

(** X28: however a run ends, a summary never counts more output files
    than files: the number of output files it reports is the length of the
    list of output files, which names no path twice, and is at most the
    number of files it reports. *)
Theorem translate_files_thread_summary e st files s st' :
  translate_files_thread e st files = (Finalized s, st') ->
  files_ok s = List.length (output_files st')
  /\ NoDup (output_files st')
  /\ files_ok s <= files_total s.
Proof.
  unfold translate_files_thread.
  destruct files as [|f files]; [done|].
  set (st0 := set_final_untranslated_count 0
                (set_untranslated_line_details [] (set_output_files [] st))).
  pose proof (analyze_files_length e (f :: files) [] st0) as [Hvalid Ho1].
  destruct (analyze_files e (f :: files) [] st0) as [valid st1].
  cbn [fst snd] in *. simpl in Ho1, Hvalid.
  unfold read_flag.
  destruct (negb _).
  { intros [= <- <-]. cbn. rewrite Ho1. split; [done|].
    split; [apply NoDup_nil_2 | simpl; lia]. }
  destruct valid as [|v valid]; [done|].
  pose proof (translate_valid_files_output_files e (v :: valid) 0 (tick st1))
    as Hfiles.
  destruct (translate_valid_files e (v :: valid) 0 (tick st1))
    as [[count| |] st2]; cbn [snd] in Hfiles; [| |done].
  - destruct Hfiles as [Hnd2 Hlen2];
      [cbn [output_files tick set_clock]; rewrite Ho1; apply NoDup_nil_2|].
    cbn [output_files tick set_clock] in Hlen2. rewrite Ho1 in Hlen2.
    simpl in Hlen2.
    destruct (negb _).
    { intros [= <- <-]. cbn. split; [done|]. split; [done|]. simpl in *. lia. }
    pose proof (retry_loop_output_files e (configured_passes (config (tick st2)))
                  0 (tick st2)) as Ho3.
    destruct (retry_loop _ _ _ _) as [[[]| |] st3]; cbn [snd] in Ho3;
      simpl in Ho3; [| |done].
    + intros [= <- <-]. cbn. rewrite Ho3. split; [done|]. split; [done|].
      simpl. lia.
    + intros [= <- <-]. cbn. rewrite Ho3. split; [done|]. split; [done|].
      simpl in *. lia.
  - destruct Hfiles as [Hnd2 Hlen2];
      [cbn [output_files tick set_clock]; rewrite Ho1; apply NoDup_nil_2|].
    cbn [output_files tick set_clock] in Hlen2. rewrite Ho1 in Hlen2.
    simpl in Hlen2.
    intros [= <- <-]. cbn. split; [done|]. split; [done|]. simpl in *. lia.
Qed.

Lemma translate_files_thread_summary_witness :
  exists s st',
    translate_files_thread translating_env
      (init_state default_settings one_line_disk) ["/subs/movie_cleaned.srt"]
    = (Finalized s, st')
    /\ files_ok s = List.length (output_files st')
    /\ NoDup (output_files st')
    /\ files_ok s <= files_total s.
Proof.
  eexists _, _. split; [vm_compute; reflexivity|].
  eapply (translate_files_thread_summary translating_env
            (init_state default_settings one_line_disk)
            ["/subs/movie_cleaned.srt"]).
  vm_compute. reflexivity.
Defined.
